(** * Xen message channels ([python/xen/channel.py])

    A shallow embedding of the [Channel] class: the frame encoder
    ([send_format] and the sends derived from it), the serial counter, the
    incremental frame decoder ([_receive]) and the job queue, together with
    the loop-back transport [FakeSocket] of the module's [__main__] block.

    Python values are modelled as follows.
    - [bytes] objects are lists of integers (each in [0, 255]);
    - [str] objects are lists of code points;
    - Python integers are [Z];
    - a method is a function in the monad [M]: it threads the instance
      ([self]) and either returns a value or raises, the instance keeping
      every mutation made before the [raise]. *)

From Stdlib Require Import ZArith List String Ascii Bool Lia Sorted.
Import ListNotations.
Open Scope Z_scope.


(** ** Python sequences *)

Definition bytes := list Z.
Definition text := list Z.

(** [len(x)] *)
Definition len {A : Type} (l : list A) : Z := Z.of_nat (List.length l).

(** Spelling a literal: the code points (or bytes) of an ASCII string. *)
Fixpoint text_of (s : string) : text :=
  match s with
  | EmptyString => []
  | String c s' => Z.of_N (N_of_ascii c) :: text_of s'
  end.

Definition bytes_of (s : string) : bytes := text_of s.

(** [x[i]]: a negative index counts from the end, an index out of range
    has no item ([IndexError]). *)
Definition getitem {A : Type} (l : list A) (i : Z) : option A :=
  let j := if i <? 0 then i + len l else i in
  if (0 <=? j) && (j <? len l) then nth_error l (Z.to_nat j) else None.

(** Slice bounds are clamped to the sequence, negative ones counted from
    the end first. *)
Definition clamp (n i : Z) : Z :=
  if i <? 0 then Z.max (i + n) 0 else Z.min i n.

(** [x[lo:hi]] *)
Definition slice {A : Type} (l : list A) (lo hi : Z) : list A :=
  let a := clamp (len l) lo in
  let b := clamp (len l) hi in
  firstn (Z.to_nat (b - a)) (skipn (Z.to_nat a) l).

(** [x[lo:]] and [x[:hi]] *)
Definition slice_from {A : Type} (l : list A) (lo : Z) : list A :=
  slice l lo (len l).
Definition slice_to {A : Type} (l : list A) (hi : Z) : list A :=
  slice l 0 hi.

(** Index of the first [c] in [s], counting from [k]; [-1] when absent. *)
Fixpoint index_from (c : Z) (s : text) (k : Z) : Z :=
  match s with
  | [] => -1
  | x :: s' => if x =? c then k else index_from c s' (k + 1)
  end.

(** [s.find(c, start)] for a one-character [c]. *)
Definition str_find (s : text) (c : Z) (start : Z) : Z :=
  let a := clamp (len s) start in
  index_from c (skipn (Z.to_nat a) s) a.

(** ** Exceptions and dynamically typed arguments *)

Inductive exn : Type :=
| BadMessage (reason : string)
| TypeError (msg : string)
| ValueError (msg : string)
| AttributeError (msg : string)
| IndexError (msg : string)
| UnicodeError (msg : string).

Inductive result (A : Type) : Type :=
| Ok (a : A)
| Raise (e : exn).
Arguments Ok {A} a.
Arguments Raise {A} e.

(** The values a caller may pass where the code tests [isinstance]. *)
Inductive pyval : Type :=
| PyNone
| PyBool (b : bool)
| PyInt (z : Z)
| PyStr (s : text)
| PyBytes (b : bytes).

Inductive pytype : Type := ty_str | ty_int | ty_bytes.

(** [isinstance(v, t)]; [bool] is a subclass of [int]. *)
Definition isinstance (v : pyval) (t : pytype) : bool :=
  match t, v with
  | ty_str, PyStr _ => true
  | ty_int, PyInt _ => true
  | ty_int, PyBool _ => true
  | ty_bytes, PyBytes _ => true
  | _, _ => false
  end.

(** ** [str(int)] and [int(str, base=10)] *)

Definition ZERO : Z := 48.      (* ASCII code for '0' *)
Definition NINE : Z := 57.      (* ASCII code for '9' *)
Definition SEPARATOR : Z := 58. (* ASCII code for ':' *)
Definition BEGIN : Z := 64.     (* ASCII code for '@' *)

Definition is_digit (c : Z) : bool := (ZERO <=? c) && (c <=? NINE).

(** Decimal digits of a non-negative integer, most significant first. *)
Fixpoint digits_of (fuel : nat) (n : Z) : text :=
  match fuel with
  | O => []
  | S fuel' =>
      if n <? 10 then [ZERO + n]
      else digits_of fuel' (n / 10) ++ [ZERO + n mod 10]
  end.

Definition digits (n : Z) : text := digits_of (S (Z.to_nat (Z.log2 n))) n.

(** The decimal spelling of an integer, with its sign. *)
Definition decimal (n : Z) : text :=
  if n <? 0 then 45 :: digits (- n) else digits n.

(** The interpreter converts no integer of more than 4300 decimal digits to
    or from text ([sys.int_max_str_digits], as the interpreter sets it):
    [str] and [int] raise [ValueError] beyond it.  The tail of the message,
    which varies, is left out. *)
Definition MAX_STR_DIGITS : Z := 4300.

Definition exceeds_limit : exn :=
  ValueError "Exceeds the limit (4300 digits) for integer string conversion".

(** The integers [str] spells: those of at most 4300 digits. *)
Definition in_limit (n : Z) : bool :=
  len (digits (Z.abs n)) <=? MAX_STR_DIGITS.

(** [str(n)] for an integer [n]: the sign does not count towards the
    limit. *)
Definition str_int (n : Z) : result text :=
  if len (digits (Z.abs n)) >? MAX_STR_DIGITS then Raise exceeds_limit
  else Ok (decimal n).

(** [str(v)] for the values that pass the [isinstance(num, int)] test. *)
Definition str_num (v : pyval) : result text :=
  match v with
  | PyInt z => str_int z
  | PyBool true => Ok (text_of "True")
  | PyBool false => Ok (text_of "False")
  | _ => Ok []
  end.

(** Code points [c >= 127] that [str.isspace] accepts. *)
Definition is_unicode_space (c : Z) : bool :=
  (c =? 133) || (c =? 160) || (c =? 5760) ||
  ((8192 <=? c) && (c <=? 8202)) ||
  (c =? 8232) || (c =? 8233) || (c =? 8239) || (c =? 8287) || (c =? 12288).

(** First code point of each run of ten decimal digits (Unicode 14). *)
Definition decimal_zeros : list Z :=
  [48; 1632; 1776; 1984; 2406; 2534; 2662; 2790; 2918; 3046; 3174; 3302;
   3430; 3558; 3664; 3792; 3872; 4160; 4240; 6112; 6160; 6470; 6608; 6784;
   6800; 6992; 7088; 7232; 7248; 42528; 43216; 43264; 43472; 43504; 43600;
   44016; 65296; 66720; 68912; 69734; 69872; 69942; 70096; 70384; 70736;
   70864; 71248; 71360; 71472; 71904; 72016; 72784; 73040; 73120; 92768;
   92864; 93008; 120782; 120792; 120802; 120812; 120822; 123200; 123632;
   125264; 130032].

Fixpoint decimal_in (zeros : list Z) (c : Z) : option Z :=
  match zeros with
  | [] => None
  | z :: zeros' =>
      if (z <=? c) && (c <? z + 10) then Some (c - z) else decimal_in zeros' c
  end.

(** What [int] makes of one character before parsing: ASCII is kept, other
    white space becomes a blank, other decimal digits their ASCII digit;
    anything else becomes ['?'], which no integer literal contains. *)
Definition ascii_of_char (c : Z) : Z :=
  if c <? 127 then c
  else if is_unicode_space c then 32
  else match decimal_in decimal_zeros c with
       | Some d => ZERO + d
       | None => 63
       end.

Definition ascii_of_text (s : text) : text := map ascii_of_char s.

Definition is_ascii_space (c : Z) : bool :=
  ((9 <=? c) && (c <=? 13)) || (c =? 32).

Fixpoint lstrip (s : text) : text :=
  match s with
  | c :: s' => if is_ascii_space c then lstrip s' else s
  | [] => []
  end.

(** Digits, single underscores allowed between two digits: the value read
    (on top of [acc]), the number of digits read (on top of [n]) and what is
    left.  What is left starts with an underscore exactly when the run of
    digits and underscores ends with an underscore or has two in a row. *)
Fixpoint scan_digits (s : text) (acc n : Z) : Z * Z * text :=
  match s with
  | c :: r =>
      if is_digit c then scan_digits r (10 * acc + (c - ZERO)) (n + 1)
      else if c =? 95 then
        match r with
        | d :: r' =>
            if is_digit d then
              scan_digits r' (10 * acc + (d - ZERO)) (n + 1)
            else (acc, n, s)
        | [] => (acc, n, s)
        end
      else (acc, n, s)
  | [] => (acc, n, [])
  end.

Definition invalid_literal : exn :=
  ValueError "invalid literal for int() with base 10".

(** [int(s, base=10)]: a misplaced underscore is refused first, then a run
    of more than 4300 digits (zeros in front and digits of any script
    counted, underscores not), then anything but white space after the
    digits. *)
Definition int10 (s : text) : result Z :=
  let a1 := lstrip (ascii_of_text s) in
  let '(sign, a2) :=
    match a1 with
    | c :: r => if c =? 43 then (1, r)
                else if c =? 45 then (-1, r) else (1, a1)
    | [] => (1, a1)
    end in
  match a2 with
  | d :: _ =>
      if is_digit d then
        let '(v, n, rest) := scan_digits a2 0 0 in
        if match rest with c :: _ => c =? 95 | [] => false end then
          Raise invalid_literal
        else if n >? MAX_STR_DIGITS then Raise exceeds_limit
        else
          match lstrip rest with
          | [] => Ok (sign * v)
          | _ :: _ => Raise invalid_literal
          end
      else Raise invalid_literal
  | [] => Raise invalid_literal
  end.

(** ** Text codecs *)

(** A codec, as [str.encode] and [bytes.decode] use it. *)
Record Codec : Type := {
  encode : text -> result bytes;
  decode : bytes -> result text
}.

Definition is_surrogate (c : Z) : bool := (55296 <=? c) && (c <=? 57343).

(** The UTF-8 bytes of one code point. *)
Definition utf8_char (c : Z) : option bytes :=
  if c <? 0 then None
  else if c <? 128 then Some [c]
  else if c <? 2048 then Some [192 + c / 64; 128 + c mod 64]
  else if c <? 65536 then
    if is_surrogate c then None
    else Some [224 + c / 4096; 128 + (c / 64) mod 64; 128 + c mod 64]
  else if c <? 1114112 then
    Some [240 + c / 262144; 128 + (c / 4096) mod 64;
          128 + (c / 64) mod 64; 128 + c mod 64]
  else None.

Fixpoint utf8_encode (s : text) : option bytes :=
  match s with
  | [] => Some []
  | c :: s' =>
      match utf8_char c, utf8_encode s' with
      | Some b, Some r => Some (b ++ r)
      | _, _ => None
      end
  end.

Definition is_cont (b : Z) : bool := (128 <=? b) && (b <? 192).

(** Strict UTF-8 decoding: no overlong form, no surrogate, nothing above
    U+10FFFF, no truncated sequence. *)
Fixpoint utf8_decode (b : bytes) : option text :=
  match b with
  | [] => Some []
  | b0 :: r0 =>
      if (0 <=? b0) && (b0 <? 128) then
        option_map (cons b0) (utf8_decode r0)
      else if (194 <=? b0) && (b0 <? 224) then
        match r0 with
        | b1 :: r1 =>
            if is_cont b1 then
              option_map (cons ((b0 - 192) * 64 + (b1 - 128)))
                         (utf8_decode r1)
            else None
        | _ => None
        end
      else if (224 <=? b0) && (b0 <? 240) then
        match r0 with
        | b1 :: b2 :: r2 =>
            let c := (b0 - 224) * 4096 + (b1 - 128) * 64 + (b2 - 128) in
            if is_cont b1 && is_cont b2 && (2048 <=? c)
               && negb (is_surrogate c)
            then option_map (cons c) (utf8_decode r2)
            else None
        | _ => None
        end
      else if (240 <=? b0) && (b0 <? 245) then
        match r0 with
        | b1 :: b2 :: b3 :: r3 =>
            let c := (b0 - 240) * 262144 + (b1 - 128) * 4096
                     + (b2 - 128) * 64 + (b3 - 128) in
            if is_cont b1 && is_cont b2 && is_cont b3
               && (65536 <=? c) && (c <? 1114112)
            then option_map (cons c) (utf8_decode r3)
            else None
        | _ => None
        end
      else None
  end.

Definition or_raise {A : Type} (o : option A) (e : exn) : result A :=
  match o with
  | Some a => Ok a
  | None => Raise e
  end.

Definition utf_8 : Codec := {|
  encode := fun s =>
    or_raise (utf8_encode s) (UnicodeError "'utf-8' codec can't encode");
  decode := fun b =>
    or_raise (utf8_decode b) (UnicodeError "'utf-8' codec can't decode")
|}.

Definition ascii_codec : Codec := {|
  encode := fun s =>
    if forallb (fun c => (0 <=? c) && (c <? 128)) s then Ok s
    else Raise (UnicodeError "'ascii' codec can't encode");
  decode := fun b =>
    if forallb (fun c => (0 <=? c) && (c <? 128)) b then Ok b
    else Raise (UnicodeError "'ascii' codec can't decode")
|}.

(** Default encoding: *)
Definition ENCODING : Codec := utf_8.

(** ** The transport of the module's [__main__] block *)

Module FakeSocket.

#[projections(primitive)]
Record t : Type := { _buf : bytes }.

Definition init : t := {| _buf := [] |}.

(** [send] raises [TypeError] on anything but [bytes]; the argument's type
    makes that test succeed. *)
Definition send (self : t) (buf : bytes) : t :=
  {| _buf := _buf self ++ buf |}.

Definition recv (self : t) (n : Z) : bytes * t :=
  if n <? 0 then ([], self)
  else (slice_to (_buf self) n, {| _buf := slice_from (_buf self) n |}).

Definition flush (self : t) : t := self.

End FakeSocket.

(** ** The channel *)

(** A decoded message, as queued: [(cat, num, msg)]. *)
Definition job : Type := (text * Z * text)%type.

(** The callback that processes received messages: the class's own
    [_default_processor] or one supplied by the user. *)
Inductive callback : Type :=
| _default_processor
| user_callback (id : nat).

#[projections(primitive)]
Record Channel : Type := {
  _cnt : Z;                (* counter to generate unique serial numbers *)
  _enc : Codec;            (* encoding assumed for textual messages *)
  _io : FakeSocket.t;      (* i/o channel to communicate with the peer *)
  _buf : bytes;            (* buffer of unprocessed bytes *)
  _off : Z;                (* offset to next message header/body in buffer *)
  _siz : Z;                (* size of next message body, -1 if unknown yet *)
  _cbk : callback;         (* callback to process received messages *)
  _jobs : list job         (* queue of jobs to process *)
}.

Definition set_cnt (v : Z) (s : Channel) : Channel :=
  {| _cnt := v; _enc := _enc s; _io := _io s; _buf := _buf s;
     _off := _off s; _siz := _siz s; _cbk := _cbk s; _jobs := _jobs s |}.
Definition set_enc (v : Codec) (s : Channel) : Channel :=
  {| _cnt := _cnt s; _enc := v; _io := _io s; _buf := _buf s;
     _off := _off s; _siz := _siz s; _cbk := _cbk s; _jobs := _jobs s |}.
Definition set_io (v : FakeSocket.t) (s : Channel) : Channel :=
  {| _cnt := _cnt s; _enc := _enc s; _io := v; _buf := _buf s;
     _off := _off s; _siz := _siz s; _cbk := _cbk s; _jobs := _jobs s |}.
Definition set_buf (v : bytes) (s : Channel) : Channel :=
  {| _cnt := _cnt s; _enc := _enc s; _io := _io s; _buf := v;
     _off := _off s; _siz := _siz s; _cbk := _cbk s; _jobs := _jobs s |}.
Definition set_off (v : Z) (s : Channel) : Channel :=
  {| _cnt := _cnt s; _enc := _enc s; _io := _io s; _buf := _buf s;
     _off := v; _siz := _siz s; _cbk := _cbk s; _jobs := _jobs s |}.
Definition set_siz (v : Z) (s : Channel) : Channel :=
  {| _cnt := _cnt s; _enc := _enc s; _io := _io s; _buf := _buf s;
     _off := _off s; _siz := v; _cbk := _cbk s; _jobs := _jobs s |}.
Definition set_cbk (v : callback) (s : Channel) : Channel :=
  {| _cnt := _cnt s; _enc := _enc s; _io := _io s; _buf := _buf s;
     _off := _off s; _siz := _siz s; _cbk := v; _jobs := _jobs s |}.
Definition set_jobs (v : list job) (s : Channel) : Channel :=
  {| _cnt := _cnt s; _enc := _enc s; _io := _io s; _buf := _buf s;
     _off := _off s; _siz := _siz s; _cbk := _cbk s; _jobs := v |}.

(** [Channel(io, encoding)] *)
Definition Channel_init (io : FakeSocket.t) (encoding : Codec) : Channel :=
  {| _cnt := 0; _enc := encoding; _io := io; _buf := []; _off := 0;
     _siz := -1; _cbk := _default_processor; _jobs := [] |}.

(** What an instance of [Channel] answers to: the methods of the class and
    the variables [__init__] sets. *)
Definition Channel_attributes : list string :=
  ["__init__"; "get_processor"; "set_processor"; "_default_processor";
   "get_encoding"; "set_encoding"; "send_command"; "send_event";
   "send_result"; "send_error"; "send_serial"; "send_format"; "_receive";
   "push_job"; "pop_job"; "more_jobs";
   "_cnt"; "_enc"; "_io"; "_buf"; "_off"; "_siz"; "_cbk"; "_jobs"]%string.

Definition hasattr (name : string) : bool :=
  existsb (String.eqb name) Channel_attributes.

(** ** Methods: state and exceptions *)

Definition M (A : Type) : Type := Channel -> Channel * result A.

Definition ret {A : Type} (a : A) : M A := fun self => (self, Ok a).
Definition raise {A : Type} (e : exn) : M A := fun self => (self, Raise e).
Definition bind {A B : Type} (m : M A) (k : A -> M B) : M B :=
  fun self =>
    match m self with
    | (self', Ok a) => k a self'
    | (self', Raise e) => (self', Raise e)
    end.
Definition get : M Channel := fun self => (self, Ok self).
Definition modify (f : Channel -> Channel) : M unit :=
  fun self => (f self, Ok tt).
Definition lift {A : Type} (r : result A) : M A := fun self => (self, r).

Declare Scope method_scope.
Delimit Scope method_scope with method.
Notation "x <- m ;; k" := (bind m (fun x => k))
  (at level 61, m at next level, right associativity) : method_scope.
Notation "m ;; k" := (bind m (fun _ => k))
  (at level 61, right associativity) : method_scope.
Open Scope method_scope.

(** [self._io.send(buf)], [self._io.recv(n)] and [self._io.flush()] *)
Definition io_send (buf : bytes) : M unit :=
  modify (fun s => set_io (FakeSocket.send (_io s) buf) s).
Definition io_recv (n : Z) : M bytes :=
  fun s => let '(buf, io) := FakeSocket.recv (_io s) n in (set_io io s, Ok buf).
Definition io_flush : M unit :=
  modify (fun s => set_io (FakeSocket.flush (_io s)) s).

Definition get_processor : M callback :=
  self <- get ;; ret (_cbk self).

Definition set_processor (cbk : option callback) : M unit :=
  modify (set_cbk match cbk with
                  | None => _default_processor
                  | Some f => f
                  end).

Definition get_encoding : M Codec :=
  self <- get ;; ret (_enc self).

Definition set_encoding (enc : option Codec) : M unit :=
  modify (set_enc match enc with
                  | None => ENCODING
                  | Some e => e
                  end).

(** The text of a value known to be a [str]. *)
Definition str_of (v : pyval) : text :=
  match v with
  | PyStr s => s
  | _ => []
  end.

Definition colon : text := text_of ":".

Definition send_format (cat num msg : pyval) : M unit :=
  if negb (isinstance cat ty_str) then
    raise (TypeError "category must be a string")
  else if negb (isinstance num ty_int) then
    raise (TypeError "serial number must be an integer")
  else if negb (isinstance msg ty_str) then
    raise (TypeError "message must be a string")
  else
    self <- get ;;
    num_str <- lift (str_num num) ;;
    buf <- lift (encode (_enc self)
                   (str_of cat ++ colon ++ num_str ++ colon ++ str_of msg)) ;;
    (* [str(len(buf))]: a length is at most [sys.maxsize], far below the
       limit of [str], and is always spelled. *)
    hdr <- lift (encode ascii_codec
                   (text_of "@" ++ decimal (len buf) ++ colon)) ;;
    io_send hdr ;;
    io_send buf ;;
    io_flush.

Definition send_serial (cat msg : pyval) : M Z :=
  modify (fun s => set_cnt (_cnt s + 1) s) ;;
  self <- get ;;
  send_format cat (PyInt (_cnt self)) msg ;;
  self <- get ;;
  ret (_cnt self).

Definition send_command (cmd : pyval) : M Z :=
  send_serial (PyStr (text_of "CMD")) cmd.

Definition send_event (evt : pyval) : M Z :=
  send_serial (PyStr (text_of "EVT")) evt.

Definition send_result (num val : pyval) : M unit :=
  send_format (PyStr (text_of "OK")) num val.

Definition send_error (num msg : pyval) : M unit :=
  send_format (PyStr (text_of "ERR")) num msg.

Definition push_job (j : job) : M unit :=
  modify (fun s => set_jobs (_jobs s ++ [j]) s).

Definition pop_job : M (option job) :=
  self <- get ;;
  match _jobs self with
  | [] => ret None
  | j :: rest => modify (set_jobs rest) ;; ret (Some j)
  end.

Definition more_jobs : M bool :=
  self <- get ;; ret (1 <=? len (_jobs self)).

(** *** The decoder *)

(** How the [for] loop over the header bytes ends: by [break] at the
    separator (index [i], with the size read), by running off the buffer, or
    by an exception. *)
Inductive scan : Type :=
| ScanBreak (i size : Z)
| ScanDone
| ScanRaise (e : exn).

(** [for i in range(self._off + 1, bufsiz)]: [n] iterations are left, the
    next one at index [i]. *)
Fixpoint scan_header (buf : bytes) (off : Z) (n : nat) (i size : Z) : scan :=
  match n with
  | O => ScanDone
  | S n' =>
      match getitem buf i with
      | None => ScanRaise (IndexError "index out of range")
      | Some byte =>
          if (ZERO <=? byte) && (byte <=? NINE) then
            scan_header buf off n' (i + 1) (10 * size + (byte - ZERO))
          else if byte =? SEPARATOR then
            if i <=? off + 1 then ScanRaise (BadMessage "No size specified")
            else ScanBreak i size
          else ScanRaise (BadMessage "Expecting digits or separator")
      end
  end.

(** The header part of one turn of the loop (reached with
    [bufsiz > self._off]). *)
Definition parse_header (bufsiz : Z) : M unit :=
  self <- get ;;
  match getitem (_buf self) (_off self) with
  | None => raise (IndexError "index out of range")
  | Some byte =>
      if negb (byte =? BEGIN) then
        raise (BadMessage "Missing begin message marker")
      else
        match scan_header (_buf self) (_off self)
                (Z.to_nat (bufsiz - (_off self + 1))) (_off self + 1) 0 with
        | ScanBreak i size =>
            modify (set_off (i + 1)) ;; modify (set_siz size)
        | ScanDone => ret tt
        | ScanRaise e => raise e
        end
  end.

(** Parse message into pieces. *)
Definition parse_message (msg : text) : result job :=
  let i1 := str_find msg SEPARATOR 0 in
  let i2 := if i1 >=? 0 then str_find msg SEPARATOR (i1 + 1) else -1 in
  if i2 <? i1 + 2 then Raise (BadMessage "Expecting CAT:NUM:MSG")
  else
    let cat := slice_to msg i1 in
    match int10 (slice msg (i1 + 1) i2) with
    | Raise e => Raise e
    | Ok num => Ok (cat, num, slice_from msg (i2 + 1))
    end.

(** How one turn of [while True] ends: by [break], or at the bottom of the
    body with a new value of [consumed]. *)
Inductive turn : Type :=
| Break
| Next (consumed : Z).

(** The second half of a turn: the message contents (reached with
    [self._siz >= 0]). *)
Definition message (bufsiz : Z) : M turn :=
  self <- get ;;
  (* Is there enough remaining bytes for the message contents? *)
  if bufsiz <? _off self + _siz self then ret Break
  else
    (* Extract message contents and convert it into a string. *)
    msg <- (if _siz self >? 0 then
              lift (decode (_enc self)
                      (slice (_buf self) (_off self)
                             (_off self + _siz self)))
            else ret []) ;;
    (* Update instance variables for next message before parsing
       message contents. *)
    modify (fun s => set_off (_off s + _siz s) s) ;;
    modify (set_siz (-1)) ;;
    self <- get ;;
    let consumed := _off self in
    j <- lift (parse_message msg) ;;
    (* Append message to the queue of pending jobs. *)
    push_job j ;;
    ret (Next consumed).

(** One turn of [while True]. *)
Definition iteration (bufsiz : Z) : M turn :=
  self <- get ;;
  stop <- (if _siz self <? 0 then
             (* No parsed header yet, attempt to find the next one. *)
             (if bufsiz >? _off self then parse_header bufsiz else ret tt) ;;
             self <- get ;;
             ret (_siz self <? 0)
           else ret false) ;;
  if stop : bool then ret Break else message bufsiz.

(** A [while True] loop, given a number of turns: [None] when they are
    used up before the loop is left. *)
Definition Loop (A : Type) : Type := Channel -> option (Channel * result A).

(** [while True] over [iteration]; the value is [consumed] at the [break]. *)
Fixpoint process (fuel : nat) (bufsiz consumed : Z) : Loop Z :=
  fun self =>
    match fuel with
    | O => None
    | S fuel' =>
        match iteration bufsiz self with
        | (self', Raise e) => Some (self', Raise e)
        | (self', Ok Break) => Some (self', Ok consumed)
        | (self', Ok (Next consumed')) => process fuel' bufsiz consumed' self'
        end
    end.

(** Collect all bytes that can be read from the peer. *)
Fixpoint collect (fuel : nat) (bufsiz : Z) : Loop unit :=
  fun self =>
    match fuel with
    | O => None
    | S fuel' =>
        match io_recv bufsiz self with
        | (self1, Raise e) => Some (self1, Raise e)
        | (self1, Ok buf) =>
            let self2 :=
              if len buf >? 0 then
                if len (_buf self1) >? 0 then set_buf (_buf self1 ++ buf) self1
                else set_buf buf self1
              else self1 in
            if len buf <? bufsiz then Some (self2, Ok tt)
            else collect fuel' bufsiz self2
        end
    end.

(** The body of the [try] statement of [_receive].  Each loop is given more
    turns than it can take: the first reads [bufsiz] bytes per turn off a
    finite transport, the second moves the cursor forward by every frame it
    decodes (lemmas [collect_all] and [process_enough]). *)
Definition receive_try : Loop unit :=
  fun self =>
    match collect (S (List.length (FakeSocket._buf (_io self)))) 1024 self with
    | None => None
    | Some (self1, Raise e) => Some (self1, Raise e)
    | Some (self1, Ok _) =>
        (* Process all complete pending messages. *)
        let bufsiz := len (_buf self1) in
        match process (S (S (Z.to_nat (bufsiz - _off self1)))) bufsiz 0 self1 with
        | None => None
        | Some (self2, Raise e) => Some (self2, Raise e)
        | Some (self2, Ok consumed) =>
            (* All pending complete messages have been extracted, reduce the
               buffer as needed. *)
            if consumed >? 0 then
              Some (set_off (_off self2 - consumed)
                      (set_buf (slice_from (_buf self2) consumed) self2), Ok tt)
            else Some (self2, Ok tt)
        end
    end.

(** [self.disconnect()]: the attribute is looked up on the instance. *)
Definition disconnect : M unit :=
  if hasattr "disconnect" then ret tt
  else raise (AttributeError "'Channel' object has no attribute 'disconnect'").

(** Private callback for receiving messages from the peer: the [try] body
    and its handler, [except Exception as ex: self.disconnect(); raise ex]. *)
Definition _receive : Loop unit :=
  fun self =>
    match receive_try self with
    | None => None
    | Some (self', Ok _) => Some (self', Ok tt)
    | Some (self', Raise ex) =>
        (* Close the connection in case of errors. *)
        Some ((disconnect ;; raise ex) self')
    end.

(** ** Vocabulary of the properties *)

(** Text proper: Unicode scalar values (what the default codec encodes). *)
Definition valid_char (c : Z) : bool :=
  (0 <=? c) && (c <? 1114112) && negb (is_surrogate c).
Definition valid_text (s : text) : bool := forallb valid_char s.

Definition no_colon (s : text) : bool :=
  forallb (fun c => negb (c =? SEPARATOR)) s.

(** A triple the round trip is claimed for: text proper, no [':'] in the
    category, a serial that [str] spells. *)
Definition well_formed (j : job) : bool :=
  let '(cat, num, msg) := j in
  valid_text cat && no_colon cat && valid_text msg && in_limit num.

(** [send_format] applied to the components of a message. *)
Definition send_job (j : job) : M unit :=
  let '(cat, num, msg) := j in send_format (PyStr cat) (PyInt num) (PyStr msg).

Fixpoint send_all (js : list job) : M unit :=
  match js with
  | [] => ret tt
  | j :: js' => send_job j ;; send_all js'
  end.

(** The bytes the encoder puts on the wire for a sequence of messages. *)
Definition wire (js : list job) : bytes :=
  FakeSocket._buf (_io (fst (send_all js (Channel_init FakeSocket.init ENCODING)))).

(** The same bytes, spelled out frame by frame. *)
Definition body_of (j : job) : text :=
  let '(cat, num, msg) := j in cat ++ colon ++ decimal num ++ colon ++ msg.
Definition utf8 (s : text) : bytes :=
  match utf8_encode s with
  | Some b => b
  | None => []
  end.
Definition header_of (n : Z) : bytes := BEGIN :: digits n ++ [SEPARATOR].
Definition frame (j : job) : bytes :=
  header_of (len (utf8 (body_of j))) ++ utf8 (body_of j).
Definition frames (js : list job) : bytes := List.concat (map frame js).

(** [f] is one complete frame, carrying [j], for a decoder with codec [enc]:
    alone in the buffer of a fresh channel it is decoded to [j] by one turn
    of the loop, which consumes all of it. *)
Definition complete_frame (enc : Codec) (f : bytes) (j : job) : Prop :=
  iteration (len f) (set_buf f (Channel_init FakeSocket.init enc))
  = (set_jobs [j]
       (set_off (len f) (set_buf f (Channel_init FakeSocket.init enc))),
     Ok (Next (len f))).

(** Frames paired with the messages they carry: are they all complete, the
    bytes they make on the wire, the messages in order. *)
Definition all_complete (enc : Codec) (fs : list (bytes * job)) : Prop :=
  Forall (fun fj => complete_frame enc (fst fj) (snd fj)) fs.
Definition stream (fs : list (bytes * job)) : bytes :=
  List.concat (map fst fs).
Definition carried (fs : list (bytes * job)) : list job := map snd fs.

(** The frames of the encoder, paired with their messages. *)
Definition encoded (js : list job) : list (bytes * job) :=
  map (fun j => (frame j, j)) js.

(** The peer writes [chunk] to the transport. *)
Definition feed (chunk : bytes) (ch : Channel) : Channel :=
  set_io (FakeSocket.send (_io ch) chunk) ch.

(** One receive trigger on the arrival of [chunk]. *)
Definition trigger (chunk : bytes) : Loop unit :=
  fun ch => _receive (feed chunk ch).

(** One receive trigger per chunk, until one raises. *)
Fixpoint triggers (chunks : list bytes) : Loop unit :=
  fun ch =>
    match chunks with
    | [] => Some (ch, Ok tt)
    | c :: cs =>
        match trigger c ch with
        | Some (ch', Ok _) => triggers cs ch'
        | other => other
        end
    end.

(** A decoder at rest: nothing buffered, nothing pending on the transport,
    a header awaited. *)
Definition at_rest (ch : Channel) : Prop :=
  _buf ch = [] /\ _off ch = 0 /\ _siz ch = -1 /\ FakeSocket._buf (_io ch) = [].

(** The calls a client makes over the life of a channel. *)
Inductive call : Type :=
| call_send_command (cmd : pyval)
| call_send_event (evt : pyval)
| call_send_serial (cat msg : pyval)
| call_send_result (num val : pyval)
| call_send_error (num msg : pyval)
| call_send_format (cat num msg : pyval)
| call_receive
| call_pop_job
| call_set_encoding (enc : option Codec)
| call_set_processor (cbk : option callback)
| peer_write (chunk : bytes).

Definition returned {A : Type} (r : result A) : option A :=
  match r with
  | Ok a => Some a
  | Raise _ => None
  end.

(** The channel after a call, and the serial the call returned if it is an
    auto-numbered send that returned. *)
Definition perform (c : call) (ch : Channel) : Channel * option Z :=
  match c with
  | call_send_command cmd =>
      let '(ch', r) := send_command cmd ch in (ch', returned r)
  | call_send_event evt =>
      let '(ch', r) := send_event evt ch in (ch', returned r)
  | call_send_serial cat msg =>
      let '(ch', r) := send_serial cat msg ch in (ch', returned r)
  | call_send_result num val => (fst (send_result num val ch), None)
  | call_send_error num msg => (fst (send_error num msg ch), None)
  | call_send_format cat num msg => (fst (send_format cat num msg ch), None)
  | call_receive =>
      match _receive ch with
      | Some (ch', _) => (ch', None)
      | None => (ch, None)
      end
  | call_pop_job => (fst (pop_job ch), None)
  | call_set_encoding enc => (fst (set_encoding enc ch), None)
  | call_set_processor cbk => (fst (set_processor cbk ch), None)
  | peer_write chunk => (feed chunk ch, None)
  end.

(** The serials returned, in order, over a sequence of calls. *)
Fixpoint serials (cs : list call) (ch : Channel) : list Z :=
  match cs with
  | [] => []
  | c :: cs' =>
      let '(ch', r) := perform c ch in
      match r with
      | Some n => n :: serials cs' ch'
      | None => serials cs' ch'
      end
  end.

(** ** One turn of the decoder, read off the unconsumed bytes

    [see] computes what [iteration] does from the bytes at and after the
    cursor alone; [outcome] applies it to the instance (lemma
    [iteration_see]). *)

Inductive seen : Type :=
| SeenRaise (d siz : Z) (e : exn)
| SeenBreak (d siz : Z)
| SeenNext (d : Z) (j : job).

(** The header scan on the bytes after the marker, [k] of them read. *)
Fixpoint scan_rest (rest : bytes) (k size : Z) : scan :=
  match rest with
  | [] => ScanDone
  | byte :: rest' =>
      if (ZERO <=? byte) && (byte <=? NINE) then
        scan_rest rest' (k + 1) (10 * size + (byte - ZERO))
      else if byte =? SEPARATOR then
        if k <=? 0 then ScanRaise (BadMessage "No size specified")
        else ScanBreak k size
      else ScanRaise (BadMessage "Expecting digits or separator")
  end.

Definition see_body (enc : Codec) (d siz : Z) (rest : bytes) : seen :=
  if len rest <? siz then SeenBreak d siz
  else
    match (if siz >? 0 then decode enc (firstn (Z.to_nat siz) rest)
           else Ok []) with
    | Raise e => SeenRaise d siz e
    | Ok msg =>
        match parse_message msg with
        | Raise e => SeenRaise (d + siz) (-1) e
        | Ok j => SeenNext (d + siz) j
        end
    end.

Definition see (enc : Codec) (siz : Z) (rest : bytes) : seen :=
  if siz <? 0 then
    match rest with
    | [] => SeenBreak 0 siz
    | byte :: rest' =>
        if negb (byte =? BEGIN) then
          SeenRaise 0 siz (BadMessage "Missing begin message marker")
        else
          match scan_rest rest' 0 0 with
          | ScanDone => SeenBreak 0 siz
          | ScanRaise e => SeenRaise 0 siz e
          | ScanBreak k size =>
              see_body enc (k + 2) size (skipn (Z.to_nat (k + 1)) rest')
          end
    end
  else see_body enc 0 siz rest.

Definition outcome (self : Channel) (v : seen) : Channel * result turn :=
  match v with
  | SeenRaise d siz e =>
      (set_siz siz (set_off (_off self + d) self), Raise e)
  | SeenBreak d siz =>
      (set_siz siz (set_off (_off self + d) self), Ok Break)
  | SeenNext d j =>
      (set_jobs (_jobs self ++ [j])
         (set_siz (-1) (set_off (_off self + d) self)),
       Ok (Next (_off self + d)))
  end.

(** The loop, as a relation: from [consumed] and the instance at the top of
    a turn to the instance and value (or exception) when the loop is left. *)
Inductive Process (bufsiz : Z) : Z -> Channel -> Channel -> result Z -> Prop :=
| Process_raise consumed self self' e :
    iteration bufsiz self = (self', Raise e) ->
    Process bufsiz consumed self self' (Raise e)
| Process_break consumed self self' :
    iteration bufsiz self = (self', Ok Break) ->
    Process bufsiz consumed self self' (Ok consumed)
| Process_next consumed consumed' self self' self'' r :
    iteration bufsiz self = (self', Ok (Next consumed')) ->
    Process bufsiz consumed' self' self'' r ->
    Process bufsiz consumed self self'' r.

(** ** Vocabulary of the proofs *)

(** The cursor stays within the buffer. *)
Definition inv (s : Channel) : Prop := 0 <= _off s <= len (_buf s).

Definition seen_d (v : seen) : Z :=
  match v with
  | SeenRaise d _ _ => d
  | SeenBreak d _ => d
  | SeenNext d _ => d
  end.

(** Turns the loop can still take from [s]. *)
Definition turns (s : Channel) : nat :=
  Nat.add (Z.to_nat (len (_buf s) - _off s))
          (if _siz s <? 0 then 1%nat else 2%nat).

(** The buffer cut at [k], the cursor rebased. *)
Definition compact (k : Z) (s : Channel) : Channel :=
  set_off (_off s - k) (set_buf (skipn (Z.to_nat k) (_buf s)) s).

(** The instance once the transport has been read. *)
Definition collected (self : Channel) : Channel :=
  set_buf (_buf self ++ FakeSocket._buf (_io self)) (set_io FakeSocket.init self).

(** The number a run of digits spells, on top of [acc]. *)
Definition value_of (l : text) (acc : Z) : Z :=
  fold_left (fun a c => 10 * a + (c - ZERO)) l acc.

Definition all_digits (l : text) : bool := forallb is_digit l.

(** The shape [CAT:NUM:MSG]: a category and a serial text without [':'],
    the serial text not empty. *)
Definition shaped (msg cat num rest : text) : Prop :=
  msg = cat ++ SEPARATOR :: num ++ SEPARATOR :: rest
  /\ no_colon cat = true /\ no_colon num = true /\ num <> [].

(** The decoder with the frames [fs] decoded on top of [s]. *)
Definition advanced (fs : list (bytes * job)) (s : Channel) : Channel :=
  set_jobs (_jobs s ++ carried fs) (set_off (_off s + len (stream fs)) s).

Definition moved (d : Z) (v : seen) : seen :=
  match v with
  | SeenRaise d' s e => SeenRaise (d + d') s e
  | SeenBreak d' s => SeenBreak (d + d') s
  | SeenNext d' j => SeenNext (d + d') j
  end.

(** The instance with [c] appended to its buffer. *)
Definition ext (c : bytes) (s : Channel) : Channel := set_buf (_buf s ++ c) s.

Definition rebase_turn (k : Z) (r : result turn) : result turn :=
  match r with
  | Ok (Next c) => Ok (Next (c - k))
  | other => other
  end.

Definition rebase (k : Z) (r : result Z) : result Z :=
  match r with
  | Ok c => Ok (c - k)
  | Raise e => Raise e
  end.

(** The serial counter is the same. *)
Definition same_cnt (s s' : Channel) : Prop := _cnt s' = _cnt s.

(** [m] takes every instance to one related to it by [R]. *)
Definition keeps (R : Channel -> Channel -> Prop) {A : Type} (m : M A) : Prop :=
  forall s, R s (fst (m s)).

(** ** The rest of the module's [__main__] block, and more vocabulary *)

(** [while chn.more_jobs(): job = chn.pop_job(); print(job)]: the values
    printed, in order, on top of [out]. *)
Fixpoint drain (fuel : nat) (out : list (option job)) : Loop (list (option job)) :=
  fun self =>
    match fuel with
    | O => None
    | S fuel' =>
        match more_jobs self with
        | (self1, Raise e) => Some (self1, Raise e)
        | (self1, Ok false) => Some (self1, Ok out)
        | (self1, Ok true) =>
            match pop_job self1 with
            | (self2, Raise e) => Some (self2, Raise e)
            | (self2, Ok j) => drain fuel' (out ++ [j]) self2
            end
        end
    end.

(** [push_job] for each of [js], in order. *)
Fixpoint push_all (js : list job) : M unit :=
  match js with
  | [] => ret tt
  | j :: js' => push_job j ;; push_all js'
  end.

(** A decoder between two receive triggers: the cursor is within the buffer,
    and at its start when a header is awaited. *)
Definition tidy (s : Channel) : Prop :=
  0 <= _off s <= len (_buf s) /\ (_siz s < 0 -> _off s = 0).

(** From [s] to [s'] the decoder, the queue and the configuration are the
    same, and the transport has only had bytes appended. *)
Definition only_written (s s' : Channel) : Prop :=
  _cnt s' = _cnt s /\ _enc s' = _enc s /\ _buf s' = _buf s /\ _off s' = _off s
  /\ _siz s' = _siz s /\ _cbk s' = _cbk s /\ _jobs s' = _jobs s
  /\ exists w, FakeSocket._buf (_io s') = FakeSocket._buf (_io s) ++ w.

(** From [s] to [s'] the counter, the codec and the callback are the same,
    and the queue has only had jobs appended. *)
Definition only_received (s s' : Channel) : Prop :=
  _cnt s' = _cnt s /\ _enc s' = _enc s /\ _cbk s' = _cbk s
  /\ exists js, _jobs s' = _jobs s ++ js.
(** * Properties *)

#[local] Arguments Z.mul : simpl never.
#[local] Arguments Z.add : simpl never.
#[local] Arguments Z.sub : simpl never.
#[local] Arguments Z.opp : simpl never.
#[local] Arguments Z.div : simpl never.
#[local] Arguments Z.modulo : simpl never.
#[local] Arguments Z.to_nat : simpl never.
#[local] Arguments Z.of_nat : simpl never.
#[local] Arguments Z.leb : simpl never.
#[local] Arguments Z.ltb : simpl never.
#[local] Arguments Z.eqb : simpl never.
#[local] Arguments Z.gtb : simpl never.
#[local] Arguments Z.geb : simpl never.

(** Boolean comparisons in the hypotheses, as propositions for [lia]. *)
Ltac zbool :=
  repeat match goal with
  | H : negb _ = true |- _ => apply negb_true_iff in H
  | H : negb _ = false |- _ => apply negb_false_iff in H
  | H : _ && _ = true |- _ => apply andb_prop in H; destruct H
  | H : _ || _ = false |- _ => apply orb_false_elim in H; destruct H
  | H : (_ <=? _) = true |- _ => apply Z.leb_le in H
  | H : (_ <=? _) = false |- _ => apply Z.leb_gt in H
  | H : (_ <? _) = true |- _ => apply Z.ltb_lt in H
  | H : (_ <? _) = false |- _ => apply Z.ltb_ge in H
  | H : (_ =? _) = true |- _ => apply Z.eqb_eq in H
  | H : (_ =? _) = false |- _ => apply Z.eqb_neq in H
  | H : (_ >? _) = _ |- _ => rewrite Z.gtb_ltb in H
  | H : (_ >=? _) = _ |- _ => rewrite Z.geb_leb in H
  end.

Ltac zlia := zbool; unfold ZERO, NINE, SEPARATOR, BEGIN in *; lia.

(** ** Sequences *)

Lemma len_nil {A : Type} : len (@nil A) = 0.
Proof. reflexivity. Qed.

Lemma len_cons {A : Type} (x : A) (l : list A) : len (x :: l) = len l + 1.
Proof. unfold len. simpl List.length. lia. Qed.

Lemma len_app {A : Type} (l r : list A) : len (l ++ r) = len l + len r.
Proof. unfold len. rewrite length_app. lia. Qed.

Lemma len_nonneg {A : Type} (l : list A) : 0 <= len l.
Proof. unfold len. lia. Qed.

Lemma len_skipn {A : Type} (l : list A) (k : Z) :
  0 <= k <= len l -> len (skipn (Z.to_nat k) l) = len l - k.
Proof. unfold len. intros H. rewrite length_skipn. lia. Qed.

Lemma len_firstn {A : Type} (l : list A) (k : Z) :
  0 <= k <= len l -> len (firstn (Z.to_nat k) l) = k.
Proof. unfold len. intros H. rewrite length_firstn. lia. Qed.

Lemma len_zero_nil {A : Type} (l : list A) : len l = 0 -> l = [].
Proof. destruct l; [reflexivity | rewrite len_cons; pose proof (len_nonneg l); lia]. Qed.

Lemma skipn_all_len {A : Type} (l : list A) : skipn (Z.to_nat (len l)) l = [].
Proof. unfold len. rewrite Nat2Z.id. apply skipn_all. Qed.

Lemma skipn_len_app {A : Type} (l r : list A) :
  skipn (Z.to_nat (len l)) (l ++ r) = r.
Proof.
  unfold len. rewrite Nat2Z.id, skipn_app, skipn_all, Nat.sub_diag. reflexivity.
Qed.

Lemma firstn_len_app {A : Type} (l r : list A) :
  firstn (Z.to_nat (len l)) (l ++ r) = l.
Proof.
  unfold len. rewrite Nat2Z.id, firstn_app, firstn_all, Nat.sub_diag.
  simpl. apply app_nil_r.
Qed.

Lemma skipn_succ {A : Type} (l : list A) (i : Z) :
  0 <= i -> skipn (Z.to_nat (i + 1)) l = skipn 1 (skipn (Z.to_nat i) l).
Proof.
  intros H. rewrite skipn_skipn. f_equal. lia.
Qed.

(** Within range, [l[i]] is the head of what is left after [i] items. *)
Lemma getitem_skipn {A : Type} (l : list A) (i : Z) :
  0 <= i <= len l -> getitem l i = hd_error (skipn (Z.to_nat i) l).
Proof.
  intros H. unfold getitem.
  destruct (i <? 0) eqn:Hi; [lia|].
  destruct (0 <=? i) eqn:H0; [|lia].
  destruct (i <? len l) eqn:H1; simpl.
  - unfold len in *. revert H1. generalize (Z.to_nat i) as n. clear.
    intros n _. revert n. induction l as [|x l IH]; intros [|n]; simpl; auto.
  - assert (i = len l) by lia. subst i. now rewrite skipn_all_len.
Qed.

Lemma slice_view {A : Type} (l : list A) (a n : Z) :
  0 <= a -> 0 <= n -> a + n <= len l ->
  slice l a (a + n) = firstn (Z.to_nat n) (skipn (Z.to_nat a) l).
Proof.
  intros Ha Hn Hl. unfold slice, clamp.
  destruct (a <? 0) eqn:E1; [lia|]. destruct (a + n <? 0) eqn:E2; [lia|].
  rewrite !Z.min_l by lia. do 2 f_equal. lia.
Qed.

Lemma slice_from_view {A : Type} (l : list A) (a : Z) :
  0 <= a <= len l -> slice_from l a = skipn (Z.to_nat a) l.
Proof.
  intros Ha. unfold slice_from, slice, clamp.
  destruct (a <? 0) eqn:E1; [lia|].
  pose proof (len_nonneg l).
  destruct (len l <? 0) eqn:E2; [lia|].
  rewrite !Z.min_l by lia. apply firstn_all2.
  rewrite length_skipn. unfold len in *. lia.
Qed.

Lemma slice_to_view {A : Type} (l : list A) (a : Z) :
  0 <= a <= len l -> slice_to l a = firstn (Z.to_nat a) l.
Proof.
  intros Ha. unfold slice_to. change a with (0 + a) at 1.
  rewrite slice_view by lia. reflexivity.
Qed.

(** ** The header scan *)

Lemma scan_rest_size (rest : bytes) :
  forall k size i sz,
    0 <= size -> scan_rest rest k size = ScanBreak i sz -> 0 <= sz /\ k <= i /\ 0 < i.
Proof.
  induction rest as [|b rest IH]; intros k size i sz Hs H; simpl in H.
  - discriminate.
  - destruct ((ZERO <=? b) && (b <=? NINE)) eqn:Hd.
    + apply IH in H; [lia|]. zlia.
    + destruct (b =? SEPARATOR); [|discriminate].
      destruct (k <=? 0) eqn:Hk; [discriminate|].
      inversion H; subst. lia.
Qed.

Lemma scan_rest_bound (rest : bytes) :
  forall k size i sz,
    scan_rest rest k size = ScanBreak i sz -> i - k < len rest.
Proof.
  induction rest as [|b rest IH]; intros k size i sz H; simpl in H.
  - discriminate.
  - rewrite len_cons. destruct ((ZERO <=? b) && (b <=? NINE)) eqn:Hd.
    + apply IH in H. lia.
    + destruct (b =? SEPARATOR); [|discriminate].
      destruct (k <=? 0) eqn:Hk; [discriminate|].
      inversion H; subst. pose proof (len_nonneg rest). lia.
Qed.

(** The [for] loop of the code and the scan of the bytes left agree. *)
Lemma scan_header_rest (buf : bytes) (off : Z) :
  forall n i size,
    0 <= off -> off + 1 <= i -> Z.of_nat n = len buf - i ->
    scan_header buf off n i size =
    match scan_rest (skipn (Z.to_nat i) buf) (i - (off + 1)) size with
    | ScanBreak k sz => ScanBreak (off + 1 + k) sz
    | other => other
    end.
Proof.
  induction n as [|n IH]; intros i size Hoff Hi Hn.
  - assert (i = len buf) by lia. subst i. rewrite skipn_all_len. reflexivity.
  - simpl scan_header. rewrite getitem_skipn by lia.
    destruct (skipn (Z.to_nat i) buf) as [|b rest] eqn:Hsk.
    + exfalso. apply (f_equal (@len Z)) in Hsk.
      rewrite len_skipn in Hsk by lia. rewrite len_nil in Hsk. lia.
    + simpl hd_error. cbv iota. simpl scan_rest.
      destruct ((ZERO <=? b) && (b <=? NINE)) eqn:Hd.
      * rewrite IH by lia. rewrite skipn_succ by lia. rewrite Hsk. simpl skipn.
        replace (i + 1 - (off + 1)) with (i - (off + 1) + 1) by lia.
        reflexivity.
      * destruct (b =? SEPARATOR); [|reflexivity].
        replace (i <=? off + 1) with (i - (off + 1) <=? 0)
          by (apply Bool.eq_true_iff_eq; rewrite !Z.leb_le; lia).
        destruct (i - (off + 1) <=? 0); [reflexivity|].
        f_equal. lia.
Qed.

(** ** One turn of the loop, from the bytes at the cursor *)

Lemma message_see (self0 : Channel) (d siz : Z) :
  0 <= siz -> 0 <= _off self0 + d <= len (_buf self0) ->
  message (len (_buf self0)) (set_siz siz (set_off (_off self0 + d) self0)) =
  outcome self0
    (see_body (_enc self0) d siz
       (skipn (Z.to_nat (_off self0 + d)) (_buf self0))).
Proof.
  intros Hsiz Hoff. unfold message, see_body, bind, get. cbn -[slice].
  rewrite len_skipn by lia.
  replace (len (_buf self0) <? _off self0 + d + siz)
    with (len (_buf self0) - (_off self0 + d) <? siz)
    by (apply Bool.eq_true_iff_eq; rewrite !Z.ltb_lt; lia).
  destruct (len (_buf self0) - (_off self0 + d) <? siz) eqn:Hlt.
  - reflexivity.
  - rewrite slice_view by zlia.
    destruct (siz >? 0) eqn:Hpos; unfold lift, ret, modify, push_job; cbn.
    + destruct (decode (_enc self0) _) as [msg|e]; cbn; [|reflexivity].
      destruct (parse_message msg) as [j|e]; cbn;
        rewrite <- Z.add_assoc; reflexivity.
    + destruct (parse_message []) as [j|e]; cbn;
        rewrite <- Z.add_assoc; reflexivity.
Qed.

Lemma iteration_see (self : Channel) :
  0 <= _off self <= len (_buf self) ->
  iteration (len (_buf self)) self =
  outcome self
    (see (_enc self) (_siz self) (skipn (Z.to_nat (_off self)) (_buf self))).
Proof.
  intros Hoff. unfold iteration, see, bind, get.
  destruct (_siz self <? 0) eqn:Hsiz.
  - destruct (len (_buf self) >? _off self) eqn:Hgt.
    + unfold parse_header, bind, get.
      rewrite getitem_skipn by lia.
      destruct (skipn (Z.to_nat (_off self)) (_buf self)) as [|b rest] eqn:Hsk.
      { exfalso. apply (f_equal (@len Z)) in Hsk.
        rewrite len_skipn, len_nil in Hsk by lia. zlia. }
      cbn [hd_error].
      destruct (negb (b =? BEGIN)) eqn:Hb.
      { cbn. rewrite Z.add_0_r. reflexivity. }
      assert (Hlen : len (b :: rest) = len (_buf self) - _off self)
        by (rewrite <- Hsk; apply len_skipn; lia).
      rewrite len_cons in Hlen. pose proof (len_nonneg rest).
      rewrite scan_header_rest by lia.
      rewrite skipn_succ, Hsk by lia. cbn [skipn].
      replace (_off self + 1 - (_off self + 1)) with 0 by lia.
      destruct (scan_rest rest 0 0) as [k size| |e] eqn:Hscan.
      * destruct (scan_rest_size _ _ _ _ _ (Z.le_refl 0) Hscan) as (Hs & _ & Hk).
        pose proof (scan_rest_bound _ _ _ _ _ Hscan) as Hkb.
        unfold modify; cbn.
        replace (size <? 0) with false by (symmetry; apply Z.ltb_ge; lia).
        replace (_off self + 1 + k + 1) with (_off self + (k + 2)) by lia.
        rewrite (message_see self (k + 2) size Hs) by lia.
        do 2 f_equal.
        replace (Z.to_nat (_off self + (k + 2)))
          with (Z.to_nat (k + 1) + (1 + Z.to_nat (_off self)))%nat by lia.
        rewrite <- !skipn_skipn.
        rewrite Hsk. reflexivity.
      * cbn. rewrite Hsiz. cbn. rewrite Z.add_0_r. reflexivity.
      * cbn. rewrite Z.add_0_r. reflexivity.
    + assert (Hnil : skipn (Z.to_nat (_off self)) (_buf self) = []).
      { apply len_zero_nil. rewrite len_skipn by lia. zlia. }
      rewrite Hnil. cbn. rewrite Hsiz. cbn. rewrite Z.add_0_r. reflexivity.
  - cbn. assert (Hs : 0 <= _siz self) by zlia.
    pose proof (message_see self 0 (_siz self) Hs) as H.
    rewrite Z.add_0_r in H. exact (H Hoff).
Qed.

(** ** The loop *)

Lemma see_body_bounds (enc : Codec) (d siz : Z) (rest : bytes) :
  0 <= siz ->
  d <= seen_d (see_body enc d siz rest) <= d + len rest.
Proof.
  intros Hs. unfold see_body. pose proof (len_nonneg rest).
  destruct (len rest <? siz) eqn:Hlt; cbn; [lia|].
  destruct (if siz >? 0 then _ else _) as [msg|e]; cbn; [|lia].
  destruct (parse_message msg); cbn; zlia.
Qed.

Lemma see_bounds (enc : Codec) (siz : Z) (rest : bytes) :
  0 <= seen_d (see enc siz rest) <= len rest.
Proof.
  unfold see. pose proof (len_nonneg rest).
  destruct (siz <? 0) eqn:Hs.
  - destruct rest as [|b rest]; cbn; [lia|].
    rewrite len_cons in *. pose proof (len_nonneg rest).
    destruct (negb (b =? BEGIN)); cbn; [lia|].
    destruct (scan_rest rest 0 0) as [k size| |e] eqn:Hscan; cbn; try lia.
    destruct (scan_rest_size _ _ _ _ _ (Z.le_refl 0) Hscan) as (Hz & _ & Hk).
    pose proof (scan_rest_bound _ _ _ _ _ Hscan) as Hkb.
    pose proof (see_body_bounds enc (k + 2) size
                  (skipn (Z.to_nat (k + 1)) rest) Hz) as Hb.
    rewrite len_skipn in Hb by lia. lia.
  - pose proof (see_body_bounds enc 0 siz rest) as Hb. zlia.
Qed.

(** A decoded frame moves the cursor: by two bytes at least when it starts
    with a header. *)
Lemma see_next_progress (enc : Codec) (siz : Z) (rest : bytes) (d : Z) (j : job) :
  see enc siz rest = SeenNext d j -> siz < 0 -> 2 <= d.
Proof.
  unfold see. intros H Hs.
  replace (siz <? 0) with true in H by (symmetry; apply Z.ltb_lt; lia).
  destruct rest as [|b rest]; [discriminate|].
  destruct (negb (b =? BEGIN)); [discriminate|].
  destruct (scan_rest rest 0 0) as [k size| |e] eqn:Hscan; try discriminate.
  destruct (scan_rest_size _ _ _ _ _ (Z.le_refl 0) Hscan) as (Hz & _ & Hk).
  pose proof (see_body_bounds enc (k + 2) size
                (skipn (Z.to_nat (k + 1)) rest) Hz) as Hb.
  rewrite H in Hb. cbn in Hb. lia.
Qed.

Lemma iteration_buf (s s' : Channel) (r : result turn) :
  inv s -> iteration (len (_buf s)) s = (s', r) ->
  _buf s' = _buf s /\ _io s' = _io s /\ _enc s' = _enc s /\ _cnt s' = _cnt s
  /\ _cbk s' = _cbk s /\ inv s' /\ _off s <= _off s'.
Proof.
  intros Hi H. rewrite iteration_see in H by exact Hi.
  pose proof (see_bounds (_enc s) (_siz s)
                (skipn (Z.to_nat (_off s)) (_buf s))) as Hb.
  unfold inv in *. rewrite len_skipn in Hb by lia.
  destruct (see _ _ _); cbn in *; inversion H; subst; cbn;
    repeat split; lia.
Qed.

Lemma iteration_next (s s' : Channel) (c : Z) :
  inv s -> iteration (len (_buf s)) s = (s', Ok (Next c)) ->
  _siz s' = -1 /\ c = _off s' /\ (_siz s < 0 -> _off s + 2 <= _off s').
Proof.
  intros Hi H. rewrite iteration_see in H by exact Hi.
  destruct (see _ _ _) eqn:Hsee; cbn in *; inversion H; subst; cbn.
  repeat split. intros Hs. pose proof (see_next_progress _ _ _ _ _ Hsee Hs). lia.
Qed.

Lemma process_sound (fuel : nat) :
  forall b c s s' r,
    process fuel b c s = Some (s', r) -> Process b c s s' r.
Proof.
  induction fuel as [|fuel IH]; intros b c s s' r H; cbn [process] in H; [discriminate|].
  destruct (iteration b s) as [s1 [[|c']|e]] eqn:Hit.
  - inversion H; subst. now apply Process_break.
  - eapply Process_next; eauto.
  - inversion H; subst. now apply Process_raise.
Qed.

Lemma Process_det (b : Z) :
  forall c s s1 r1, Process b c s s1 r1 ->
  forall s2 r2, Process b c s s2 r2 -> s1 = s2 /\ r1 = r2.
Proof.
  induction 1 as [c s s1 e H|c s s1 H|c c' s s1 s1' r1 H Hp IH];
    intros s2 r2 H2; inversion H2; subst; try congruence.
  - split; congruence.
  - split; congruence.
  - assert (E : (s1, @Ok turn (Next c')) = (self', Ok (Next consumed'))) by congruence.
    inversion E; subst. now apply IH.
Qed.

Lemma process_enough (fuel : nat) :
  forall c s,
    inv s -> (turns s <= fuel)%nat ->
    exists s' r, process fuel (len (_buf s)) c s = Some (s', r).
Proof.
  induction fuel as [|fuel IH]; intros c s Hi Hf.
  - unfold turns in Hf. destruct (_siz s <? 0); lia.
  - cbn [process]. destruct (iteration (len (_buf s)) s) as [s1 [[|c']|e]] eqn:Hit;
      try (eexists; eexists; reflexivity).
    destruct (iteration_buf _ _ _ Hi Hit) as (Hb & _ & _ & _ & _ & Hi1 & Hle).
    destruct (iteration_next _ _ _ Hi Hit) as (Hs1 & _ & Hprog).
    rewrite <- Hb. apply IH; [exact Hi1|].
    unfold turns, inv in *. rewrite Hb in *. rewrite Hs1.
    change (-1 <? 0) with true.
    destruct (_siz s <? 0) eqn:Hs.
    + assert (_off s + 2 <= _off s1) by (apply Hprog; zlia). lia.
    + lia.
Qed.

(** The loop of [_receive] ends, with the turns the code allows it. *)
Lemma Process_total (c : Z) (s : Channel) :
  inv s -> exists s' r, Process (len (_buf s)) c s s' r.
Proof.
  intros Hi. destruct (process_enough _ c s Hi (Nat.le_refl (turns s))) as (s' & r & H).
  exists s', r. eapply process_sound; eauto.
Qed.

Lemma process_complete (c : Z) (s s' : Channel) (r : result Z) :
  inv s -> Process (len (_buf s)) c s s' r ->
  process (S (S (Z.to_nat (len (_buf s) - _off s)))) (len (_buf s)) c s
  = Some (s', r).
Proof.
  intros Hi Hp.
  destruct (process_enough (S (S (Z.to_nat (len (_buf s) - _off s)))) c s Hi)
    as (s1 & r1 & H).
  { unfold turns. destruct (_siz s <? 0); lia. }
  rewrite H. apply process_sound in H.
  destruct (Process_det _ _ _ _ _ Hp _ _ H) as [-> ->]. reflexivity.
Qed.

Lemma Process_inv (b : Z) :
  forall c s s' r,
    Process b c s s' r -> b = len (_buf s) -> inv s -> 0 <= c <= _off s ->
    _buf s' = _buf s /\ _io s' = _io s /\ _enc s' = _enc s /\ _cnt s' = _cnt s
    /\ _cbk s' = _cbk s /\ inv s' /\
    match r with Ok k => c <= k <= _off s' | Raise _ => True end.
Proof.
  induction 1 as [c s s1 e H|c s s1 H|c c' s s1 s1' r1 H Hp IH];
    intros Hb Hi Hc; subst b.
  - destruct (iteration_buf _ _ _ Hi H) as (? & ? & ? & ? & ? & ? & ?). tauto.
  - destruct (iteration_buf _ _ _ Hi H) as (? & ? & ? & ? & ? & ? & ?).
    unfold inv in *. repeat split; try tauto; try lia.
  - destruct (iteration_buf _ _ _ Hi H) as (Hb & Hio & He & Hcn & Hcb & Hi1 & Hle).
    destruct (iteration_next _ _ _ Hi H) as (_ & Hc' & _).
    destruct IH as (? & ? & ? & ? & ? & ? & Hr);
      [congruence | exact Hi1 | unfold inv in *; lia |].
    repeat split; try congruence; try tauto; try (unfold inv in *; lia).
    destruct r1; [lia | exact I].
Qed.

(** ** Reading the transport, and [_receive] as a whole *)

Lemma slice_to_firstn {A : Type} (l : list A) (n : Z) :
  0 <= n -> slice_to l n = firstn (Z.to_nat n) l.
Proof.
  intros Hn. unfold slice_to, slice, clamp. pose proof (len_nonneg l).
  destruct (0 <? 0) eqn:E0; [discriminate|].
  destruct (n <? 0) eqn:E1; [lia|].
  rewrite (Z.min_l 0) by lia. rewrite Z.sub_0_r.
  change (Z.to_nat 0) with 0%nat. cbn [skipn].
  destruct (Z.le_gt_cases n (len l)).
  - now rewrite Z.min_l by lia.
  - rewrite Z.min_r by lia. unfold len in *.
    rewrite !firstn_all2 by lia. reflexivity.
Qed.

Lemma slice_from_skipn {A : Type} (l : list A) (n : Z) :
  0 <= n -> slice_from l n = skipn (Z.to_nat n) l.
Proof.
  intros Hn. destruct (Z.le_gt_cases n (len l)).
  - apply slice_from_view. lia.
  - unfold slice_from, slice, clamp. pose proof (len_nonneg l).
    destruct (n <? 0) eqn:E1; [lia|]. destruct (len l <? 0) eqn:E2; [lia|].
    rewrite (Z.min_r n) by lia. rewrite Z.min_id, Z.sub_diag.
    rewrite skipn_all_len. unfold len in *. rewrite skipn_all2 by lia.
    reflexivity.
Qed.

(** The first loop of [_receive] moves everything the transport holds to
    the end of the buffer. *)
Lemma collect_all (fuel : nat) :
  forall self,
    (List.length (FakeSocket._buf (_io self)) < fuel)%nat ->
    collect fuel 1024 self =
    Some (set_buf (_buf self ++ FakeSocket._buf (_io self))
            (set_io FakeSocket.init self), Ok tt).
Proof.
  induction fuel as [|fuel IH]; intros self Hf; [lia|].
  cbn [collect]. unfold io_recv, FakeSocket.recv.
  change (1024 <? 0) with false. cbv iota.
  rewrite slice_to_firstn, slice_from_skipn by lia.
  set (sock := FakeSocket._buf (_io self)) in *.
  destruct (len (firstn (Z.to_nat 1024) sock) <? 1024) eqn:Hshort.
  - assert (Hl : (List.length sock < 1024)%nat).
    { apply Z.ltb_lt in Hshort. unfold len in Hshort.
      rewrite length_firstn in Hshort. lia. }
    rewrite firstn_all2, skipn_all2 by lia.
    destruct (len sock >? 0) eqn:Hne.
    + cbn. destruct (len (_buf self) >? 0) eqn:Hb; [reflexivity|].
      assert (Hnil : _buf self = []).
      { apply len_zero_nil. pose proof (len_nonneg (_buf self)). zlia. }
      rewrite Hnil. reflexivity.
    + assert (Hnil : sock = []).
      { apply len_zero_nil. pose proof (len_nonneg sock). zlia. }
      rewrite Hnil, app_nil_r. reflexivity.
  - assert (Hl : (1024 <= List.length sock)%nat).
    { apply Z.ltb_ge in Hshort. unfold len in Hshort.
      rewrite length_firstn in Hshort. lia. }
    assert (Hpos : (len (firstn (Z.to_nat 1024) sock) >? 0) = true).
    { rewrite Z.gtb_ltb. apply Z.ltb_lt. apply Z.ltb_ge in Hshort. lia. }
    rewrite Hpos. cbn [_buf set_io].
    assert (Hsame :
      (if len (_buf self) >? 0
       then set_buf (_buf self ++ firstn (Z.to_nat 1024) sock)
              (set_io {| FakeSocket._buf := skipn (Z.to_nat 1024) sock |} self)
       else set_buf (firstn (Z.to_nat 1024) sock)
              (set_io {| FakeSocket._buf := skipn (Z.to_nat 1024) sock |} self))
      = set_buf (_buf self ++ firstn (Z.to_nat 1024) sock)
          (set_io {| FakeSocket._buf := skipn (Z.to_nat 1024) sock |} self)).
    { destruct (len (_buf self) >? 0) eqn:Hb; [reflexivity|].
      assert (Hnil : _buf self = []).
      { apply len_zero_nil. pose proof (len_nonneg (_buf self)). zlia. }
      rewrite Hnil. reflexivity. }
    cbn in Hsame. cbn. rewrite Hsame. rewrite IH.
    + cbn. rewrite <- app_assoc, firstn_skipn. reflexivity.
    + cbn. rewrite length_skipn. lia.
Qed.

Lemma compact_zero (s : Channel) : compact 0 s = s.
Proof. unfold compact. cbn. rewrite Z.sub_0_r. reflexivity. Qed.

Lemma receive_try_Process (self s2 : Channel) (r : result Z) :
  inv (collected self) ->
  Process (len (_buf (collected self))) 0 (collected self) s2 r ->
  receive_try self =
  Some (match r with
        | Raise e => (s2, Raise e)
        | Ok k => (compact k s2, Ok tt)
        end).
Proof.
  intros Hi Hp. unfold receive_try. rewrite collect_all by lia.
  fold (collected self).
  rewrite (process_complete 0 (collected self) s2 r Hi Hp).
  destruct r as [k|e]; [|reflexivity].
  destruct (Process_inv _ _ _ _ _ Hp eq_refl Hi) as (_ & _ & _ & _ & _ & _ & Hk).
  { unfold inv in Hi. lia. }
  destruct (k >? 0) eqn:Hpos.
  - unfold compact. rewrite slice_from_skipn by lia. reflexivity.
  - assert (k = 0) by zlia. subst k. now rewrite compact_zero.
Qed.

Lemma disconnect_raises (s : Channel) :
  disconnect s =
  (s, Raise (AttributeError "'Channel' object has no attribute 'disconnect'")).
Proof. reflexivity. Qed.

Lemma _receive_Process (self s2 : Channel) (r : result Z) :
  inv (collected self) ->
  Process (len (_buf (collected self))) 0 (collected self) s2 r ->
  _receive self =
  Some (match r with
        | Raise e =>
            (s2, Raise (AttributeError
                          "'Channel' object has no attribute 'disconnect'"))
        | Ok k => (compact k s2, Ok tt)
        end).
Proof.
  intros Hi Hp. unfold _receive. rewrite (receive_try_Process _ _ _ Hi Hp).
  destruct r as [k|e]; [reflexivity|].
  unfold bind. rewrite disconnect_raises. reflexivity.
Qed.

Lemma inv_collected (self : Channel) : inv self -> inv (collected self).
Proof.
  unfold inv, collected. cbn. rewrite len_app.
  pose proof (len_nonneg (FakeSocket._buf (_io self))). lia.
Qed.

(** [_receive] always ends. *)
Lemma _receive_total (self : Channel) :
  inv self -> exists self' r, _receive self = Some (self', r).
Proof.
  intros Hi. apply inv_collected in Hi.
  destruct (Process_total 0 _ Hi) as (s2 & r & Hp).
  rewrite (_receive_Process _ _ _ Hi Hp).
  destruct r; eexists; eexists; reflexivity.
Qed.

(** ** Decimal numerals *)

Lemma value_of_snoc (l : text) (d acc : Z) :
  value_of (l ++ [d]) acc = 10 * value_of l acc + (d - ZERO).
Proof. unfold value_of. rewrite fold_left_app. reflexivity. Qed.

Lemma all_digits_app (l r : text) :
  all_digits (l ++ r) = all_digits l && all_digits r.
Proof. apply forallb_app. Qed.

Lemma digits_of_spec (fuel : nat) :
  forall n,
    0 <= n < 10 ^ Z.of_nat (S fuel) ->
    all_digits (digits_of (S fuel) n) = true
    /\ value_of (digits_of (S fuel) n) 0 = n
    /\ digits_of (S fuel) n <> [].
Proof.
  induction fuel as [|fuel IH]; intros n Hn.
  - change (10 ^ Z.of_nat 1) with 10 in Hn. cbn [digits_of].
    replace (n <? 10) with true by (symmetry; apply Z.ltb_lt; lia).
    cbn. unfold is_digit. repeat split; try discriminate; zlia.
  - remember (S fuel) as f eqn:Hf. cbn [digits_of].
    destruct (n <? 10) eqn:Hlt.
    + cbn. unfold is_digit. repeat split; try discriminate; zlia.
    + rewrite Nat2Z.inj_succ, Z.pow_succ_r in Hn by lia.
      destruct (IH (n / 10)) as (Hd & Hv & Hne).
      { split; [apply Z.div_pos; lia|].
        apply Z.div_lt_upper_bound; lia. }
      repeat split.
      * rewrite all_digits_app, Hd. cbn. unfold is_digit.
        pose proof (Z.mod_pos_bound n 10). zlia.
      * rewrite value_of_snoc, Hv. pose proof (Z.div_mod n 10). zlia.
      * destruct (digits_of f (n / 10)); discriminate.
Qed.

Lemma digits_fuel (n : Z) :
  0 <= n -> n < 10 ^ Z.of_nat (S (Z.to_nat (Z.log2 n))).
Proof.
  intros Hn. rewrite Nat2Z.inj_succ, Z2Nat.id by apply Z.log2_nonneg.
  destruct (Z.eq_dec n 0) as [->|Hz]; [cbn; lia|].
  pose proof (Z.log2_spec n) as Hl.
  pose proof (Z.log2_nonneg n).
  assert (2 ^ Z.succ (Z.log2 n) <= 10 ^ Z.succ (Z.log2 n))
    by (apply Z.pow_le_mono_l; lia).
  lia.
Qed.

Lemma digits_spec (n : Z) :
  0 <= n ->
  all_digits (digits n) = true /\ value_of (digits n) 0 = n /\ digits n <> [].
Proof.
  intros Hn. apply digits_of_spec. split; [exact Hn | now apply digits_fuel].
Qed.

(** The header scan reads a run of digits in one go. *)
Lemma scan_rest_digits (l : text) :
  forall rest k size,
    all_digits l = true ->
    scan_rest (l ++ rest) k size = scan_rest rest (k + len l) (value_of l size).
Proof.
  induction l as [|d l IH]; intros rest k size Hd.
  - cbn. now rewrite len_nil, Z.add_0_r.
  - cbn in Hd. apply andb_prop in Hd. destruct Hd as [Hd Hl].
    cbn [app scan_rest]. unfold is_digit in Hd. rewrite Hd.
    rewrite IH by exact Hl. rewrite len_cons. f_equal. lia.
Qed.

Lemma scan_digits_digits (l : text) :
  forall acc n,
    all_digits l = true ->
    scan_digits l acc n = (value_of l acc, n + len l, []).
Proof.
  induction l as [|d l IH]; intros acc n Hd.
  - cbn. now rewrite len_nil, Z.add_0_r.
  - cbn in Hd. apply andb_prop in Hd. destruct Hd as [Hd Hl].
    cbn [scan_digits]. rewrite Hd. rewrite IH by exact Hl.
    rewrite len_cons. do 2 f_equal. lia.
Qed.

Lemma ascii_of_text_id (s : text) :
  forallb (fun c => c <? 127) s = true -> ascii_of_text s = s.
Proof.
  induction s as [|c s IH]; intros H; [reflexivity|].
  cbn in H. apply andb_prop in H. destruct H as [Hc Hs].
  unfold ascii_of_text in *. cbn [map]. unfold ascii_of_char at 1.
  rewrite Hc, IH by exact Hs. reflexivity.
Qed.

Lemma forallb_impl {A : Type} (p q : A -> bool) (l : list A) :
  (forall x, p x = true -> q x = true) ->
  forallb p l = true -> forallb q l = true.
Proof.
  intros Hpq. induction l as [|x l IH]; intros H; [reflexivity|].
  cbn in *. apply andb_prop in H. destruct H as [Hx Hl].
  now rewrite (Hpq x Hx), IH.
Qed.

Lemma all_digits_ascii (l : text) :
  all_digits l = true -> forallb (fun c => c <? 127) l = true.
Proof.
  apply forallb_impl. intros c Hc. unfold is_digit in Hc.
  apply Z.ltb_lt. zlia.
Qed.

Lemma all_digits_no_colon (l : text) :
  all_digits l = true -> no_colon l = true.
Proof.
  apply forallb_impl. intros c Hc. unfold is_digit in Hc.
  apply negb_true_iff, Z.eqb_neq. zlia.
Qed.

Lemma all_digits_valid (l : text) :
  all_digits l = true -> valid_text l = true.
Proof.
  apply forallb_impl. intros c Hc. unfold is_digit in Hc.
  unfold valid_char, is_surrogate.
  replace (0 <=? c) with true by (symmetry; apply Z.leb_le; zlia).
  replace (c <? 1114112) with true by (symmetry; apply Z.ltb_lt; zlia).
  replace (55296 <=? c) with false by (symmetry; apply Z.leb_gt; zlia).
  reflexivity.
Qed.

(** A run of digits spells a number below the power of ten of its length. *)
Lemma value_of_bound (l : text) :
  forall acc,
    all_digits l = true -> 0 <= acc ->
    0 <= value_of l acc < (acc + 1) * 10 ^ len l.
Proof.
  induction l as [|d l IH]; intros acc Hd Ha.
  - change (0 <= acc < (acc + 1) * 1). lia.
  - cbn in Hd. apply andb_prop in Hd. destruct Hd as [Hd Hl].
    unfold is_digit in Hd. change (value_of (d :: l) acc)
      with (value_of l (10 * acc + (d - ZERO))).
    assert (Hacc : 0 <= 10 * acc + (d - ZERO)) by zlia.
    destruct (IH _ Hl Hacc) as [H1 H2]. split; [exact H1|].
    pose proof (len_nonneg l) as Hn.
    rewrite len_cons. replace (len l + 1) with (Z.succ (len l)) by lia.
    rewrite Z.pow_succ_r by lia.
    assert (Hp : 0 < 10 ^ len l) by (apply Z.pow_pos_nonneg; lia).
    assert (Hle : 10 * acc + (d - ZERO) + 1 <= 10 * (acc + 1)) by zlia.
    generalize dependent (10 ^ len l). intros P H2 Hp. nia.
Qed.

(** An integer below a power of ten has no more digits than the
    exponent. *)
Lemma digits_of_len (fuel : nat) :
  forall n k,
    0 <= n < 10 ^ k -> 1 <= k -> len (digits_of fuel n) <= k.
Proof.
  induction fuel as [|fuel IH]; intros n k Hn Hk.
  - cbn [digits_of]. rewrite len_nil. lia.
  - cbn [digits_of]. destruct (n <? 10) eqn:Hlt.
    + rewrite len_cons, len_nil. lia.
    + apply Z.ltb_ge in Hlt.
      assert (Hk2 : 2 <= k).
      { destruct (Z.eq_dec k 1) as [->|]; [|lia].
        change (10 ^ 1) with 10 in Hn. lia. }
      replace k with (Z.succ (k - 1)) in Hn by lia.
      rewrite Z.pow_succ_r in Hn by lia.
      rewrite len_app, len_cons, len_nil.
      assert (len (digits_of fuel (n / 10)) <= k - 1); [|lia].
      apply IH; [|lia]. split; [apply Z.div_pos; lia|].
      apply Z.div_lt_upper_bound; lia.
Qed.

(** The limit of [str], by value. *)
Lemma in_limit_iff (n : Z) :
  in_limit n = true <-> Z.abs n < 10 ^ MAX_STR_DIGITS.
Proof.
  unfold in_limit. pose proof (Z.abs_nonneg n) as Ha.
  destruct (digits_spec (Z.abs n) Ha) as (Hd & Hv & _).
  split.
  - intros H. apply Z.leb_le in H.
    destruct (value_of_bound (digits (Z.abs n)) 0 Hd ltac:(lia)) as [_ Hb].
    rewrite Hv, Z.add_0_l, Z.mul_1_l in Hb.
    eapply Z.lt_le_trans; [exact Hb|].
    apply Z.pow_le_mono_r; [lia | exact H].
  - intros H. apply Z.leb_le. apply digits_of_len; [lia|].
    unfold MAX_STR_DIGITS. lia.
Qed.

Lemma str_int_in_limit (n : Z) :
  in_limit n = true -> str_int n = Ok (decimal n).
Proof.
  unfold in_limit, str_int. intros H. apply Z.leb_le in H.
  replace (len (digits (Z.abs n)) >? MAX_STR_DIGITS) with false by lia.
  reflexivity.
Qed.

Lemma str_int_over_limit (n : Z) :
  in_limit n = false -> str_int n = Raise exceeds_limit.
Proof.
  unfold in_limit, str_int. intros H. apply Z.leb_gt in H.
  replace (len (digits (Z.abs n)) >? MAX_STR_DIGITS) with true by lia.
  reflexivity.
Qed.

(** The smallest integer [str] refuses. *)
Lemma in_limit_power : in_limit (10 ^ MAX_STR_DIGITS) = false.
Proof.
  destruct (in_limit (10 ^ MAX_STR_DIGITS)) eqn:H; [|reflexivity].
  apply in_limit_iff in H. rewrite Z.abs_eq in H.
  - exfalso. exact (Z.lt_irrefl _ H).
  - apply Z.pow_nonneg. lia.
Qed.

(** What [int] reads back from a run of digits within the limit. *)
Lemma int10_digits (l : text) (sign : Z) :
  all_digits l = true -> l <> [] -> len l <= MAX_STR_DIGITS ->
  match l with
  | d :: _ =>
      if is_digit d then
        let '(v, n, rest) := scan_digits l 0 0 in
        if match rest with c :: _ => c =? 95 | [] => false end then
          Raise invalid_literal
        else if n >? MAX_STR_DIGITS then Raise exceeds_limit
        else
          match lstrip rest with
          | [] => Ok (sign * v)
          | _ :: _ => Raise invalid_literal
          end
      else Raise invalid_literal
  | [] => Raise invalid_literal
  end = Ok (sign * value_of l 0).
Proof.
  intros Hd Hne Hl. destruct l as [|d l]; [congruence|].
  pose proof Hd as Hd'. cbn in Hd'. apply andb_prop in Hd'.
  destruct Hd' as [H1 _]. rewrite H1.
  rewrite scan_digits_digits by exact Hd. cbv beta iota.
  replace (0 + len (d :: l) >? MAX_STR_DIGITS) with false by lia.
  reflexivity.
Qed.

(** [int(str(n))] is [n], for the integers [str] spells. *)
Lemma int10_decimal (n : Z) : in_limit n = true -> int10 (decimal n) = Ok n.
Proof.
  unfold in_limit. intros Hlim. apply Z.leb_le in Hlim.
  unfold int10, decimal. destruct (n <? 0) eqn:Hneg.
  - replace (Z.abs n) with (- n) in Hlim by lia.
    destruct (digits_spec (- n)) as (Hd & Hv & Hne); [zlia|].
    remember (digits (- n)) as ds eqn:Eds.
    rewrite ascii_of_text_id
      by (cbn [forallb]; rewrite all_digits_ascii by exact Hd; reflexivity).
    cbn [lstrip]. change (is_ascii_space 45) with false. cbv iota.
    change (45 =? 43) with false. change (45 =? 45) with true. cbv iota.
    rewrite (int10_digits ds (-1) Hd Hne Hlim), Hv.
    f_equal. lia.
  - replace (Z.abs n) with n in Hlim by lia.
    destruct (digits_spec n) as (Hd & Hv & Hne); [zlia|].
    remember (digits n) as ds eqn:Eds.
    rewrite ascii_of_text_id by now apply all_digits_ascii.
    destruct ds as [|d l]; [congruence|].
    pose proof Hd as Hd'. cbn in Hd'. apply andb_prop in Hd'.
    destruct Hd' as [H1 _]. unfold is_digit in H1.
    cbn [lstrip]. unfold is_ascii_space.
    replace ((9 <=? d) && (d <=? 13) || (d =? 32)) with false
      by (symmetry; apply orb_false_iff; split;
          [apply andb_false_iff; right; apply Z.leb_gt; zlia
          | apply Z.eqb_neq; zlia]).
    replace (d =? 43) with false by (symmetry; apply Z.eqb_neq; zlia).
    replace (d =? 45) with false by (symmetry; apply Z.eqb_neq; zlia).
    rewrite (int10_digits (d :: l) 1 Hd Hne Hlim), Hv. f_equal. lia.
Qed.

Lemma decimal_no_colon (n : Z) : no_colon (decimal n) = true.
Proof.
  unfold decimal. destruct (n <? 0) eqn:Hneg.
  - destruct (digits_spec (- n)) as (Hd & _ & _); [zlia|].
    cbn. now apply all_digits_no_colon.
  - destruct (digits_spec n) as (Hd & _ & _); [zlia|].
    now apply all_digits_no_colon.
Qed.

Lemma decimal_valid (n : Z) : valid_text (decimal n) = true.
Proof.
  unfold decimal. destruct (n <? 0) eqn:Hneg.
  - destruct (digits_spec (- n)) as (Hd & _ & _); [zlia|].
    cbn. now apply all_digits_valid.
  - destruct (digits_spec n) as (Hd & _ & _); [zlia|].
    now apply all_digits_valid.
Qed.

Lemma decimal_nonempty (n : Z) : 1 <= len (decimal n).
Proof.
  unfold decimal. destruct (n <? 0) eqn:Hneg.
  - rewrite len_cons. pose proof (len_nonneg (digits (- n))). lia.
  - destruct (digits_spec n) as (_ & _ & Hne); [zlia|].
    destruct (digits n); [congruence|].
    rewrite len_cons. pose proof (len_nonneg t). lia.
Qed.

(** ** The default codec *)

(** [lia] after divisions and remainders have been replaced by their
    equations. *)
Ltac dlia := Z.div_mod_to_equations; lia.

(** Decoding undoes the encoding of one scalar value. *)
Lemma utf8_char_decode (c : Z) :
  valid_char c = true ->
  exists b, utf8_char c = Some b /\ b <> [] /\
            forall r, utf8_decode (b ++ r) = option_map (cons c) (utf8_decode r).
Proof.
  unfold valid_char, is_surrogate. intros Hv.
  assert (Hc : 0 <= c < 1114112 /\ (c < 55296 \/ 57343 < c)) by dlia.
  clear Hv. unfold utf8_char, is_surrogate.
  destruct (c <? 0) eqn:E0; [lia|].
  destruct (c <? 128) eqn:E1.
  { eexists; split; [reflexivity|]. split; [discriminate|]. intros r.
    cbn [app utf8_decode].
    replace ((0 <=? c) && (c <? 128)) with true by dlia. reflexivity. }
  destruct (c <? 2048) eqn:E2.
  { eexists; split; [reflexivity|]. split; [discriminate|]. intros r.
    cbn [app utf8_decode]. unfold is_cont.
    replace ((0 <=? 192 + c / 64) && (192 + c / 64 <? 128)) with false by dlia.
    replace ((194 <=? 192 + c / 64) && (192 + c / 64 <? 224)) with true by dlia.
    replace ((128 <=? 128 + c mod 64) && (128 + c mod 64 <? 192)) with true by dlia.
    replace ((192 + c / 64 - 192) * 64 + (128 + c mod 64 - 128)) with c by dlia.
    reflexivity. }
  destruct (c <? 65536) eqn:E3.
  { replace ((55296 <=? c) && (c <=? 57343)) with false by dlia.
    eexists; split; [reflexivity|]. split; [discriminate|]. intros r.
    cbn [app utf8_decode]. unfold is_cont, is_surrogate.
    replace ((0 <=? 224 + c / 4096) && (224 + c / 4096 <? 128)) with false by dlia.
    replace ((194 <=? 224 + c / 4096) && (224 + c / 4096 <? 224)) with false by dlia.
    replace ((224 <=? 224 + c / 4096) && (224 + c / 4096 <? 240)) with true by dlia.
    replace ((224 + c / 4096 - 224) * 4096 + (128 + (c / 64) mod 64 - 128) * 64
             + (128 + c mod 64 - 128)) with c by dlia.
    replace ((128 <=? 128 + (c / 64) mod 64) && (128 + (c / 64) mod 64 <? 192))
      with true by dlia.
    replace ((128 <=? 128 + c mod 64) && (128 + c mod 64 <? 192)) with true by dlia.
    replace (2048 <=? c) with true by dlia.
    replace ((55296 <=? c) && (c <=? 57343)) with false by dlia.
    reflexivity. }
  replace (c <? 1114112) with true by dlia.
  eexists; split; [reflexivity|]. split; [discriminate|]. intros r.
  cbn [app utf8_decode]. unfold is_cont.
  replace ((0 <=? 240 + c / 262144) && (240 + c / 262144 <? 128)) with false by dlia.
  replace ((194 <=? 240 + c / 262144) && (240 + c / 262144 <? 224)) with false by dlia.
  replace ((224 <=? 240 + c / 262144) && (240 + c / 262144 <? 240)) with false by dlia.
  replace ((240 <=? 240 + c / 262144) && (240 + c / 262144 <? 245)) with true by dlia.
  replace ((240 + c / 262144 - 240) * 262144
           + (128 + (c / 4096) mod 64 - 128) * 4096
           + (128 + (c / 64) mod 64 - 128) * 64
           + (128 + c mod 64 - 128)) with c by dlia.
  replace ((128 <=? 128 + (c / 4096) mod 64) && (128 + (c / 4096) mod 64 <? 192))
    with true by dlia.
  replace ((128 <=? 128 + (c / 64) mod 64) && (128 + (c / 64) mod 64 <? 192))
    with true by dlia.
  replace ((128 <=? 128 + c mod 64) && (128 + c mod 64 <? 192)) with true by dlia.
  replace (65536 <=? c) with true by dlia.
  replace (c <? 1114112) with true by dlia.
  reflexivity.
Qed.

Lemma utf8_round_trip (s : text) :
  valid_text s = true ->
  exists b, utf8_encode s = Some b /\ utf8_decode b = Some s
            /\ (s <> [] -> b <> []).
Proof.
  induction s as [|c s IH]; intros Hv.
  - exists []. repeat split. congruence.
  - cbn in Hv. apply andb_prop in Hv. destruct Hv as [Hc Hs].
    destruct (utf8_char_decode c Hc) as (b & Hb & Hne & Hdec).
    destruct (IH Hs) as (bs & Hbs & Hds & _).
    exists (b ++ bs). cbn [utf8_encode]. rewrite Hb, Hbs.
    split; [reflexivity|]. split.
    + rewrite Hdec, Hds. reflexivity.
    + intros _. destruct b; [congruence | discriminate].
Qed.

Lemma valid_text_app (s t : text) :
  valid_text (s ++ t) = valid_text s && valid_text t.
Proof. apply forallb_app. Qed.

Lemma utf8_decode_utf8 (s : text) :
  valid_text s = true -> decode utf_8 (utf8 s) = Ok s.
Proof.
  intros Hv. destruct (utf8_round_trip s Hv) as (b & Hb & Hd & _).
  unfold utf8. rewrite Hb. cbn. rewrite Hd. reflexivity.
Qed.

Lemma utf8_encode_utf8 (s : text) :
  valid_text s = true -> encode utf_8 s = Ok (utf8 s).
Proof.
  intros Hv. destruct (utf8_round_trip s Hv) as (b & Hb & Hd & _).
  unfold utf8. cbn. rewrite Hb. reflexivity.
Qed.

Lemma utf8_nonempty (s : text) :
  valid_text s = true -> s <> [] -> 0 < len (utf8 s).
Proof.
  intros Hv Hne. destruct (utf8_round_trip s Hv) as (b & Hb & _ & Hn).
  unfold utf8. rewrite Hb. specialize (Hn Hne).
  destruct b; [congruence|]. rewrite len_cons. pose proof (len_nonneg b). lia.
Qed.

(** ** Finding the boundaries of a message *)

Lemma index_from_app (c : Z) (l r : text) :
  forall k,
    forallb (fun x => negb (x =? c)) l = true ->
    index_from c (l ++ c :: r) k = k + len l.
Proof.
  induction l as [|x l IH]; intros k Hl.
  - cbn. rewrite Z.eqb_refl, len_nil. lia.
  - cbn in Hl. apply andb_prop in Hl. destruct Hl as [Hx Hl].
    cbn [app index_from]. apply negb_true_iff in Hx. rewrite Hx.
    rewrite IH by exact Hl. rewrite len_cons. lia.
Qed.

Lemma index_from_found (c : Z) (s : text) :
  forall k i,
    0 <= k -> index_from c s k = i -> i <> -1 ->
    exists l r, s = l ++ c :: r
                /\ forallb (fun x => negb (x =? c)) l = true
                /\ i = k + len l.
Proof.
  induction s as [|x s IH]; intros k i Hk H Hi.
  - cbn in H. congruence.
  - cbn in H. destruct (x =? c) eqn:Hx.
    + apply Z.eqb_eq in Hx. subst. exists [], s. rewrite len_nil.
      repeat split. lia.
    + destruct (IH (k + 1) i) as (l & r & Hs & Hl & Hil); try assumption; [lia|].
      exists (x :: l), r. subst s. cbn. rewrite Hx, Hl, len_cons.
      repeat split. lia.
Qed.

Lemma index_from_range (c : Z) (s : text) :
  forall k, 0 <= k -> index_from c s k = -1 \/ k <= index_from c s k.
Proof.
  induction s as [|x s IH]; intros k Hk; cbn; [now left|].
  destruct (x =? c); [right; lia|].
  destruct (IH (k + 1)); [lia | now left | right; lia].
Qed.

Lemma str_find_start (s : text) (c : Z) : str_find s c 0 = index_from c s 0.
Proof.
  unfold str_find, clamp. pose proof (len_nonneg s).
  change (0 <? 0) with false. cbv iota. rewrite Z.min_l by lia.
  reflexivity.
Qed.

Lemma str_find_from (s : text) (c a : Z) :
  0 <= a <= len s -> str_find s c a = index_from c (skipn (Z.to_nat a) s) a.
Proof.
  intros Ha. unfold str_find, clamp.
  destruct (a <? 0) eqn:E; [lia|]. rewrite Z.min_l by lia. reflexivity.
Qed.

Lemma skipn_succ_len_app {A : Type} (l : list A) (x : A) (r : list A) :
  skipn (Z.to_nat (len l + 1)) (l ++ x :: r) = r.
Proof.
  pose proof (len_nonneg l).
  rewrite skipn_succ by lia. rewrite skipn_len_app. reflexivity.
Qed.

(** On a message of that shape the boundaries are where they should. *)
Lemma boundaries_shaped (msg cat num rest : text) :
  shaped msg cat num rest ->
  str_find msg SEPARATOR 0 = len cat
  /\ str_find msg SEPARATOR (len cat + 1) = len cat + 1 + len num
  /\ slice_to msg (len cat) = cat
  /\ slice msg (len cat + 1) (len cat + 1 + len num) = num
  /\ slice_from msg (len cat + 1 + len num + 1) = rest.
Proof.
  intros (Hm & Hc & Hn & Hne). subst msg.
  pose proof (len_nonneg cat). pose proof (len_nonneg num).
  pose proof (len_nonneg rest).
  assert (Hlen : len (cat ++ SEPARATOR :: num ++ SEPARATOR :: rest)
                 = len cat + 1 + len num + 1 + len rest).
  { rewrite len_app, len_cons, len_app, len_cons. lia. }
  repeat split.
  - rewrite str_find_start. rewrite index_from_app by exact Hc. lia.
  - rewrite str_find_from by lia. rewrite skipn_succ_len_app.
    rewrite index_from_app by exact Hn. lia.
  - rewrite slice_to_firstn by lia. apply firstn_len_app.
  - rewrite slice_view by lia. rewrite skipn_succ_len_app.
    apply firstn_len_app.
  - rewrite slice_from_skipn by lia.
    replace (Z.to_nat (len cat + 1 + len num + 1))
      with (Z.to_nat (len num + 1) + Z.to_nat (len cat + 1))%nat by lia.
    rewrite <- skipn_skipn. rewrite !skipn_succ_len_app. reflexivity.
Qed.

(** Boundaries two apart or more mean that shape. *)
Lemma shaped_boundaries (msg : text) (i1 i2 : Z) :
  str_find msg SEPARATOR 0 = i1 ->
  (if i1 >=? 0 then str_find msg SEPARATOR (i1 + 1) else -1) = i2 ->
  i1 + 2 <= i2 ->
  exists cat num rest,
    shaped msg cat num rest /\ i1 = len cat /\ i2 = len cat + 1 + len num.
Proof.
  intros H1 H2 Hge. rewrite str_find_start in H1.
  pose proof (index_from_range SEPARATOR msg 0 (Z.le_refl 0)) as Hr.
  rewrite H1 in Hr.
  destruct (i1 >=? 0) eqn:Hpos; [|lia].
  destruct (index_from_found SEPARATOR msg 0 i1 (Z.le_refl 0) H1)
    as (cat & r & Hm & Hc & Hi1); [lia|].
  subst msg. pose proof (len_nonneg cat). pose proof (len_nonneg r).
  rewrite Z.add_0_l in Hi1. rewrite Hi1 in H2, Hge |- *. clear Hr Hpos.
  rewrite str_find_from in H2 by (rewrite len_app, len_cons; lia).
  rewrite skipn_succ_len_app in H2.
  destruct (index_from_found SEPARATOR r (len cat + 1) i2) as
    (num & rest & Hr & Hn & Hi2); try assumption; try lia.
  subst r. exists cat, num, rest. unfold shaped.
  repeat split; try assumption; try lia.
  intros ->. rewrite len_nil in Hi2. lia.
Qed.

(** [parse_message] on a message of the shape [CAT:NUM:MSG]. *)
Lemma parse_message_shaped (msg cat num rest : text) :
  shaped msg cat num rest ->
  parse_message msg =
  match int10 num with
  | Ok n => Ok (cat, n, rest)
  | Raise e => Raise e
  end.
Proof.
  intros Hs. pose proof Hs as (Hm & Hc & Hn & Hne).
  destruct (boundaries_shaped msg cat num rest Hs) as (H1 & H2 & H3 & H4 & H5).
  unfold parse_message. rewrite H1.
  pose proof (len_nonneg cat).
  replace (len cat >=? 0) with true by lia.
  rewrite H2.
  assert (0 < len num).
  { destruct num; [congruence|]. rewrite len_cons.
    pose proof (len_nonneg num). lia. }
  replace (len cat + 1 + len num <? len cat + 2) with false by lia.
  rewrite H3, H4, H5. reflexivity.
Qed.

(** [int] fails with [ValueError] only. *)
Lemma int10_raises (s : text) (e : exn) :
  int10 s = Raise e -> e = invalid_literal \/ e = exceeds_limit.
Proof.
  unfold int10. intros H.
  destruct (match lstrip (ascii_of_text s) with [] => _ | _ => _ end)
    as [sign a2].
  destruct a2 as [|d a2]; [left; congruence|].
  destruct (is_digit d); [|left; congruence].
  destruct (scan_digits (d :: a2) 0 0) as [[v n] rest].
  destruct (match rest with [] => _ | _ => _ end); [left; congruence|].
  destruct (n >? MAX_STR_DIGITS); [right; congruence|].
  destruct (lstrip rest); [discriminate | left; congruence].
Qed.

(** The message a well-formed triple is sent as parses back to it. *)
Lemma parse_message_body (j : job) :
  (let '(cat, _, _) := j in no_colon cat) = true ->
  (let '(_, num, _) := j in in_limit num) = true ->
  parse_message (body_of j) = Ok j.
Proof.
  destruct j as [[cat num] msg]. intros Hc Hl.
  rewrite (parse_message_shaped (body_of (cat, num, msg)) cat (decimal num) msg).
  - rewrite int10_decimal by exact Hl. reflexivity.
  - unfold shaped. repeat split.
    + exact Hc.
    + apply decimal_no_colon.
    + intros E. pose proof (decimal_nonempty num) as Hn.
      rewrite E, len_nil in Hn. lia.
Qed.

(** ** Frames: what the encoder writes, what the decoder reads *)

#[local] Arguments frame : simpl never.
#[local] Arguments frames : simpl never.
#[local] Arguments stream : simpl never.
#[local] Arguments digits : simpl never.
#[local] Arguments utf8 : simpl never.
#[local] Arguments str_int : simpl never.
#[local] Arguments decimal : simpl never.
#[local] Arguments in_limit : simpl never.

Lemma well_formed_parts (cat : text) (num : Z) (msg : text) :
  well_formed (cat, num, msg) = true ->
  valid_text cat = true /\ no_colon cat = true /\ valid_text msg = true.
Proof.
  unfold well_formed. intros H.
  apply andb_prop in H. destruct H as [H _].
  apply andb_prop in H. destruct H as [H Hm].
  apply andb_prop in H. destruct H as [Hc Hn]. auto.
Qed.

Lemma well_formed_limit (cat : text) (num : Z) (msg : text) :
  well_formed (cat, num, msg) = true -> in_limit num = true.
Proof.
  unfold well_formed. intros H. apply andb_prop in H. tauto.
Qed.

Lemma body_valid (j : job) :
  well_formed j = true -> valid_text (body_of j) = true /\ body_of j <> [].
Proof.
  destruct j as [[cat num] msg]. intros H.
  apply well_formed_parts in H. destruct H as (Hc & _ & Hm).
  unfold body_of. split.
  - rewrite !valid_text_app, Hc, Hm, decimal_valid. reflexivity.
  - destruct cat; discriminate.
Qed.

Lemma header_of_len (n : Z) : len (header_of n) = len (digits n) + 2.
Proof. unfold header_of. rewrite len_cons, len_app, len_cons, len_nil. lia. Qed.

(** A complete frame at the cursor is decoded, whatever follows it. *)
Lemma see_frame (j : job) (post : bytes) :
  well_formed j = true ->
  see utf_8 (-1) (frame j ++ post) = SeenNext (len (frame j)) j.
Proof.
  intros Hw. destruct (body_valid j Hw) as (Hv & Hne).
  pose proof (utf8_nonempty (body_of j) Hv Hne) as Hpos.
  pose proof (len_nonneg (utf8 (body_of j))) as Hn.
  destruct (digits_spec (len (utf8 (body_of j))) Hn) as (Hd & Hval & Hdne).
  unfold frame, header_of, see. set (b := utf8 (body_of j)) in *.
  change (-1 <? 0) with true. cbv iota.
  cbn [app]. change (negb (BEGIN =? BEGIN)) with false. cbv iota.
  rewrite <- !app_assoc. rewrite scan_rest_digits by exact Hd.
  cbn [app scan_rest].
  change ((ZERO <=? SEPARATOR) && (SEPARATOR <=? NINE)) with false.
  change (SEPARATOR =? SEPARATOR) with true. cbv iota.
  assert (Hk : 0 < len (digits (len b))).
  { destruct (digits (len b)); [congruence|]. rewrite len_cons.
    pose proof (len_nonneg t). lia. }
  replace (0 + len (digits (len b)) <=? 0) with false by lia.
  rewrite Z.add_0_l, Hval.
  rewrite skipn_succ_len_app.
  unfold see_body. rewrite len_app. pose proof (len_nonneg post).
  replace (len b + len post <? len b) with false by lia.
  replace (len b >? 0) with true by lia.
  rewrite firstn_len_app. unfold b. rewrite utf8_decode_utf8 by exact Hv.
  rewrite parse_message_body.
  - f_equal. rewrite len_cons, len_app, len_cons. lia.
  - destruct j as [[cat num] msg]. apply well_formed_parts in Hw. tauto.
  - destruct j as [[cat num] msg]. exact (well_formed_limit _ _ _ Hw).
Qed.

Lemma feed_nil (ch : Channel) : feed [] ch = ch.
Proof. unfold feed, FakeSocket.send. rewrite app_nil_r. reflexivity. Qed.

Lemma feed_feed (a b : bytes) (ch : Channel) :
  feed b (feed a ch) = feed (a ++ b) ch.
Proof. unfold feed, FakeSocket.send. cbn. rewrite app_assoc. reflexivity. Qed.

(** [send_format] puts exactly one frame on the transport. *)
Lemma send_job_writes (j : job) (ch : Channel) :
  well_formed j = true -> _enc ch = utf_8 ->
  send_job j ch = (feed (frame j) ch, Ok tt).
Proof.
  intros Hw He. destruct (body_valid j Hw) as (Hv & _).
  destruct j as [[cat num] msg].
  pose proof (well_formed_limit _ _ _ Hw) as Hl.
  unfold send_job, send_format. cbn [isinstance negb].
  unfold bind, get, lift. cbn [str_of str_num].
  rewrite (str_int_in_limit num Hl), He.
  change (cat ++ colon ++ decimal num ++ colon ++ msg)
    with (body_of (cat, num, msg)).
  rewrite utf8_encode_utf8 by exact Hv.
  set (b := utf8 (body_of (cat, num, msg))).
  pose proof (len_nonneg b) as Hn.
  destruct (digits_spec (len b) Hn) as (Hd & _ & _).
  assert (Hh : encode ascii_codec (text_of "@" ++ decimal (len b) ++ colon)
               = Ok (header_of (len b))).
  { unfold decimal. replace (len b <? 0) with false by lia.
    change (text_of "@" ++ digits (len b) ++ colon) with (header_of (len b)).
    cbn [encode ascii_codec].
    replace (forallb (fun c => (0 <=? c) && (c <? 128)) (header_of (len b)))
      with true; [reflexivity|].
    symmetry. unfold header_of. cbn [forallb].
    rewrite forallb_app. cbn.
    rewrite (forallb_impl is_digit (fun c => (0 <=? c) && (c <? 128))); auto.
    intros c Hc. unfold is_digit in Hc. zbool. unfold ZERO, NINE in *. lia. }
  rewrite Hh. unfold frame. fold b. clear Hh Hd Hn Hv.
  generalize (header_of (len b)) as h. clearbody b. intros h.
  unfold io_send, io_flush, modify, feed, FakeSocket.send, FakeSocket.flush.
  cbn. rewrite <- app_assoc. reflexivity.
Qed.

Lemma send_all_writes (js : list job) :
  forall ch,
    forallb well_formed js = true -> _enc ch = utf_8 ->
    send_all js ch = (feed (frames js) ch, Ok tt).
Proof.
  induction js as [|j js IH]; intros ch Hw He.
  - cbn. now rewrite feed_nil.
  - cbn in Hw. apply andb_prop in Hw. destruct Hw as [Hj Hjs].
    cbn [send_all]. unfold bind. rewrite send_job_writes by assumption.
    rewrite IH by assumption. unfold frames. cbn [map concat].
    now rewrite feed_feed.
Qed.

Lemma wire_frames (js : list job) :
  forallb well_formed js = true -> wire js = frames js.
Proof.
  intros Hw. unfold wire. rewrite send_all_writes by (assumption || reflexivity).
  reflexivity.
Qed.

Lemma frames_cons (j : job) (js : list job) :
  frames (j :: js) = frame j ++ frames js.
Proof. reflexivity. Qed.


(** ** More bytes behind the buffer, fewer bytes in front of it *)

Lemma moved_zero (v : seen) : moved 0 v = v.
Proof. destruct v; cbn; rewrite Z.add_0_l; reflexivity. Qed.

Lemma see_body_moved (enc : Codec) (d siz : Z) (rest : bytes) :
  see_body enc d siz rest = moved d (see_body enc 0 siz rest).
Proof.
  unfold see_body. destruct (len rest <? siz); cbn.
  - now rewrite Z.add_0_r.
  - destruct (if siz >? 0 then _ else _) as [msg|e]; cbn.
    + destruct (parse_message msg); cbn; now rewrite Z.add_0_l.
    + now rewrite Z.add_0_r.
Qed.

Lemma outcome_moved (s : Channel) (d sz : Z) (v : seen) :
  outcome (set_siz sz (set_off (_off s + d) s)) v = outcome s (moved d v).
Proof. destruct v; cbn; rewrite Z.add_assoc; reflexivity. Qed.

Lemma firstn_app_le {A : Type} (n : nat) (l r : list A) :
  (n <= List.length l)%nat -> firstn n (l ++ r) = firstn n l.
Proof.
  intros H. rewrite firstn_app.
  replace (n - List.length l)%nat with 0%nat by lia.
  cbn. apply app_nil_r.
Qed.

Lemma skipn_app_le {A : Type} (n : nat) (l r : list A) :
  (n <= List.length l)%nat -> skipn n (l ++ r) = skipn n l ++ r.
Proof.
  intros H. rewrite skipn_app.
  replace (n - List.length l)%nat with 0%nat by lia. reflexivity.
Qed.

(** A body that is complete is read the same with more bytes behind it. *)
Lemma see_body_ext (enc : Codec) (d siz : Z) (rest c : bytes) :
  match see_body enc d siz rest with
  | SeenBreak d' s => d' = d /\ s = siz /\ len rest < siz
  | v => see_body enc d siz (rest ++ c) = v
  end.
Proof.
  unfold see_body. pose proof (len_nonneg rest). pose proof (len_nonneg c).
  destruct (len rest <? siz) eqn:Hlt; [cbv beta iota; repeat split; lia|].
  rewrite len_app. replace (len rest + len c <? siz) with false by lia.
  assert (Hf : (if siz >? 0 then decode enc (firstn (Z.to_nat siz) (rest ++ c))
                else Ok [])
               = (if siz >? 0 then decode enc (firstn (Z.to_nat siz) rest)
                  else Ok [])).
  { destruct (siz >? 0); [|reflexivity].
    rewrite firstn_app_le by (unfold len in *; lia). reflexivity. }
  rewrite Hf. clear Hf.
  destruct (if siz >? 0 then _ else _) as [msg|e]; [|cbv beta iota; reflexivity].
  destruct (parse_message msg); cbv beta iota; reflexivity.
Qed.

Lemma scan_rest_ext (rest c : bytes) :
  forall k size,
    match scan_rest rest k size with
    | ScanDone => True
    | v => scan_rest (rest ++ c) k size = v
    end.
Proof.
  induction rest as [|b rest IH]; intros k size; cbn [app scan_rest]; [exact I|].
  destruct ((ZERO <=? b) && (b <=? NINE)); [apply IH|].
  destruct (b =? SEPARATOR); [|reflexivity].
  destruct (k <=? 0); reflexivity.
Qed.

(** One turn with more bytes behind the buffer: an exception or a decoded
    message stays, a [break] becomes what the turn after it does. *)
Lemma see_ext (enc : Codec) (siz : Z) (rest c : bytes) :
  match see enc siz rest with
  | SeenBreak d s =>
      see enc siz (rest ++ c)
      = moved d (see enc s (skipn (Z.to_nat d) rest ++ c))
  | v => see enc siz (rest ++ c) = v
  end.
Proof.
  unfold see. destruct (siz <? 0) eqn:Hs.
  - destruct rest as [|b rest].
    { change (Z.to_nat 0) with 0%nat. cbn [skipn app].
      rewrite moved_zero, Hs. reflexivity. }
    cbn [app]. destruct (negb (b =? BEGIN)) eqn:Hb; [reflexivity|].
    pose proof (scan_rest_ext rest c 0 0) as Hx.
    destruct (scan_rest rest 0 0) as [k size| |e] eqn:Hscan.
    + rewrite Hx.
      destruct (scan_rest_size _ _ _ _ _ (Z.le_refl 0) Hscan) as (Hz & _ & Hk).
      pose proof (scan_rest_bound _ _ _ _ _ Hscan) as Hkb.
      rewrite skipn_app_le by (unfold len in *; lia).
      pose proof (see_body_ext enc (k + 2) size
                    (skipn (Z.to_nat (k + 1)) rest) c) as Hbody.
      destruct (see_body enc (k + 2) size (skipn (Z.to_nat (k + 1)) rest))
        as [d' s' e'|d' s'|d' j'] eqn:Hsb; try exact Hbody.
      destruct Hbody as (-> & -> & Hlt).
      replace (size <? 0) with false by lia.
      replace (Z.to_nat (k + 2)) with (S (Z.to_nat (k + 1))) by lia.
      cbn [skipn]. apply see_body_moved.
    + change (Z.to_nat 0) with 0%nat. cbn [skipn].
      rewrite moved_zero, Hs. cbn [app]. rewrite Hb. reflexivity.
    + rewrite Hx. reflexivity.
  - pose proof (see_body_ext enc 0 siz rest c) as Hbody.
    destruct (see_body enc 0 siz rest) as [d' s' e'|d' s'|d' j'] eqn:Hsb;
      try exact Hbody.
    destruct Hbody as (-> & -> & Hlt).
    change (Z.to_nat 0) with 0%nat. cbn [skipn].
    rewrite moved_zero, Hs. reflexivity.
Qed.

Lemma inv_ext (c : bytes) (s : Channel) : inv s -> inv (ext c s).
Proof.
  unfold inv, ext. cbn. rewrite len_app. pose proof (len_nonneg c). lia.
Qed.

Lemma iteration_ext (s : Channel) (c : bytes) :
  inv s ->
  match iteration (len (_buf s)) s with
  | (s', Ok Break) =>
      inv s' /\
      iteration (len (_buf s ++ c)) (ext c s)
      = iteration (len (_buf s ++ c)) (ext c s')
  | (s', r) => iteration (len (_buf s ++ c)) (ext c s) = (ext c s', r)
  end.
Proof.
  intros Hi. pose proof (inv_ext c s Hi) as Hie.
  pose proof (iteration_see (ext c s) Hie) as He.
  cbn [ext set_buf _buf _off _siz _enc] in He.
  rewrite iteration_see by exact Hi.
  unfold inv in Hi.
  rewrite skipn_app_le in He by (unfold len in *; lia).
  pose proof (see_ext (_enc s) (_siz s)
                (skipn (Z.to_nat (_off s)) (_buf s)) c) as Hx.
  pose proof (see_bounds (_enc s) (_siz s)
                (skipn (Z.to_nat (_off s)) (_buf s))) as Hb.
  rewrite len_skipn in Hb by lia.
  destruct (see (_enc s) (_siz s) (skipn (Z.to_nat (_off s)) (_buf s)))
    as [d sz e|d sz|d j] eqn:Hsee; cbn [outcome seen_d] in *.
  - rewrite He, Hx. reflexivity.
  - assert (Hi' : inv (set_siz sz (set_off (_off s + d) s)))
      by (unfold inv; cbn; lia).
    split; [exact Hi'|].
    rewrite He, Hx.
    pose proof (iteration_see (ext c (set_siz sz (set_off (_off s + d) s)))
                  (inv_ext c _ Hi')) as He'.
    cbn [ext set_buf set_siz set_off _buf _off _siz _enc] in He'.
    cbn [ext set_buf set_siz set_off _buf _off _siz _enc].
    rewrite He'.
    rewrite skipn_app_le by (unfold len in *; lia).
    replace (Z.to_nat (_off s + d)) with (Z.to_nat d + Z.to_nat (_off s))%nat
      by lia.
    rewrite <- skipn_skipn.
    symmetry. apply (outcome_moved (set_buf (_buf s ++ c) s) d sz).
  - rewrite He, Hx. reflexivity.
Qed.

(** ** Complete frames *)

(** A complete frame is decoded the same with anything behind it. *)
Lemma complete_frame_see (enc : Codec) (f : bytes) (j : job) (post : bytes) :
  complete_frame enc f j ->
  see enc (-1) (f ++ post) = SeenNext (len f) j.
Proof.
  unfold complete_frame. intros H.
  set (s0 := set_buf f (Channel_init FakeSocket.init enc)) in *.
  assert (Hi : inv s0)
    by (unfold inv, s0; cbn; pose proof (len_nonneg f); lia).
  pose proof (iteration_see s0 Hi) as Hsee.
  change (len (_buf s0)) with (len f) in Hsee. rewrite H in Hsee.
  change (_enc s0) with enc in Hsee. change (_siz s0) with (-1) in Hsee.
  change (skipn (Z.to_nat (_off s0)) (_buf s0)) with f in Hsee.
  pose proof (see_ext enc (-1) f post) as Hx.
  destruct (see enc (-1) f) as [d sz e|d sz|d j'];
    cbn [outcome] in Hsee; try discriminate.
  rewrite Hx. injection Hsee. intros.
  assert (d = len f) by lia. congruence.
Qed.

(** What the encoder writes for a well-formed message is a complete frame. *)
Lemma frame_complete (j : job) :
  well_formed j = true -> complete_frame utf_8 (frame j) j.
Proof.
  intros Hw. unfold complete_frame.
  set (s0 := set_buf (frame j) (Channel_init FakeSocket.init utf_8)).
  assert (Hi : inv s0)
    by (unfold inv, s0; cbn; pose proof (len_nonneg (frame j)); lia).
  pose proof (iteration_see s0 Hi) as Hsee.
  change (len (_buf s0)) with (len (frame j)) in Hsee. rewrite Hsee.
  change (_enc s0) with utf_8. change (_siz s0) with (-1).
  change (skipn (Z.to_nat (_off s0)) (_buf s0)) with (frame j).
  rewrite <- (app_nil_r (frame j)) at 1. rewrite see_frame by exact Hw.
  cbn [outcome]. change (_off s0) with 0. rewrite Z.add_0_l. reflexivity.
Qed.

Lemma stream_encoded (js : list job) : stream (encoded js) = frames js.
Proof.
  unfold stream, encoded, frames. rewrite map_map. reflexivity.
Qed.

Lemma carried_encoded (js : list job) : carried (encoded js) = js.
Proof.
  unfold carried, encoded. rewrite map_map. apply map_id.
Qed.

Lemma encoded_complete (js : list job) :
  forallb well_formed js = true -> all_complete utf_8 (encoded js).
Proof.
  unfold all_complete, encoded. intros Hw. apply Forall_map.
  apply Forall_forall. intros j Hin. cbn.
  apply frame_complete. rewrite forallb_forall in Hw. now apply Hw.
Qed.

Lemma stream_cons (f : bytes) (j : job) (fs : list (bytes * job)) :
  stream ((f, j) :: fs) = f ++ stream fs.
Proof. reflexivity. Qed.

(** Complete frames at the cursor take one turn of the loop each. *)
Lemma Process_frames (fs : list (bytes * job)) :
  forall s c tail s' r,
    inv s -> _siz s = -1 -> all_complete (_enc s) fs ->
    skipn (Z.to_nat (_off s)) (_buf s) = stream fs ++ tail ->
    Process (len (_buf s))
      (match fs with [] => c | _ :: _ => _off s + len (stream fs) end)
      (advanced fs s) s' r ->
    Process (len (_buf s)) c s s' r.
Proof.
  induction fs as [|[f j] fs IH]; intros s c tail s' r Hi Hsiz Hw Hsk Hp.
  - unfold advanced in Hp. cbn in Hp.
    rewrite app_nil_r, Z.add_0_r in Hp. exact Hp.
  - inversion Hw as [|fj fs' Hj Hjs]; subst. cbn [fst snd] in Hj.
    rewrite stream_cons, <- app_assoc in Hsk.
    pose proof (iteration_see s Hi) as Hit.
    rewrite Hsk, Hsiz, (complete_frame_see _ _ _ _ Hj) in Hit.
    cbn [outcome] in Hit.
    set (s1 := set_jobs (_jobs s ++ [j])
                 (set_siz (-1) (set_off (_off s + len f) s))) in *.
    pose proof (len_nonneg f). pose proof (len_nonneg (stream fs)).
    assert (Hlen : len f + len (stream fs) + len tail
                   = len (_buf s) - _off s).
    { unfold inv in Hi. rewrite <- (len_skipn (_buf s) (_off s)) by lia.
      rewrite Hsk, !len_app. lia. }
    pose proof (len_nonneg tail).
    eapply Process_next; [exact Hit|].
    change (len (_buf s)) with (len (_buf s1)).
    apply (IH s1 (_off s + len f) tail).
    + unfold inv, s1 in *. cbn. lia.
    + reflexivity.
    + exact Hjs.
    + cbn. unfold inv in Hi.
      replace (Z.to_nat (_off s + len f))
        with (Z.to_nat (len f) + Z.to_nat (_off s))%nat by lia.
      rewrite <- skipn_skipn, Hsk. apply skipn_len_app.
    + replace (advanced fs s1) with (advanced ((f, j) :: fs) s).
      * replace (match fs with
                 | [] => _off s + len f
                 | _ :: _ => _off s1 + len (stream fs)
                 end) with (_off s + len (stream ((f, j) :: fs))); [exact Hp|].
        rewrite stream_cons, len_app. destruct fs; cbn.
        -- change (stream []) with (@nil Z). rewrite len_nil. lia.
        -- lia.
      * unfold advanced, s1, carried. cbn. rewrite stream_cons, len_app.
        rewrite <- app_assoc, Z.add_assoc. cbn [app].
        rewrite <- Hsiz. reflexivity.
Qed.

Lemma Process_same_turn (b c : Z) (s t s' : Channel) (r : result Z) :
  iteration b s = iteration b t -> Process b c t s' r -> Process b c s s' r.
Proof.
  intros E Hp. inversion Hp; subst.
  - apply Process_raise. congruence.
  - apply Process_break. congruence.
  - eapply Process_next; [|eassumption]. congruence.
Qed.

(** The loop with more bytes behind the buffer: it raises where it raised,
    and goes on from where it stopped. *)
Lemma Process_ext (c : bytes) (b : Z) :
  forall k s s' r,
    Process b k s s' r -> b = len (_buf s) -> inv s ->
    match r with
    | Raise e =>
        Process (len (_buf s ++ c)) k (ext c s) (ext c s') (Raise e)
    | Ok k' =>
        forall s'' r'',
          Process (len (_buf s ++ c)) k' (ext c s') s'' r'' ->
          Process (len (_buf s ++ c)) k (ext c s) s'' r''
    end.
Proof.
  induction 1 as [k s s1 e H|k s s1 H|k k' s s1 s1' r1 H Hp IH];
    intros Hb Hi; subst b; pose proof (iteration_ext s c Hi) as Hx;
    rewrite H in Hx.
  - now apply Process_raise.
  - destruct Hx as [_ Hx]. intros s'' r'' Hp.
    eapply Process_same_turn; eauto.
  - destruct (iteration_buf _ _ _ Hi H) as (Hbuf & _ & _ & _ & _ & Hi1 & _).
    rewrite <- Hbuf in IH. specialize (IH eq_refl Hi1).
    rewrite Hbuf in IH.
    destruct r1 as [k1|e].
    + intros s'' r'' Hp'. eapply Process_next; [exact Hx|]. now apply IH.
    + eapply Process_next; [exact Hx|]. exact IH.
Qed.

Lemma inv_compact (k : Z) (s : Channel) :
  inv s -> 0 <= k <= _off s -> inv (compact k s).
Proof.
  unfold inv, compact. cbn. intros Hi Hk. rewrite len_skipn by lia. lia.
Qed.

Lemma compact_compact (a b : Z) (s : Channel) :
  0 <= a -> 0 <= b -> compact a (compact b s) = compact (b + a) s.
Proof.
  intros Ha Hb. unfold compact. cbn. rewrite skipn_skipn.
  replace (Z.to_nat a + Z.to_nat b)%nat with (Z.to_nat (b + a)) by lia.
  replace (_off s - b - a) with (_off s - (b + a)) by lia.
  reflexivity.
Qed.

Lemma iteration_compact (s : Channel) (k : Z) :
  inv s -> 0 <= k <= _off s ->
  iteration (len (_buf (compact k s))) (compact k s)
  = (compact k (fst (iteration (len (_buf s)) s)),
     rebase_turn k (snd (iteration (len (_buf s)) s))).
Proof.
  intros Hi Hk. rewrite (iteration_see s Hi).
  rewrite (iteration_see (compact k s) (inv_compact k s Hi Hk)).
  unfold inv in Hi. cbn [compact set_off set_buf _buf _off _siz _enc].
  rewrite skipn_skipn.
  replace (Z.to_nat (_off s - k) + Z.to_nat k)%nat with (Z.to_nat (_off s))
    by lia.
  destruct (see (_enc s) (_siz s) (skipn (Z.to_nat (_off s)) (_buf s)));
    cbn; unfold compact; cbn;
    replace (_off s - k + d) with (_off s + d - k) by lia; reflexivity.
Qed.

(** The loop on a buffer cut at [k]: the same, [k] bytes earlier. *)
Lemma Process_compact (k b : Z) :
  forall c s s' r,
    Process b c s s' r -> b = len (_buf s) -> inv s -> 0 <= k <= _off s ->
    Process (len (_buf (compact k s))) (c - k) (compact k s) (compact k s')
      (rebase k r).
Proof.
  induction 1 as [c s s1 e H|c s s1 H|c c' s s1 s1' r1 H Hp IH];
    intros Hb Hi Hk; subst b;
    pose proof (iteration_compact s k Hi Hk) as Hx; rewrite H in Hx;
    cbn [fst snd rebase_turn] in Hx.
  - now apply Process_raise.
  - now apply Process_break.
  - destruct (iteration_buf _ _ _ Hi H) as (Hbuf & _ & _ & _ & _ & Hi1 & Hle).
    eapply Process_next; [exact Hx|].
    replace (len (_buf (compact k s))) with (len (_buf (compact k s1)))
      by (unfold compact; cbn; now rewrite Hbuf).
    apply IH; [now rewrite Hbuf | exact Hi1 | lia].
Qed.

(** ** Receive triggers *)

Lemma Channel_eq (s t : Channel) :
  _cnt s = _cnt t -> _enc s = _enc t -> _io s = _io t -> _buf s = _buf t ->
  _off s = _off t -> _siz s = _siz t -> _cbk s = _cbk t -> _jobs s = _jobs t ->
  s = t.
Proof.
  destruct s, t. cbn. intros. subst. reflexivity.
Qed.

Lemma collected_feed (c : bytes) (ch : Channel) :
  collected (feed c ch)
  = set_buf (_buf ch ++ FakeSocket._buf (_io ch) ++ c)
      (set_io FakeSocket.init ch).
Proof. reflexivity. Qed.

Lemma collected_feed_app (c1 c2 : bytes) (ch : Channel) :
  collected (feed (c1 ++ c2) ch) = ext c2 (collected (feed c1 ch)).
Proof.
  rewrite !collected_feed. unfold ext. cbn. rewrite <- !app_assoc.
  reflexivity.
Qed.

Lemma inv_collected_feed (c : bytes) (ch : Channel) :
  inv ch -> inv (collected (feed c ch)).
Proof.
  intros Hi. apply inv_collected. exact Hi.
Qed.

(** What arrived in one chunk may as well arrive in two: the first trigger
    neither raises nor loses anything the second needs. *)
Lemma trigger_split (c1 c2 : bytes) (ch ch' : Channel) :
  inv ch ->
  trigger (c1 ++ c2) ch = Some (ch', Ok tt) ->
  exists ch1,
    trigger c1 ch = Some (ch1, Ok tt) /\ inv ch1
    /\ trigger c2 ch1 = Some (ch', Ok tt).
Proof.
  intros Hi Hall. unfold trigger in *.
  set (s1 := collected (feed c1 ch)).
  assert (Hi1 : inv s1) by now apply inv_collected_feed.
  destruct (Process_total 0 s1 Hi1) as (s2 & r & Hp).
  pose proof (Process_ext c2 _ _ _ _ _ Hp eq_refl Hi1) as Hx.
  assert (Hi12 : inv (collected (feed (c1 ++ c2) ch)))
    by now apply inv_collected_feed.
  assert (Hc0 : 0 <= 0 <= _off s1) by (unfold inv in Hi1; lia).
  destruct (Process_inv _ _ _ _ _ Hp eq_refl Hi1 Hc0)
    as (Hbuf & Hio & _ & _ & _ & Hi2 & Hk).
  assert (Hs1 : ext c2 s1 = collected (feed (c1 ++ c2) ch))
    by (symmetry; apply collected_feed_app).
  destruct r as [k|e].
  - (* the first trigger returns *)
    exists (compact k s2).
    split; [apply (_receive_Process _ _ _ Hi1 Hp)|].
    split; [now apply inv_compact|].
    pose proof (inv_ext c2 s2 Hi2) as Hi2x.
    destruct (Process_total k (ext c2 s2) Hi2x) as (s3 & r3 & Hp3).
    cbn [ext set_buf _buf] in Hp3. rewrite Hbuf in Hp3.
    pose proof (Hx _ _ Hp3) as Hone.
    change (len (_buf s1 ++ c2)) with (len (_buf (ext c2 s1))) in Hone.
    rewrite Hs1 in Hone.
    rewrite (_receive_Process _ _ _ Hi12 Hone) in Hall.
    destruct r3 as [k3|e3]; [|discriminate].
    inversion Hall; subst ch'. clear Hall.
    (* the second trigger *)
    assert (Hstart : collected (feed c2 (compact k s2)) = compact k (ext c2 s2)).
    { rewrite collected_feed. unfold inv in Hi2.
      apply Channel_eq; cbn; try reflexivity.
      - rewrite Hio. reflexivity.
      - rewrite Hio. cbn.
        rewrite skipn_app_le by (unfold len in *; lia). reflexivity. }
    assert (Hk2 : 0 <= k <= _off (ext c2 s2)) by (cbn; lia).
    rewrite <- Hbuf in Hp3.
    pose proof (Process_compact k _ _ _ _ _ Hp3 eq_refl Hi2x Hk2) as Htwo.
    rewrite Z.sub_diag in Htwo. rewrite <- Hstart in Htwo.
    assert (Hi3 : inv (collected (feed c2 (compact k s2))))
      by (rewrite Hstart; now apply inv_compact).
    rewrite (_receive_Process _ _ _ Hi3 Htwo). cbn [rebase].
    destruct (Process_inv _ _ _ _ _ Hp3 eq_refl Hi2x Hk2)
      as (_ & _ & _ & _ & _ & _ & Hk3).
    rewrite compact_compact by lia.
    replace (k + (k3 - k)) with k3 by lia. reflexivity.
  - (* the first trigger raises: so does the single one *)
    exfalso.
    change (len (_buf s1 ++ c2)) with (len (_buf (ext c2 s1))) in Hx.
    rewrite Hs1 in Hx.
    rewrite (_receive_Process _ _ _ Hi12 Hx) in Hall. discriminate.
Qed.

(** One trigger on everything, or one trigger per chunk. *)
Lemma triggers_concat (cs : list bytes) :
  forall ch ch',
    inv ch -> cs <> [] ->
    trigger (List.concat cs) ch = Some (ch', Ok tt) ->
    triggers cs ch = Some (ch', Ok tt).
Proof.
  induction cs as [|c cs IH]; intros ch ch' Hi Hne H; [congruence|].
  cbn [List.concat] in H. cbn [triggers].
  destruct (trigger_split c (List.concat cs) ch ch' Hi H)
    as (ch1 & H1 & Hi1 & H2).
  rewrite H1. destruct cs as [|c' cs].
  - cbn [List.concat] in H. rewrite app_nil_r in H.
    rewrite H in H1. inversion H1; subst. reflexivity.
  - apply IH; [exact Hi1 | discriminate | exact H2].
Qed.

Lemma socket_empty (io : FakeSocket.t) :
  FakeSocket._buf io = [] -> io = FakeSocket.init.
Proof. destruct io as [b]. cbn. intros ->. reflexivity. Qed.

Lemma iteration_nothing (s : Channel) :
  inv s -> _siz s = -1 -> skipn (Z.to_nat (_off s)) (_buf s) = [] ->
  iteration (len (_buf s)) s = (s, Ok Break).
Proof.
  intros Hi Hs Hsk. rewrite iteration_see by exact Hi.
  rewrite Hsk, Hs. unfold see. change (-1 <? 0) with true.
  cbn [outcome]. rewrite Z.add_0_r, <- Hs. reflexivity.
Qed.

Lemma consumed_frames (fs : list (bytes * job)) (off : Z) :
  off = 0 ->
  match fs with [] => 0 | _ :: _ => off + len (stream fs) end = len (stream fs).
Proof. intros ->. destruct fs; [reflexivity | lia]. Qed.

(** A buffer of complete frames is decoded in one trigger. *)
Lemma trigger_stream (fs : list (bytes * job)) (ch : Channel) :
  at_rest ch -> all_complete (_enc ch) fs ->
  trigger (stream fs) ch = Some (set_jobs (_jobs ch ++ carried fs) ch, Ok tt).
Proof.
  intros (Hbuf & Hoff & Hsiz & Hsock) Hw. unfold trigger.
  set (s1 := collected (feed (stream fs) ch)).
  assert (Hb1 : _buf s1 = stream fs)
    by (unfold s1; rewrite collected_feed; cbn; now rewrite Hbuf, Hsock).
  assert (Hi1 : inv s1).
  { unfold inv. rewrite Hb1. change (_off s1) with (_off ch). rewrite Hoff.
    pose proof (len_nonneg (stream fs)). lia. }
  assert (Hp : Process (len (_buf s1)) 0 s1 (advanced fs s1)
                 (Ok (len (stream fs)))).
  { apply (Process_frames fs s1 0 [] _ _ Hi1 Hsiz Hw).
    - change (_off s1) with (_off ch). rewrite Hoff, Hb1, app_nil_r.
      reflexivity.
    - change (_off s1) with (_off ch). rewrite (consumed_frames fs (_off ch) Hoff).
      pose proof (len_nonneg (stream fs)).
      apply Process_break. apply (iteration_nothing (advanced fs s1)).
      + unfold inv, advanced. cbn. rewrite Hoff.
        change (_buf ch ++ FakeSocket._buf (_io ch) ++ stream fs)
          with (_buf s1). rewrite Hb1. lia.
      + exact Hsiz.
      + cbn. rewrite Hoff, Z.add_0_l.
        change (_buf ch ++ FakeSocket._buf (_io ch) ++ stream fs)
          with (_buf s1). rewrite Hb1. apply skipn_all_len. }
  rewrite (_receive_Process _ _ _ Hi1 Hp). do 2 f_equal.
  apply Channel_eq; cbn; try reflexivity.
  - symmetry. now apply socket_empty.
  - change (_buf ch ++ FakeSocket._buf (_io ch) ++ stream fs) with (_buf s1).
    rewrite Hb1, Hbuf. apply skipn_all_len.
  - rewrite Hoff. lia.
Qed.

(** So is what the encoder wrote for well-formed messages. *)
Lemma trigger_frames (js : list job) (ch : Channel) :
  at_rest ch -> _enc ch = utf_8 -> forallb well_formed js = true ->
  trigger (frames js) ch = Some (set_jobs (_jobs ch ++ js) ch, Ok tt).
Proof.
  intros Hrest Henc Hw.
  pose proof (trigger_stream (encoded js) ch Hrest) as H.
  rewrite Henc, stream_encoded, carried_encoded in H.
  apply H. now apply encoded_complete.
Qed.

(** Complete frames followed by bytes on which the decoder raises: the
    frames are decoded and queued, then the exception leaves the loop. *)
Lemma trigger_stream_raise (fs : list (bytes * job)) (tail : bytes)
      (ch st : Channel) (e : exn) :
  at_rest ch -> all_complete (_enc ch) fs ->
  iteration (len tail) (set_buf tail ch) = (st, Raise e) ->
  let final :=
    set_jobs (_jobs ch ++ carried fs)
      (set_siz (_siz st)
         (set_off (len (stream fs) + _off st)
            (set_buf (stream fs ++ tail) ch))) in
  receive_try (feed (stream fs ++ tail) ch) = Some (final, Raise e)
  /\ _receive (feed (stream fs ++ tail) ch) =
     Some (final,
           Raise (AttributeError
                    "'Channel' object has no attribute 'disconnect'")).
Proof.
  intros (Hbuf & Hoff & Hsiz & Hsock) Hw Hit final.
  pose proof (len_nonneg tail) as Ht. pose proof (len_nonneg (stream fs)) as Hf.
  (* what the turn on the tail alone sees *)
  assert (Hit0 : inv (set_buf tail ch)) by (unfold inv; cbn; lia).
  pose proof (iteration_see _ Hit0) as Hsee.
  change (len (_buf (set_buf tail ch))) with (len tail) in Hsee.
  rewrite Hit in Hsee.
  cbn [set_buf _buf _off _siz _enc] in Hsee.
  rewrite Hoff, Hsiz in Hsee. change (Z.to_nat 0) with 0%nat in Hsee.
  cbn [skipn] in Hsee.
  destruct (see (_enc ch) (-1) tail) as [d sz e'|d sz|d j] eqn:Hv;
    cbn [outcome] in Hsee; try discriminate.
  inversion Hsee; subst st e'. clear Hsee.
  (* the loop on the whole buffer *)
  set (s1 := collected (feed (stream fs ++ tail) ch)).
  assert (Hb1 : _buf s1 = stream fs ++ tail)
    by (unfold s1; rewrite collected_feed; cbn; now rewrite Hbuf, Hsock).
  assert (Hi1 : inv s1).
  { unfold inv. rewrite Hb1, len_app. change (_off s1) with (_off ch). lia. }
  assert (Hp : Process (len (_buf s1)) 0 s1
                 (set_siz sz (set_off (_off (advanced fs s1) + d)
                                (advanced fs s1)))
                 (Raise e)).
  { apply (Process_frames fs s1 0 tail _ _ Hi1 Hsiz Hw).
    - change (_off s1) with (_off ch). rewrite Hoff, Hb1. reflexivity.
    - apply Process_raise.
      assert (Hia : inv (advanced fs s1)).
      { unfold inv, advanced. cbn. rewrite Hoff.
        change (_buf ch ++ FakeSocket._buf (_io ch) ++ stream fs ++ tail)
          with (_buf s1). rewrite Hb1, len_app. lia. }
      pose proof (iteration_see _ Hia) as Hx.
      cbn [advanced set_jobs set_off _buf _off _siz _enc] in Hx.
      assert (Ho1 : _off s1 = 0) by exact Hoff.
      assert (Hs1 : _siz s1 = -1) by exact Hsiz.
      assert (He1 : _enc s1 = _enc ch) by reflexivity.
      rewrite Ho1, Z.add_0_l, Hs1, He1, Hb1, skipn_len_app, Hv in Hx.
      rewrite Hb1. exact Hx. }
  assert (Hfinal : set_siz sz (set_off (_off (advanced fs s1) + d)
                                 (advanced fs s1)) = final).
  { unfold final. apply Channel_eq; cbn; try reflexivity.
    - symmetry. now apply socket_empty.
    - rewrite Hbuf, Hsock. reflexivity.
    - rewrite ?Hoff. lia. }
  rewrite Hfinal in Hp. split.
  - apply (receive_try_Process _ _ _ Hi1 Hp).
  - apply (_receive_Process _ _ _ Hi1 Hp).
Qed.

(** ** What a method leaves alone *)

Section Keeps.

Variable R : Channel -> Channel -> Prop.
Hypothesis R_refl : forall s, R s s.
Hypothesis R_trans : forall s t u, R s t -> R t u -> R s u.

Lemma keeps_ret {A : Type} (a : A) : keeps R (ret a).
Proof. intros s. apply R_refl. Qed.

Lemma keeps_raise {A : Type} (e : exn) : keeps R (@raise A e).
Proof. intros s. apply R_refl. Qed.

Lemma keeps_lift {A : Type} (r : result A) : keeps R (lift r).
Proof. intros s. apply R_refl. Qed.

Lemma keeps_get : keeps R get.
Proof. intros s. apply R_refl. Qed.

Lemma keeps_modify (f : Channel -> Channel) :
  (forall s, R s (f s)) -> keeps R (modify f).
Proof. intros H s. apply H. Qed.

Lemma keeps_bind {A B : Type} (m : M A) (k : A -> M B) :
  keeps R m -> (forall a, keeps R (k a)) -> keeps R (bind m k).
Proof.
  intros Hm Hk s. unfold bind. specialize (Hm s).
  destruct (m s) as [s1 [a|e]]; cbn in *.
  - eapply R_trans; [exact Hm | apply Hk].
  - exact Hm.
Qed.

Lemma keeps_if {A : Type} (b : bool) (m1 m2 : M A) :
  keeps R m1 -> keeps R m2 -> keeps R (if b then m1 else m2).
Proof. destruct b; auto. Qed.

End Keeps.

Lemma same_cnt_refl (s : Channel) : same_cnt s s.
Proof. reflexivity. Qed.

Lemma same_cnt_trans (s t u : Channel) :
  same_cnt s t -> same_cnt t u -> same_cnt s u.
Proof. unfold same_cnt. congruence. Qed.

Ltac keeps_cnt :=
  repeat first
    [ apply (keeps_ret same_cnt same_cnt_refl)
    | apply (keeps_raise same_cnt same_cnt_refl)
    | apply (keeps_lift same_cnt same_cnt_refl)
    | apply (keeps_get same_cnt same_cnt_refl)
    | apply (keeps_bind same_cnt same_cnt_trans); [ | intros ? ]
    | apply (keeps_modify same_cnt); intros ?; reflexivity
    | match goal with
      | |- keeps _ (match ?x with _ => _ end) => destruct x
      end ].

Lemma send_format_cnt (cat num msg : pyval) :
  keeps same_cnt (send_format cat num msg).
Proof. unfold send_format, io_send, io_flush. keeps_cnt. Qed.

Lemma iteration_cnt (b : Z) : keeps same_cnt (iteration b).
Proof. unfold iteration, message, parse_header, push_job. keeps_cnt. Qed.

Lemma process_cnt (fuel : nat) :
  forall b c s s' r, process fuel b c s = Some (s', r) -> _cnt s' = _cnt s.
Proof.
  induction fuel as [|fuel IH]; intros b c s s' r H; cbn [process] in H;
    [discriminate|].
  pose proof (iteration_cnt b s) as Hc. unfold same_cnt in Hc.
  destruct (iteration b s) as [s1 [[|c']|e]]; cbn in Hc.
  - inversion H; subst. exact Hc.
  - apply IH in H. congruence.
  - inversion H; subst. exact Hc.
Qed.

Lemma collect_cnt (fuel : nat) :
  forall n s s' r, collect fuel n s = Some (s', r) -> _cnt s' = _cnt s.
Proof.
  induction fuel as [|fuel IH]; intros n s s' r H; cbn [collect] in H;
    [discriminate|].
  unfold io_recv in H.
  destruct (FakeSocket.recv (_io s) n) as [buf io].
  match type of H with
  | context [if len buf >? 0 then ?x else ?y] =>
      set (self2 := if len buf >? 0 then x else y) in H;
      assert (Hc2 : _cnt self2 = _cnt s)
        by (unfold self2; destruct (len buf >? 0);
            [destruct (len (_buf (set_io io s)) >? 0)|]; reflexivity);
      clearbody self2
  end.
  destruct (len buf <? n).
  - inversion H; subst. exact Hc2.
  - apply IH in H. congruence.
Qed.

Lemma _receive_cnt (s s' : Channel) (r : result unit) :
  _receive s = Some (s', r) -> _cnt s' = _cnt s.
Proof.
  unfold _receive, receive_try. intros H.
  destruct (collect _ 1024 s) as [[s1 [[]|e]]|] eqn:Hc; try discriminate.
  - apply collect_cnt in Hc.
    destruct (process _ _ 0 s1) as [[s2 [k|e]]|] eqn:Hp; try discriminate.
    + apply process_cnt in Hp. destruct (k >? 0); inversion H; subst; cbn;
        congruence.
    + apply process_cnt in Hp. unfold bind in H. rewrite disconnect_raises in H.
      inversion H; subst. congruence.
  - apply collect_cnt in Hc. unfold bind in H. rewrite disconnect_raises in H.
    inversion H; subst. congruence.
Qed.

Lemma send_serial_cnt (cat msg : pyval) (ch : Channel) :
  _cnt (fst (send_serial cat msg ch)) = _cnt ch + 1
  /\ forall n, snd (send_serial cat msg ch) = Ok n -> n = _cnt ch + 1.
Proof.
  unfold send_serial, bind, modify, get, ret. cbn [fst snd].
  pose proof (send_format_cnt cat (PyInt (_cnt ch + 1)) msg
                (set_cnt (_cnt ch + 1) ch)) as H.
  unfold same_cnt in H. cbn [set_cnt _cnt] in *.
  destruct (send_format cat (PyInt (_cnt ch + 1)) msg
              (set_cnt (_cnt ch + 1) ch)) as [s1 [[]|e]]; cbn in *.
  - split; [exact H|]. intros n Hn. inversion Hn. exact H.
  - split; [exact H|]. discriminate.
Qed.

(** A call leaves the counter where it is or moves it up, and a serial it
    returns is the new value of the counter, above the old one. *)
Lemma perform_cnt (c : call) (ch : Channel) :
  _cnt ch <= _cnt (fst (perform c ch))
  /\ forall n, snd (perform c ch) = Some n ->
               n = _cnt (fst (perform c ch)) /\ _cnt ch < n.
Proof.
  destruct c; cbn [perform];
    try (match goal with
         | |- context [send_command ?v ?c] =>
             change (send_command v c) with (send_serial (PyStr (text_of "CMD")) v c)
         | |- context [send_event ?v ?c] =>
             change (send_event v c) with (send_serial (PyStr (text_of "EVT")) v c)
         end).
  1-3: match goal with
       | |- context [send_serial ?a ?b ?c] =>
           destruct (send_serial_cnt a b c) as [H1 H2];
           destruct (send_serial a b c) as [s1 [n|e]]; cbn in *;
           (split; [lia|]); intros m Hm; inversion Hm; subst;
           try (specialize (H2 _ eq_refl)); lia
       end.
  1-3: match goal with
       | |- context [fst (?f ?c)] =>
           pose proof (send_format_cnt) as H
       end; unfold send_result, send_error;
       match goal with
       | |- context [send_format ?a ?b ?c ?s] =>
           specialize (H a b c s); unfold same_cnt in H; cbn [fst snd];
           split; [lia | discriminate]
       end.
  - destruct (_receive ch) as [[s1 r]|] eqn:Hr; cbn.
    + apply _receive_cnt in Hr. split; [lia | discriminate].
    + split; [lia | discriminate].
  - unfold pop_job, bind, get. cbn. destruct (_jobs ch); cbn;
      (split; [lia | discriminate]).
  - cbn. split; [lia | discriminate].
  - cbn. split; [lia | discriminate].
  - cbn. split; [lia | discriminate].
Qed.

Lemma serials_above (cs : list call) :
  forall ch,
    Forall (fun n => _cnt ch < n) (serials cs ch)
    /\ StronglySorted Z.lt (serials cs ch).
Proof.
  induction cs as [|c cs IH]; intros ch; cbn [serials].
  - split; constructor.
  - destruct (perform_cnt c ch) as [Hle Hret].
    destruct (perform c ch) as [ch' [n|]]; cbn [fst snd] in *.
    + destruct (Hret n eq_refl) as [Hn Hlt]. destruct (IH ch') as [Hall Hs].
      split.
      * constructor; [exact Hlt|].
        eapply Forall_impl; [|exact Hall]. cbn. intros; lia.
      * constructor; [exact Hs|].
        eapply Forall_impl; [|exact Hall]. cbn. intros; lia.
    + destruct (IH ch') as [Hall Hs]. split; [|exact Hs].
      eapply Forall_impl; [|exact Hall]. cbn. intros; lia.
Qed.

(** * The claims *)

Lemma complete_frame_nonempty (enc : Codec) (f : bytes) (j : job) :
  complete_frame enc f j -> f <> [].
Proof.
  intros H ->. pose proof (complete_frame_see enc [] j [] H) as Hsee.
  discriminate.
Qed.

Lemma stream_nil (enc : Codec) (fs : list (bytes * job)) :
  all_complete enc fs -> stream fs = [] -> fs = [].
Proof.
  destruct fs as [|[f j] fs]; [reflexivity|]. intros Hc Hs.
  inversion Hc as [|fj fs' Hf _]; subst. cbn [fst snd] in Hf.
  apply complete_frame_nonempty in Hf. rewrite stream_cons in Hs.
  destruct f; [congruence | discriminate].
Qed.

(** The encoder writes complete frames, one per message. *)
Lemma encoder_frames (js : list job) :
  forallb well_formed js = true ->
  all_complete ENCODING (encoded js)
  /\ stream (encoded js) = wire js
  /\ carried (encoded js) = js.
Proof.
  intros Hw. split; [now apply encoded_complete|]. split.
  - rewrite stream_encoded. symmetry. now apply wire_frames.
  - apply carried_encoded.
Qed.

Lemma at_rest_inv (ch : Channel) : at_rest ch -> inv ch.
Proof.
  intros (Hb & Ho & _ & _). unfold inv.
  assert (Hl : len (_buf ch) = 0) by (apply (f_equal len) in Hb; exact Hb).
  lia.
Qed.


#[local] Arguments Z.pow : simpl never.


(** C2 (fragmentation invariance).  Let the decoder be at rest.  The bytes
    of any sequence of complete frames, delivered in one chunk to one receive
    trigger or cut at arbitrary places into chunks delivered to one trigger
    each, leave the channel in the same state: the queue has grown by exactly
    the messages the frames carry, in order.  So it is, with the default
    codec, for the bytes the encoder writes for well-formed messages (text
    proper, no [':'] in the category, a serial of at most 4300 digits, which
    [str] spells). *)
Theorem fragmentation_invariance (ch : Channel) (chunks : list bytes) :
  at_rest ch ->
  (forall fs,
     all_complete (_enc ch) fs -> List.concat chunks = stream fs ->
     trigger (stream fs) ch
     = Some (set_jobs (_jobs ch ++ carried fs) ch, Ok tt)
     /\ triggers chunks ch
        = Some (set_jobs (_jobs ch ++ carried fs) ch, Ok tt))
  /\ (forall js,
        _enc ch = ENCODING -> forallb well_formed js = true ->
        List.concat chunks = wire js ->
        trigger (wire js) ch = Some (set_jobs (_jobs ch ++ js) ch, Ok tt)
        /\ triggers chunks ch = Some (set_jobs (_jobs ch ++ js) ch, Ok tt)).
Proof.
  intros Hrest.
  assert (Hgen : forall fs,
            all_complete (_enc ch) fs -> List.concat chunks = stream fs ->
            trigger (stream fs) ch
            = Some (set_jobs (_jobs ch ++ carried fs) ch, Ok tt)
            /\ triggers chunks ch
               = Some (set_jobs (_jobs ch ++ carried fs) ch, Ok tt)).
  { intros fs Hc Hcat.
    pose proof (trigger_stream fs ch Hrest Hc) as Hone.
    split; [exact Hone|].
    destruct chunks as [|c cs].
    - cbn in Hcat. symmetry in Hcat. apply (stream_nil _ _ Hc) in Hcat.
      subst fs. cbn. rewrite app_nil_r. reflexivity.
    - apply triggers_concat.
      + now apply at_rest_inv.
      + discriminate.
      + rewrite Hcat. exact Hone. }
  split; [exact Hgen|].
  intros js Henc Hw Hcat.
  destruct (encoder_frames js Hw) as (Hc & Hs & Hj).
  rewrite <- Henc in Hc. rewrite <- Hs in Hcat |- *.
  pose proof (Hgen (encoded js) Hc Hcat) as H. rewrite Hj in H. exact H.
Qed.

Lemma fragmentation_invariance_witness :
  let ch := Channel_init FakeSocket.init ENCODING in
  let chunks := [bytes_of "@"; bytes_of "8:EVT:"; []; bytes_of "1:hi@008:CM";
                 bytes_of "D:2:g"; bytes_of "o@12: OK : 3 :o:k"] in
  let fs := [(bytes_of "@8:EVT:1:hi", (text_of "EVT", 1, text_of "hi"));
             (bytes_of "@008:CMD:2:go", (text_of "CMD", 2, text_of "go"));
             (bytes_of "@12: OK : 3 :o:k", (text_of " OK ", 3, text_of "o:k"))] in
  trigger (stream fs) ch = Some (set_jobs (_jobs ch ++ carried fs) ch, Ok tt)
  /\ triggers chunks ch = Some (set_jobs (_jobs ch ++ carried fs) ch, Ok tt).
Proof.
  intros ch chunks fs.
  apply (proj1 (fragmentation_invariance ch chunks
                  (conj eq_refl (conj eq_refl (conj eq_refl eq_refl)))) fs);
    [unfold all_complete; repeat (apply Forall_cons; [reflexivity|]);
     apply Forall_nil
    | reflexivity].
Defined.

(** C3 (failure policy), on the input that shows the defect.  A fresh channel
    whose transport holds the single byte [x]: the body of the [try] raises
    the framing error, but what [_receive] raises is the [AttributeError] of
    the handler's call to the undefined [disconnect]; the transport is left as
    it was read. *)
Theorem receive_failure_replaces_framing_error :
  let ch := feed (bytes_of "x") (Channel_init FakeSocket.init ENCODING) in
  hasattr "disconnect" = false
  /\ receive_try ch =
     Some (set_buf (bytes_of "x") (Channel_init FakeSocket.init ENCODING),
           Raise (BadMessage "Missing begin message marker"))
  /\ _receive ch =
     Some (set_buf (bytes_of "x") (Channel_init FakeSocket.init ENCODING),
           Raise (AttributeError
                    "'Channel' object has no attribute 'disconnect'")).
Proof. cbv zeta. split; [reflexivity|]. split; reflexivity. Qed.

(** Whatever the [try] body raises, the caller of [_receive] gets the
    [AttributeError] instead. *)
Lemma _receive_raises_attribute_error (ch ch' : Channel) (ex : exn) :
  receive_try ch = Some (ch', Raise ex) ->
  _receive ch =
  Some (ch', Raise (AttributeError
                      "'Channel' object has no attribute 'disconnect'")).
Proof.
  intros H. unfold _receive. rewrite H. unfold bind.
  rewrite disconnect_raises. reflexivity.
Qed.

Lemma all_digits_scan_done (l : text) (k size : Z) :
  all_digits l = true -> scan_rest l k size = ScanDone.
Proof.
  intros H. rewrite <- (app_nil_r l). rewrite scan_rest_digits by exact H.
  reflexivity.
Qed.

(** C4 (header parsing).  The loop is entered awaiting a header
    ([_siz < 0]) with the byte [b] at the cursor.  If [b] is not ['@'] the
    loop raises "Missing begin message marker" at once, however few bytes
    follow; if [b] is ['@'] and the next byte is [':'] it raises "No size
    specified"; if [b] is ['@'] and only digits follow up to the end of the
    buffer, the loop is left without an exception, the instance
    untouched. *)
Theorem header_parsing
        (self : Channel) (b : Z) (fuel : nat) (consumed : Z) :
  _siz self < 0 -> 0 <= _off self < len (_buf self) ->
  getitem (_buf self) (_off self) = Some b ->
  (b <> BEGIN ->
   process (S fuel) (len (_buf self)) consumed self
   = Some (self, Raise (BadMessage "Missing begin message marker")))
  /\ (b = BEGIN ->
      getitem (_buf self) (_off self + 1) = Some SEPARATOR ->
      process (S fuel) (len (_buf self)) consumed self
      = Some (self, Raise (BadMessage "No size specified")))
  /\ (b = BEGIN ->
      all_digits (slice_from (_buf self) (_off self + 1)) = true ->
      process (S fuel) (len (_buf self)) consumed self
      = Some (self, Ok consumed)).
Proof.
  intros Hsiz Hoff Hb.
  assert (Hi : inv self) by (unfold inv; lia).
  rewrite getitem_skipn in Hb by lia.
  destruct (skipn (Z.to_nat (_off self)) (_buf self)) as [|b0 rest] eqn:Hsk;
    [discriminate|].
  cbn in Hb. inversion Hb; subst b0. clear Hb.
  assert (Hrest : skipn (Z.to_nat (_off self + 1)) (_buf self) = rest)
    by (rewrite skipn_succ by lia; rewrite Hsk; reflexivity).
  cbn [process]. rewrite (iteration_see self Hi), Hsk. unfold see.
  replace (_siz self <? 0) with true by lia.
  repeat split.
  - intros Hne. replace (negb (b =? BEGIN)) with true by lia.
    cbn [outcome]. rewrite Z.add_0_r. reflexivity.
  - intros -> Hsep. change (negb (BEGIN =? BEGIN)) with false. cbv iota.
    rewrite getitem_skipn, Hrest in Hsep by lia.
    destruct rest as [|c rest]; [discriminate|].
    cbn in Hsep. inversion Hsep; subst c.
    cbn [scan_rest].
    change ((ZERO <=? SEPARATOR) && (SEPARATOR <=? NINE)) with false.
    change (SEPARATOR =? SEPARATOR) with true. change (0 <=? 0) with true.
    cbn [outcome]. rewrite Z.add_0_r. reflexivity.
  - intros -> Hd. change (negb (BEGIN =? BEGIN)) with false. cbv iota.
    rewrite slice_from_skipn, Hrest in Hd by lia.
    rewrite all_digits_scan_done by exact Hd.
    cbn [outcome]. rewrite Z.add_0_r. reflexivity.
Qed.

Lemma header_parsing_witness :
  let ch := Channel_init FakeSocket.init ENCODING in
  process 1 1 0 (set_buf (bytes_of "x") ch)
  = Some (set_buf (bytes_of "x") ch,
          Raise (BadMessage "Missing begin message marker"))
  /\ process 1 5 0 (set_buf (bytes_of "@:abc") ch)
     = Some (set_buf (bytes_of "@:abc") ch,
             Raise (BadMessage "No size specified"))
  /\ process 1 4 0 (set_buf (bytes_of "@123") ch)
     = Some (set_buf (bytes_of "@123") ch, Ok 0).
Proof.
  intros ch. split; [|split].
  - apply (header_parsing (set_buf (bytes_of "x") ch) 120 0 0);
      [reflexivity | split; [discriminate | reflexivity] | reflexivity
       | discriminate].
  - apply (header_parsing (set_buf (bytes_of "@:abc") ch) 64 0 0);
      [reflexivity | split; [discriminate | reflexivity] | reflexivity
       | reflexivity | reflexivity].
  - apply (header_parsing (set_buf (bytes_of "@123") ch) 64 0 0);
      [reflexivity | split; [discriminate | reflexivity] | reflexivity
       | reflexivity | reflexivity].
Defined.

(** C5 (batch decode).  Whatever their number, complete frames sitting
    together in the buffer are all decoded by one receive trigger on a decoder
    at rest, which queues the messages they carry in arrival order; so are the
    frames the encoder wrote for well-formed messages (text proper, no [':']
    in the category, a serial of at most 4300 digits, which [str] spells).
    On a fresh channel, [send_event "hi"] then [send_command "go"] return 1
    and 2, and the trigger that follows queues [("EVT", 1, "hi")] then
    [("CMD", 2, "go")]. *)
Theorem batch_decode :
  (forall ch fs,
     at_rest ch -> all_complete (_enc ch) fs ->
     _receive (feed (stream fs) ch)
     = Some (set_jobs (_jobs ch ++ carried fs) ch, Ok tt))
  /\ (forall ch js,
        at_rest ch -> _enc ch = ENCODING -> forallb well_formed js = true ->
        send_all js ch = (feed (wire js) ch, Ok tt)
        /\ _receive (feed (wire js) ch)
           = Some (set_jobs (_jobs ch ++ js) ch, Ok tt))
  /\ (let ch0 := Channel_init FakeSocket.init ENCODING in
      let ch1 := fst (send_event (PyStr (text_of "hi")) ch0) in
      let ch2 := fst (send_command (PyStr (text_of "go")) ch1) in
      snd (send_event (PyStr (text_of "hi")) ch0) = Ok 1
      /\ snd (send_command (PyStr (text_of "go")) ch1) = Ok 2
      /\ _receive ch2
         = Some (set_jobs [(text_of "EVT", 1, text_of "hi");
                           (text_of "CMD", 2, text_of "go")]
                   (set_cnt 2 ch0), Ok tt)).
Proof.
  split; [|split].
  - intros ch fs Hrest Hc. apply (trigger_stream fs ch Hrest Hc).
  - intros ch js Hrest Henc Hw. rewrite wire_frames by exact Hw. split.
    + now apply send_all_writes.
    + apply (trigger_frames js ch Hrest Henc Hw).
  - cbv zeta. repeat split; reflexivity.
Qed.

Lemma batch_decode_witness :
  let ch := Channel_init FakeSocket.init ENCODING in
  let js := [(text_of "OK", 3, text_of "done"); (text_of "", 0, text_of "");
             (text_of "ERR", -4, text_of "no: such: thing")] in
  send_all js ch = (feed (wire js) ch, Ok tt)
  /\ _receive (feed (wire js) ch) = Some (set_jobs (_jobs ch ++ js) ch, Ok tt).
Proof.
  intros ch js.
  apply (proj1 (proj2 batch_decode) ch js);
    [repeat split | reflexivity | reflexivity].
Defined.

(** C6, as the code has it.  On a channel whose serial counter is 0 and
    whose codec is the default one, [send_command "go"] writes exactly the
    bytes [@8:CMD:1:go] to the transport (the body [CMD:1:go] is eight bytes
    long) and returns 1. *)
Theorem send_command_go (ch : Channel) :
  _cnt ch = 0 -> _enc ch = ENCODING ->
  send_command (PyStr (text_of "go")) ch
  = (feed (bytes_of "@8:CMD:1:go") (set_cnt 1 ch), Ok 1).
Proof.
  intros Hcnt Henc. unfold send_command, send_serial, bind, modify, get, ret.
  cbn [set_cnt _cnt]. rewrite Hcnt. change (0 + 1) with 1.
  pose proof (send_job_writes (text_of "CMD", 1, text_of "go") (set_cnt 1 ch)
                eq_refl Henc) as H.
  cbn [send_job] in H. rewrite H. reflexivity.
Qed.

Lemma send_command_go_witness :
  send_command (PyStr (text_of "go")) (Channel_init FakeSocket.init ENCODING)
  = (feed (bytes_of "@8:CMD:1:go")
       (set_cnt 1 (Channel_init FakeSocket.init ENCODING)), Ok 1).
Proof. apply send_command_go; reflexivity. Defined.

(** C6 as stated fails: the bytes written are not [@7:CMD:1:go]. *)
Lemma send_command_go_counterexample :
  let ch := Channel_init FakeSocket.init ENCODING in
  ~ (FakeSocket._buf (_io (fst (send_command (PyStr (text_of "go")) ch)))
     = bytes_of "@7:CMD:1:go"
     /\ snd (send_command (PyStr (text_of "go")) ch) = Ok 1).
Proof.
  intros ch [H _]. vm_compute in H. discriminate.
Qed.

(** C7, as the code has it.  With [i1] and [i2] the two boundaries the code
    computes, [parse_message] raises "Expecting CAT:NUM:MSG" exactly when
    [i2 < i1 + 2], that is exactly when the body is not of the form
    [cat:num:rest] with no [':'] in [cat] and [num] and with [num] not empty
    (an empty [cat] is accepted).  Otherwise the category is the text before
    the first [':'], the payload everything after the second, and the serial
    is what [int] makes of the text in between, whenever [int] accepts that
    text. *)
Theorem body_parsing (msg : text) :
  let i1 := str_find msg SEPARATOR 0 in
  let i2 := if i1 >=? 0 then str_find msg SEPARATOR (i1 + 1) else -1 in
  (parse_message msg = Raise (BadMessage "Expecting CAT:NUM:MSG")
   <-> i2 < i1 + 2)
  /\ (i2 < i1 + 2 <-> ~ exists cat num rest, shaped msg cat num rest)
  /\ (i1 + 2 <= i2 ->
      shaped msg (slice_to msg i1) (slice msg (i1 + 1) i2)
             (slice_from msg (i2 + 1))
      /\ forall n,
           int10 (slice msg (i1 + 1) i2) = Ok n ->
           parse_message msg = Ok (slice_to msg i1, n, slice_from msg (i2 + 1))).
Proof.
  intros i1 i2.
  assert (Hshape : i1 + 2 <= i2 ->
            shaped msg (slice_to msg i1) (slice msg (i1 + 1) i2)
                   (slice_from msg (i2 + 1))).
  { intros Hge.
    destruct (shaped_boundaries msg i1 i2 eq_refl eq_refl Hge)
      as (cat & num & rest & Hs & H1 & H2).
    destruct (boundaries_shaped msg cat num rest Hs) as (_ & _ & E1 & E2 & E3).
    rewrite H1, H2, E1, E2, E3. exact Hs. }
  split; [|split].
  - split.
    + intros Hbad. destruct (Z.lt_ge_cases i2 (i1 + 2)) as [Hlt|Hge]; [exact Hlt|].
      exfalso. specialize (Hshape Hge).
      rewrite (parse_message_shaped _ _ _ _ Hshape) in Hbad.
      destruct (int10 (slice msg (i1 + 1) i2)) as [n|e] eqn:Hint;
        [discriminate|].
      apply int10_raises in Hint. destruct Hint as [-> | ->]; discriminate.
    + intros Hlt. unfold parse_message. fold i1. fold i2.
      replace (i2 <? i1 + 2) with true by lia. reflexivity.
  - split.
    + intros Hlt (cat & num & rest & Hs).
      destruct (boundaries_shaped msg cat num rest Hs) as (E1 & E2 & _).
      destruct Hs as (_ & _ & _ & Hne).
      assert (0 < len num).
      { destruct num; [congruence|]. rewrite len_cons.
        pose proof (len_nonneg num). lia. }
      pose proof (len_nonneg cat).
      unfold i2, i1 in Hlt. rewrite E1 in Hlt.
      replace (len cat >=? 0) with true in Hlt by lia.
      rewrite E2 in Hlt. lia.
    + intros Hno. destruct (Z.lt_ge_cases i2 (i1 + 2)) as [Hlt|Hge]; [exact Hlt|].
      exfalso. apply Hno. eauto.
  - intros Hge. split; [now apply Hshape|].
    intros n Hn. rewrite (parse_message_shaped _ _ _ _ (Hshape Hge)), Hn.
    reflexivity.
Qed.

Lemma body_parsing_witness :
  parse_message (text_of "CMD:12:a:b")
  = Ok (text_of "CMD", 12, text_of "a:b").
Proof.
  apply (proj2 (proj2 (body_parsing (text_of "CMD:12:a:b"))));
    [vm_compute; discriminate | reflexivity].
Defined.

(** C7 as stated fails twice.  In ["A:x:y"] the second boundary is two
    characters after the first, yet no message is yielded: [int] raises
    [ValueError], which is not the framing error either.  And [":1:y"], which
    has no category, is accepted, with the empty category. *)
Lemma body_parsing_counterexample :
  (let msg := text_of "A:x:y" in
   let i1 := str_find msg SEPARATOR 0 in
   let i2 := str_find msg SEPARATOR (i1 + 1) in
   i1 + 2 <= i2
   /\ parse_message msg = Raise invalid_literal
   /\ ~ (exists j, parse_message msg = Ok j)
   /\ parse_message msg <> Raise (BadMessage "Expecting CAT:NUM:MSG"))
  /\ parse_message (text_of ":1:y") = Ok ([], 1, text_of "y").
Proof.
  split; [|reflexivity].
  cbv zeta. split; [vm_compute; discriminate|].
  split; [reflexivity|]. split.
  - intros [j H]. vm_compute in H. discriminate.
  - intros H. vm_compute in H. discriminate.
Qed.

(** C8 (send contract check).  When the category is not a [str], or the
    serial not an [int], or the message not a [str], [send_format] raises
    [TypeError] and the instance, its transport included, is exactly as it
    was: no byte has been written. *)
Theorem send_format_contract (ch : Channel) (cat num msg : pyval) :
  isinstance cat ty_str = false \/ isinstance num ty_int = false
  \/ isinstance msg ty_str = false ->
  exists reason, send_format cat num msg ch = (ch, Raise (TypeError reason)).
Proof.
  intros H. unfold send_format.
  destruct (isinstance cat ty_str); cbn [negb];
    [|eexists; reflexivity].
  destruct (isinstance num ty_int); cbn [negb];
    [|eexists; reflexivity].
  destruct (isinstance msg ty_str); cbn [negb];
    [|eexists; reflexivity].
  destruct H as [H|[H|H]]; discriminate.
Qed.

Lemma send_format_contract_witness :
  exists reason,
    send_format (PyStr (text_of "CMD")) (PyStr (text_of "1")) (PyStr (text_of "go"))
      (Channel_init FakeSocket.init ENCODING)
    = (Channel_init FakeSocket.init ENCODING, Raise (TypeError reason)).
Proof.
  apply send_format_contract. right. left. reflexivity.
Defined.

(** C9 (serial allocation).  The counter starts at 0.  [send_serial] moves it
    up by one before anything else and, when it returns, returns the new
    value; [send_command] and [send_event] are [send_serial].  Hence a first
    auto-numbered send that returns, returns 1 (and it does return for a text
    command on the default codec), and over any sequence of calls the serials
    returned are strictly increasing, all above the counter at the start.
    [send_result] and [send_error] leave the counter as it is: they are
    [send_format] with the category [OK] or [ERR] and the serial the caller
    gives, and the frame they write for a serial that [str] spells is the
    frame of the triple with that serial. *)
Theorem serial_allocation :
  (forall io enc, _cnt (Channel_init io enc) = 0)
  /\ (forall cat msg ch,
        _cnt (fst (send_serial cat msg ch)) = _cnt ch + 1
        /\ forall n, snd (send_serial cat msg ch) = Ok n -> n = _cnt ch + 1)
  /\ (forall v ch,
        send_command v ch = send_serial (PyStr (text_of "CMD")) v ch
        /\ send_event v ch = send_serial (PyStr (text_of "EVT")) v ch)
  /\ (forall io enc cat msg n,
        snd (send_serial cat msg (Channel_init io enc)) = Ok n -> n = 1)
  /\ (forall io s,
        valid_text s = true ->
        snd (send_command (PyStr s) (Channel_init io ENCODING)) = Ok 1
        /\ snd (send_event (PyStr s) (Channel_init io ENCODING)) = Ok 1)
  /\ (forall cs ch,
        StronglySorted Z.lt (serials cs ch)
        /\ Forall (fun n => _cnt ch < n) (serials cs ch))
  /\ (forall num v ch,
        _cnt (fst (send_result num v ch)) = _cnt ch
        /\ _cnt (fst (send_error num v ch)) = _cnt ch)
  /\ (forall num v ch,
        send_result num v ch = send_format (PyStr (text_of "OK")) num v ch
        /\ send_error num v ch = send_format (PyStr (text_of "ERR")) num v ch)
  /\ (forall num v ch,
        _enc ch = ENCODING -> in_limit num = true -> valid_text v = true ->
        send_result (PyInt num) (PyStr v) ch
        = (feed (frame (text_of "OK", num, v)) ch, Ok tt)
        /\ send_error (PyInt num) (PyStr v) ch
           = (feed (frame (text_of "ERR", num, v)) ch, Ok tt)).
Proof.
  split; [reflexivity|]. split; [apply send_serial_cnt|].
  split; [split; reflexivity|]. split.
  { intros io enc cat msg n H.
    apply (proj2 (send_serial_cnt cat msg (Channel_init io enc))) in H.
    exact H. }
  split.
  { intros io s Hs.
    assert (Hsend : forall cat,
              valid_text cat = true -> no_colon cat = true ->
              snd (send_serial (PyStr cat) (PyStr s) (Channel_init io ENCODING))
              = Ok 1).
    { intros cat Hc Hn. unfold send_serial, bind, modify, get, ret.
      cbn [set_cnt _cnt Channel_init]. change (0 + 1) with 1.
      assert (Hw : well_formed (cat, 1, s) = true)
        by (unfold well_formed; rewrite Hc, Hn, Hs; reflexivity).
      pose proof (send_job_writes (cat, 1, s)
                    (set_cnt 1 (Channel_init io ENCODING)) Hw eq_refl) as H.
      cbn [send_job] in H. rewrite H. reflexivity. }
    split; apply Hsend; reflexivity. }
  split.
  { intros cs ch. destruct (serials_above cs ch). split; assumption. }
  split.
  { intros num v ch. split.
    - apply (send_format_cnt (PyStr (text_of "OK")) num v ch).
    - apply (send_format_cnt (PyStr (text_of "ERR")) num v ch). }
  split; [intros num v ch; split; reflexivity|].
  intros num v ch He Hl Hv.
  assert (Hw : forall cat,
            valid_text cat = true -> no_colon cat = true ->
            well_formed (cat, num, v) = true)
    by (intros cat Hc Hn; unfold well_formed; now rewrite Hc, Hn, Hv, Hl).
  split.
  - exact (send_job_writes (text_of "OK", num, v) ch
             (Hw (text_of "OK") eq_refl eq_refl) He).
  - exact (send_job_writes (text_of "ERR", num, v) ch
             (Hw (text_of "ERR") eq_refl eq_refl) He).
Qed.

Lemma serial_allocation_witness :
  let ch := Channel_init FakeSocket.init ENCODING in
  snd (send_command (PyStr (text_of "go")) ch) = Ok 1
  /\ serials [call_send_command (PyStr (text_of "a"));
              call_send_result (PyInt 7) (PyStr (text_of "r"));
              call_send_event PyNone;
              call_send_event (PyStr (text_of "e"));
              call_receive;
              call_send_command (PyStr (text_of "b"))] ch = [1; 3; 4]
  /\ StronglySorted Z.lt
       (serials [call_send_command (PyStr (text_of "a"));
                 call_send_result (PyInt 7) (PyStr (text_of "r"));
                 call_send_event PyNone;
                 call_send_event (PyStr (text_of "e"));
                 call_receive;
                 call_send_command (PyStr (text_of "b"))] ch)
  /\ send_result (PyInt 7) (PyStr (text_of "r")) ch
     = (feed (frame (text_of "OK", 7, text_of "r")) ch, Ok tt)
  /\ frame (text_of "OK", 7, text_of "r") = bytes_of "@6:OK:7:r".
Proof.
  intros ch. split; [|split; [|split; [|split]]].
  - apply (proj1 (proj2 (proj2 (proj2 (proj2 serial_allocation))))
             FakeSocket.init (text_of "go")). reflexivity.
  - vm_compute. reflexivity.
  - apply (proj1 (proj2 (proj2 (proj2 (proj2 (proj2 serial_allocation))))) _ ch).
  - exact (proj1 (proj2 (proj2 (proj2 (proj2 (proj2 (proj2 (proj2 (proj2
             serial_allocation))))))) 7 (text_of "r") ch eq_refl eq_refl
             eq_refl)).
  - reflexivity.
Defined.

(** C10 (receive is not atomic on failure).  The decoder is at rest; the
    transport delivers complete frames [fs] followed by bytes [tail] on which
    a turn of the loop raises [e] (leaving the cursor at [_off st], the
    pending size at [_siz st]).  Then the [try] body of [_receive] raises [e]
    and [_receive] itself raises; the instance it leaves has all the messages
    of [fs] in the queue, in order, the whole input still in the buffer, and
    the cursor as far as the loop took it. *)
Theorem receive_not_atomic
        (ch : Channel) (fs : list (bytes * job)) (tail : bytes)
        (st : Channel) (e : exn) :
  at_rest ch -> all_complete (_enc ch) fs ->
  iteration (len tail) (set_buf tail ch) = (st, Raise e) ->
  exists ch' ex,
    receive_try (feed (stream fs ++ tail) ch) = Some (ch', Raise e)
    /\ _receive (feed (stream fs ++ tail) ch) = Some (ch', Raise ex)
    /\ _jobs ch' = _jobs ch ++ carried fs
    /\ _buf ch' = stream fs ++ tail
    /\ _off ch' = len (stream fs) + _off st
    /\ _siz ch' = _siz st.
Proof.
  intros Hrest Hc Hit.
  destruct (trigger_stream_raise fs tail ch st e Hrest Hc Hit) as [H1 H2].
  eexists. eexists. split; [exact H1|]. split; [exact H2|].
  repeat split.
Qed.

Lemma receive_not_atomic_witness :
  let ch := Channel_init FakeSocket.init ENCODING in
  let js := [(text_of "EVT", 1, text_of "hi"); (text_of "CMD", 2, text_of "go")] in
  let tail := bytes_of "@4:abcd@1" in
  exists ch' ex,
    receive_try (feed (stream (encoded js) ++ tail) ch)
    = Some (ch', Raise (BadMessage "Expecting CAT:NUM:MSG"))
    /\ _receive (feed (stream (encoded js) ++ tail) ch) = Some (ch', Raise ex)
    /\ _jobs ch' = _jobs ch ++ carried (encoded js)
    /\ _buf ch' = stream (encoded js) ++ tail
    /\ _off ch'
       = len (stream (encoded js))
         + _off (fst (iteration (len tail) (set_buf tail ch)))
    /\ _siz ch' = _siz (fst (iteration (len tail) (set_buf tail ch))).
Proof.
  intros ch js tail.
  apply (receive_not_atomic ch (encoded js) tail);
    [repeat split
    | unfold all_complete; repeat (apply Forall_cons; [reflexivity|]);
      apply Forall_nil
    | reflexivity].
Defined.

(** * Further properties *)

(** ** The transport and the first loop of [_receive] *)

(** X1 ([FakeSocket.recv]).  [recv(n)] cuts the pending bytes in two: what it
    returns followed by what it leaves is what was pending, in order; it
    returns [n] bytes when that many are pending and all of them otherwise;
    a negative [n] returns nothing and leaves everything. *)
Theorem recv_splits (io : FakeSocket.t) (n : Z) :
  fst (FakeSocket.recv io n) ++ FakeSocket._buf (snd (FakeSocket.recv io n))
  = FakeSocket._buf io
  /\ len (fst (FakeSocket.recv io n))
     = (if n <? 0 then 0 else Z.min n (len (FakeSocket._buf io)))
  /\ (n < 0 -> FakeSocket.recv io n = ([], io)).
Proof.
  unfold FakeSocket.recv. destruct (n <? 0) eqn:Hn.
  - cbn. repeat split.
  - assert (0 <= n) by lia. cbn [fst snd FakeSocket._buf].
    rewrite slice_to_firstn, slice_from_skipn by lia.
    split; [apply firstn_skipn|]. split; [|lia].
    unfold len. rewrite length_firstn. lia.
Qed.

(** X2 (the read loop, lines 192-200).  Whatever the chunk size [n > 0], the
    loop [buf = recv(n); ...; if len(buf) < n: break] appends everything the
    transport holds to the buffer, in order, and empties the transport; with
    [p] bytes pending it is left in turn [p / n + 1], not before. *)
Theorem collect_reads (n : Z) (fuel : nat) :
  0 < n ->
  forall self,
    collect fuel n self
    = if len (FakeSocket._buf (_io self)) / n <? Z.of_nat fuel
      then Some (set_buf (_buf self ++ FakeSocket._buf (_io self))
                   (set_io FakeSocket.init self), Ok tt)
      else None.
Proof.
  intros Hn. induction fuel as [|fuel IH]; intros self.
  - cbn [collect]. pose proof (len_nonneg (FakeSocket._buf (_io self))).
    replace (len (FakeSocket._buf (_io self)) / n <? Z.of_nat 0) with false;
      [reflexivity|].
    symmetry. apply Z.ltb_ge. change (Z.of_nat 0) with 0.
    apply Z.div_pos; lia.
  - cbn [collect]. unfold io_recv, FakeSocket.recv.
    replace (n <? 0) with false by lia. cbv iota.
    rewrite slice_to_firstn, slice_from_skipn by lia.
    set (sock := FakeSocket._buf (_io self)) in *.
    pose proof (len_nonneg sock) as Hs.
    destruct (len (firstn (Z.to_nat n) sock) <? n) eqn:Hshort.
    + assert (Hl : len sock < n).
      { apply Z.ltb_lt in Hshort. unfold len in *.
        rewrite length_firstn in Hshort. lia. }
      rewrite firstn_all2, skipn_all2 by (unfold len in *; lia).
      replace (len sock / n <? Z.of_nat (S fuel)) with true
        by (symmetry; apply Z.ltb_lt; rewrite Z.div_small by lia; lia).
      destruct (len sock >? 0) eqn:Hne.
      * cbn. destruct (len (_buf self) >? 0) eqn:Hb; [reflexivity|].
        assert (Hnil : _buf self = []).
        { apply len_zero_nil. pose proof (len_nonneg (_buf self)). zlia. }
        rewrite Hnil. reflexivity.
      * assert (Hnil : sock = []).
        { apply len_zero_nil. zlia. }
        rewrite Hnil, app_nil_r. reflexivity.
    + assert (Hl : n <= len sock).
      { apply Z.ltb_ge in Hshort. unfold len in *.
        rewrite length_firstn in Hshort. lia. }
      assert (Hpos : (len (firstn (Z.to_nat n) sock) >? 0) = true).
      { rewrite Z.gtb_ltb. apply Z.ltb_lt. apply Z.ltb_ge in Hshort. lia. }
      rewrite Hpos. cbn [_buf set_io].
      assert (Hsame :
        (if len (_buf self) >? 0
         then set_buf (_buf self ++ firstn (Z.to_nat n) sock)
                (set_io {| FakeSocket._buf := skipn (Z.to_nat n) sock |} self)
         else set_buf (firstn (Z.to_nat n) sock)
                (set_io {| FakeSocket._buf := skipn (Z.to_nat n) sock |} self))
        = set_buf (_buf self ++ firstn (Z.to_nat n) sock)
            (set_io {| FakeSocket._buf := skipn (Z.to_nat n) sock |} self)).
      { destruct (len (_buf self) >? 0) eqn:Hb; [reflexivity|].
        assert (Hnil : _buf self = []).
        { apply len_zero_nil. pose proof (len_nonneg (_buf self)). zlia. }
        rewrite Hnil. reflexivity. }
      cbn in Hsame. cbn. rewrite Hsame. rewrite IH. cbn.
      rewrite len_skipn by lia.
      replace ((len sock - n) / n) with (len sock / n - 1).
      * generalize (len sock / n). intros q.
        rewrite Nat2Z.inj_succ.
        destruct (Z.ltb_spec (q - 1) (Z.of_nat fuel));
          destruct (Z.ltb_spec q (Z.succ (Z.of_nat fuel)));
          try (exfalso; lia); [|reflexivity].
        rewrite <- app_assoc, firstn_skipn. reflexivity.
      * replace (len sock - n) with (len sock + (-1) * n) by lia.
        rewrite Z.div_add by lia. lia.
Qed.

Lemma collect_reads_witness :
  0 < 2 /\
  collect 3 2 (feed (bytes_of "abcde") (Channel_init FakeSocket.init ENCODING))
  = Some (set_buf (bytes_of "abcde") (Channel_init FakeSocket.init ENCODING),
          Ok tt)
  /\ collect 2 2 (feed (bytes_of "abcde") (Channel_init FakeSocket.init ENCODING))
     = None.
Proof.
  split; [lia|]. split.
  - exact (collect_reads 2 3 ltac:(lia)
             (feed (bytes_of "abcde") (Channel_init FakeSocket.init ENCODING))).
  - exact (collect_reads 2 2 ltac:(lia)
             (feed (bytes_of "abcde") (Channel_init FakeSocket.init ENCODING))).
Defined.

(** ** The queue of jobs *)

Lemma more_jobs_spec (ch : Channel) :
  more_jobs ch = (ch, Ok (negb (Nat.eqb (List.length (_jobs ch)) 0))).
Proof.
  unfold more_jobs, bind, get, ret. f_equal. f_equal.
  destruct (_jobs ch) as [|j q]; [reflexivity|].
  rewrite len_cons. pose proof (len_nonneg q). cbn. lia.
Qed.

Lemma drain_from (fuel : nat) :
  forall out ch,
    (List.length (_jobs ch) < fuel)%nat ->
    drain fuel out ch
    = Some (set_jobs [] ch, Ok (out ++ map Some (_jobs ch))).
Proof.
  induction fuel as [|fuel IH]; intros out ch Hf; [lia|].
  cbn [drain]. rewrite more_jobs_spec.
  destruct (_jobs ch) as [|j q] eqn:Hj.
  - cbn. rewrite app_nil_r. f_equal. f_equal.
    apply Channel_eq; try reflexivity. cbn. now rewrite Hj.
  - cbn [List.length Nat.eqb negb]. unfold pop_job, bind, get, modify, ret.
    rewrite Hj. rewrite IH by (cbn in *; lia). cbn.
    rewrite <- app_assoc. reflexivity.
Qed.

Lemma push_all_jobs (js : list job) :
  forall ch, push_all js ch = (set_jobs (_jobs ch ++ js) ch, Ok tt).
Proof.
  induction js as [|j js IH]; intros ch.
  - cbn. rewrite app_nil_r. reflexivity.
  - cbn [push_all]. unfold bind, push_job at 1, modify. rewrite IH. cbn.
    rewrite <- app_assoc. reflexivity.
Qed.

(** X3 (the queue is first in, first out; lines 277-288 and the loop at
    329-331).  After [push_job] of the jobs [js] in order, the loop
    [while chn.more_jobs(): job = chn.pop_job(); print(job)] stops, having
    printed the jobs that were queued before and then [js], each once, in the
    order they were pushed, never [None]; the queue is then empty and nothing
    else of the channel has changed. *)
Theorem queue_fifo (js : list job) (ch : Channel) (spare : nat) :
  drain (S (List.length (_jobs ch ++ js)) + spare) [] (fst (push_all js ch))
  = Some (set_jobs [] ch, Ok (map Some (_jobs ch ++ js))).
Proof.
  rewrite push_all_jobs. cbn [fst]. rewrite drain_from by (cbn; lia).
  reflexivity.
Qed.

(** X4 ([pop_job] and [more_jobs]).  [more_jobs] changes nothing, and answers
    [False] exactly when [pop_job] returns [None]; [pop_job] then changes
    nothing either.  Otherwise [pop_job] returns the oldest job and removes
    it, and only it, from the queue. *)
Theorem pop_job_more_jobs (ch : Channel) :
  fst (more_jobs ch) = ch
  /\ (snd (more_jobs ch) = Ok false <-> snd (pop_job ch) = Ok None)
  /\ (snd (pop_job ch) = Ok None -> fst (pop_job ch) = ch)
  /\ (forall j, snd (pop_job ch) = Ok (Some j) ->
        _jobs ch = j :: _jobs (fst (pop_job ch))
        /\ fst (pop_job ch) = set_jobs (_jobs (fst (pop_job ch))) ch).
Proof.
  rewrite more_jobs_spec. unfold pop_job, bind, get, modify, ret.
  destruct (_jobs ch) as [|j q] eqn:Hj; cbn.
  all: repeat split; try discriminate; try congruence.
  all: intros j' H; inversion H; reflexivity.
Qed.

(** ** The sender *)

(** The header [send_format] writes for a body of [n] bytes. *)
Lemma ascii_header (n : Z) :
  0 <= n ->
  encode ascii_codec (text_of "@" ++ decimal n ++ colon) = Ok (header_of n).
Proof.
  intros Hn. destruct (digits_spec n Hn) as (Hd & _ & _).
  unfold decimal. replace (n <? 0) with false by lia.
  change (text_of "@" ++ digits n ++ colon) with (header_of n).
  cbn [encode ascii_codec].
  replace (forallb (fun c => (0 <=? c) && (c <? 128)) (header_of n))
    with true; [reflexivity|].
  symmetry. unfold header_of. cbn [forallb].
  rewrite forallb_app. cbn.
  rewrite (forallb_impl is_digit (fun c => (0 <=? c) && (c <? 128))); auto.
  intros c Hc. unfold is_digit in Hc. zbool. unfold ZERO, NINE in *. lia.
Qed.

(** A send that raises has written nothing. *)
Lemma send_format_raises_clean
      (cat num msg : pyval) (ch : Channel) (e : exn) :
  snd (send_format cat num msg ch) = Raise e ->
  fst (send_format cat num msg ch) = ch.
Proof.
  unfold send_format.
  destruct (negb (isinstance cat ty_str)); [reflexivity|].
  destruct (negb (isinstance num ty_int)); [reflexivity|].
  destruct (negb (isinstance msg ty_str)); [reflexivity|].
  unfold bind, get, lift.
  destruct (str_num num) as [t|e0]; [|reflexivity].
  destruct (encode (_enc ch) _) as [b|e1]; [|reflexivity].
  destruct (encode ascii_codec _) as [h|e2]; [|reflexivity].
  cbn. discriminate.
Qed.

(** [send_format] appends one header and the encoded body. *)
Lemma send_format_writes
      (cat : text) (num : pyval) (msg t : text) (ch : Channel) (b : bytes) :
  isinstance num ty_int = true -> str_num num = Ok t ->
  encode (_enc ch) (cat ++ colon ++ t ++ colon ++ msg) = Ok b ->
  send_format (PyStr cat) num (PyStr msg) ch
  = (feed (header_of (len b) ++ b) ch, Ok tt).
Proof.
  intros Hnum Ht Hb. pose proof (len_nonneg b) as Hn.
  unfold send_format. rewrite Hnum. cbn [isinstance negb].
  unfold bind, get, lift. cbn [str_of]. rewrite Ht, Hb.
  rewrite (ascii_header (len b) Hn).
  generalize (header_of (len b)) as h. intros h.
  unfold io_send, io_flush, modify, feed, FakeSocket.send, FakeSocket.flush.
  cbn. rewrite <- app_assoc. reflexivity.
Qed.

Lemma header_of_cons (n : Z) (b : bytes) :
  header_of n ++ b = BEGIN :: digits n ++ SEPARATOR :: b.
Proof. unfold header_of. cbn [app]. rewrite <- app_assoc. reflexivity. Qed.

(** What [str] returns for an [int] proper. *)
Lemma str_num_int (n : Z) (t : text) :
  str_num (PyInt n) = Ok t -> in_limit n = true /\ t = decimal n.
Proof.
  cbn [str_num]. destruct (in_limit n) eqn:Hl.
  - rewrite (str_int_in_limit n Hl). intros H. injection H as H.
    split; [reflexivity | now symmetry].
  - rewrite (str_int_over_limit n Hl). discriminate.
Qed.

(** X5 (frame layout, whatever the codec; lines 182-185).  For a [str]
    category, a [str] message and an [int] serial for which [str] returns
    the text [t] (for a [bool], which is an [int], [True] or [False]; for an
    [int] proper, which then has at most 4300 digits, its decimal spelling),
    when the channel's codec encodes the text [cat:t:msg] to the bytes [b],
    [send_format] returns having appended to the transport exactly ['@'],
    the length of [b] in decimal digits, [':'] and [b]; nothing else of the
    channel changes. *)
Theorem send_format_layout
        (cat : text) (num : pyval) (msg t : text) (ch : Channel) (b : bytes) :
  isinstance num ty_int = true -> str_num num = Ok t ->
  encode (_enc ch) (cat ++ colon ++ t ++ colon ++ msg) = Ok b ->
  send_format (PyStr cat) num (PyStr msg) ch
  = (feed (BEGIN :: digits (len b) ++ SEPARATOR :: b) ch, Ok tt)
    /\ all_digits (digits (len b)) = true
    /\ value_of (digits (len b)) 0 = len b
    /\ (forall n, num = PyInt n -> in_limit n = true /\ t = decimal n)
    /\ (forall flag, num = PyBool flag ->
          t = if flag then text_of "True" else text_of "False").
Proof.
  intros Hnum Ht Hb. pose proof (len_nonneg b) as Hn.
  destruct (digits_spec (len b) Hn) as (Hd & Hv & _).
  split; [|split; [assumption|split; [assumption|split]]].
  - rewrite <- header_of_cons.
    exact (send_format_writes _ _ _ _ _ _ Hnum Ht Hb).
  - intros n ->. exact (str_num_int n t Ht).
  - intros flag ->. destruct flag; cbn [str_num] in Ht; injection Ht as <-;
      reflexivity.
Qed.

Lemma send_format_layout_witness :
  send_format (PyStr (text_of "OK")) (PyBool true) (PyStr (text_of "done"))
    (Channel_init FakeSocket.init ascii_codec)
  = (feed (bytes_of "@12:OK:True:done")
       (Channel_init FakeSocket.init ascii_codec), Ok tt)
  /\ all_digits (digits 12) = true /\ value_of (digits 12) 0 = 12
  /\ (forall n, PyBool true = PyInt n ->
        in_limit n = true /\ text_of "True" = decimal n)
  /\ (forall flag, PyBool true = PyBool flag ->
        text_of "True" = if flag then text_of "True" else text_of "False").
Proof.
  exact (send_format_layout (text_of "OK") (PyBool true) (text_of "done")
           (text_of "True") (Channel_init FakeSocket.init ascii_codec)
           (bytes_of "OK:True:done") eq_refl eq_refl eq_refl).
Defined.

(** X6 (a serial [str] cannot spell, a body the codec cannot encode; line
    182).  When [str] raises for the serial, as it does with [ValueError]
    for an [int] of more than 4300 digits, or when the channel's codec
    rejects the text [cat:num:msg], [send_format] raises that error and the
    channel, its transport included, is as it was: no header has been
    written for the frame. *)
Theorem send_format_unencodable
        (cat : text) (num : pyval) (msg : text) (ch : Channel) (e : exn) :
  isinstance num ty_int = true ->
  str_num num = Raise e
  \/ (exists t, str_num num = Ok t
               /\ encode (_enc ch) (cat ++ colon ++ t ++ colon ++ msg)
                  = Raise e) ->
  send_format (PyStr cat) num (PyStr msg) ch = (ch, Raise e).
Proof.
  intros Hnum H. unfold send_format. rewrite Hnum. cbn [isinstance negb].
  unfold bind, get, lift. cbn [str_of].
  destruct H as [Hs | (t & Hs & He)].
  - rewrite Hs. reflexivity.
  - rewrite Hs, He. reflexivity.
Qed.

Lemma send_format_unencodable_witness :
  send_format (PyStr (text_of "EVT")) (PyInt 7) (PyStr [233])
    (Channel_init FakeSocket.init ascii_codec)
  = (Channel_init FakeSocket.init ascii_codec,
     Raise (UnicodeError "'ascii' codec can't encode"))
  /\ send_format (PyStr (text_of "EVT")) (PyInt (10 ^ MAX_STR_DIGITS))
       (PyStr (text_of "x")) (Channel_init FakeSocket.init ENCODING)
     = (Channel_init FakeSocket.init ENCODING, Raise exceeds_limit).
Proof.
  split.
  - apply (send_format_unencodable (text_of "EVT") (PyInt 7) [233]
             (Channel_init FakeSocket.init ascii_codec)
             (UnicodeError "'ascii' codec can't encode") eq_refl).
    right. exists (text_of "7"). split; reflexivity.
  - apply (send_format_unencodable (text_of "EVT")
             (PyInt (10 ^ MAX_STR_DIGITS)) (text_of "x")
             (Channel_init FakeSocket.init ENCODING) exceeds_limit eq_refl).
    left. exact (str_int_over_limit _ in_limit_power).
Defined.

(** X7 (a failed auto-numbered send uses up a serial; lines 161-163).  When
    [send_serial] raises, nothing has been written and the channel is as it
    was but for the counter, which has moved up by one; the serial is lost:
    the next [send_serial] that returns, returns the old counter plus two. *)
Theorem send_serial_failure_skips_serial
        (cat msg : pyval) (ch : Channel) (e : exn) :
  snd (send_serial cat msg ch) = Raise e ->
  fst (send_serial cat msg ch) = set_cnt (_cnt ch + 1) ch
  /\ forall cat' msg' n,
       snd (send_serial cat' msg' (fst (send_serial cat msg ch))) = Ok n ->
       n = _cnt ch + 2.
Proof.
  intros H.
  assert (H1 : fst (send_serial cat msg ch) = set_cnt (_cnt ch + 1) ch).
  { revert H. unfold send_serial, bind, modify, get, ret.
    cbn [set_cnt _cnt].
    pose proof (send_format_raises_clean cat (PyInt (_cnt ch + 1)) msg
                  (set_cnt (_cnt ch + 1) ch)) as Hc.
    destruct (send_format cat (PyInt (_cnt ch + 1)) msg
                (set_cnt (_cnt ch + 1) ch)) as [s1 [[]|e1]]; cbn in *.
    - discriminate.
    - intros _. exact (Hc e1 eq_refl). }
  split; [exact H1|].
  intros cat' msg' n Hn. rewrite H1 in Hn.
  destruct (send_serial_cnt cat' msg' (set_cnt (_cnt ch + 1) ch)) as [_ Hs].
  rewrite (Hs n Hn). cbn. lia.
Qed.

Lemma send_serial_failure_skips_serial_witness :
  let ch := Channel_init FakeSocket.init ENCODING in
  fst (send_serial (PyStr (text_of "CMD")) (PyInt 3) ch) = set_cnt (_cnt ch + 1) ch
  /\ forall cat' msg' n,
       snd (send_serial cat' msg'
              (fst (send_serial (PyStr (text_of "CMD")) (PyInt 3) ch))) = Ok n ->
       n = _cnt ch + 2.
Proof.
  intros ch.
  exact (send_serial_failure_skips_serial (PyStr (text_of "CMD")) (PyInt 3) ch
           (TypeError "message must be a string") eq_refl).
Defined.

Lemma only_written_refl (s : Channel) : only_written s s.
Proof.
  unfold only_written. repeat split. exists []. now rewrite app_nil_r.
Qed.

Lemma only_written_trans (s t u : Channel) :
  only_written s t -> only_written t u -> only_written s u.
Proof.
  unfold only_written.
  intros (A1 & A2 & A3 & A4 & A5 & A6 & A7 & w1 & A8)
         (B1 & B2 & B3 & B4 & B5 & B6 & B7 & w2 & B8).
  repeat split; try congruence.
  exists (w1 ++ w2). rewrite B8, A8, app_assoc. reflexivity.
Qed.

Lemma send_format_only_written (cat num msg : pyval) :
  keeps only_written (send_format cat num msg).
Proof.
  unfold send_format, io_send, io_flush.
  repeat first
    [ apply (keeps_ret only_written only_written_refl)
    | apply (keeps_raise only_written only_written_refl)
    | apply (keeps_lift only_written only_written_refl)
    | apply (keeps_get only_written only_written_refl)
    | apply (keeps_bind only_written only_written_trans); [ | intros ? ]
    | match goal with
      | |- keeps _ (if ?x then _ else _) => destruct x
      end ].
  - apply keeps_modify. intros s. unfold only_written. cbn.
    repeat split. eexists. reflexivity.
  - apply keeps_modify. intros s. unfold only_written. cbn.
    repeat split. eexists. reflexivity.
Qed.

(** X8 (sending leaves the receiving side alone).  [send_format],
    [send_result] and [send_error] change nothing of the channel but the
    transport, to which they only append: the receive buffer, the cursor, the
    pending size, the queue of jobs, the codec, the callback and the counter
    are as they were, and bytes already on the transport stay first.
    [send_serial], [send_command] and [send_event] do the same on the channel
    with its counter moved up by one. *)
Theorem sends_only_write (cat num msg : pyval) (ch : Channel) :
  only_written ch (fst (send_format cat num msg ch))
  /\ only_written ch (fst (send_result num msg ch))
  /\ only_written ch (fst (send_error num msg ch))
  /\ only_written (set_cnt (_cnt ch + 1) ch) (fst (send_serial cat msg ch))
  /\ only_written (set_cnt (_cnt ch + 1) ch) (fst (send_command msg ch))
  /\ only_written (set_cnt (_cnt ch + 1) ch) (fst (send_event msg ch)).
Proof.
  assert (Hs : forall c, only_written (set_cnt (_cnt ch + 1) ch)
                           (fst (send_serial c msg ch))).
  { intros c. unfold send_serial, bind, modify, get, ret. cbn [set_cnt _cnt].
    pose proof (send_format_only_written c (PyInt (_cnt ch + 1)) msg
                  (set_cnt (_cnt ch + 1) ch)) as H.
    destruct (send_format c (PyInt (_cnt ch + 1)) msg
                (set_cnt (_cnt ch + 1) ch)) as [s1 [[]|e1]]; exact H. }
  split; [apply send_format_only_written|].
  split; [apply (send_format_only_written (PyStr (text_of "OK")) num msg ch)|].
  split; [apply (send_format_only_written (PyStr (text_of "ERR")) num msg ch)|].
  split; [apply Hs|]. split; apply Hs.
Qed.

(** ** The decoder: headers and bodies *)

Lemma skipn_cons_bound {A : Type} (l : list A) (off : Z) (x : A) (r : list A) :
  0 <= off -> skipn (Z.to_nat off) l = x :: r -> 0 <= off < len l.
Proof.
  intros H0 H. split; [exact H0|].
  destruct (Z.lt_ge_cases off (len l)) as [Hlt|Hge]; [exact Hlt|].
  rewrite skipn_all2 in H by (unfold len in Hge; lia). discriminate.
Qed.

Lemma len_digits_pos (ds : bytes) : ds <> [] -> 0 < len ds.
Proof.
  destruct ds as [|d ds]; [congruence|]. intros _. rewrite len_cons.
  pose proof (len_nonneg ds). lia.
Qed.

(** What follows a well-formed header is read as the body it announces. *)
Lemma scan_rest_header (ds rest : bytes) :
  all_digits ds = true -> ds <> [] ->
  scan_rest (ds ++ SEPARATOR :: rest) 0 0 = ScanBreak (len ds) (value_of ds 0).
Proof.
  intros Hd Hne. pose proof (len_digits_pos ds Hne) as Hk.
  rewrite scan_rest_digits by exact Hd. cbn [scan_rest].
  change ((ZERO <=? SEPARATOR) && (SEPARATOR <=? NINE)) with false.
  change (SEPARATOR =? SEPARATOR) with true. cbv iota.
  replace (0 + len ds <=? 0) with false by lia.
  rewrite Z.add_0_l. reflexivity.
Qed.

Lemma see_header (enc : Codec) (siz : Z) (ds rest : bytes) :
  siz < 0 -> all_digits ds = true -> ds <> [] ->
  see enc siz (BEGIN :: ds ++ SEPARATOR :: rest)
  = see_body enc (len ds + 2) (value_of ds 0) rest.
Proof.
  intros Hs Hd Hne. unfold see. replace (siz <? 0) with true by lia.
  change (negb (BEGIN =? BEGIN)) with false. cbv iota.
  rewrite (scan_rest_header ds rest Hd Hne).
  rewrite skipn_succ_len_app. reflexivity.
Qed.

Lemma value_of_nonneg (ds : bytes) :
  forall acc, all_digits ds = true -> 0 <= acc -> 0 <= value_of ds acc.
Proof.
  induction ds as [|d ds IH]; intros acc Hd Ha; [exact Ha|].
  cbn in Hd. apply andb_prop in Hd. destruct Hd as [Hd1 Hd2].
  cbn. apply IH; [exact Hd2|]. unfold is_digit in Hd1. zlia.
Qed.

(** X9 (the header is read back; lines 218-230).  With the cursor on the
    header the encoder writes for a body of [n] bytes, that is ['@'], [n] in
    decimal digits and [':'], the header scan returns normally, with the
    pending size set to [n] and the cursor moved just past the [':']. *)
Theorem parse_header_reads_size (s : Channel) (n : Z) (rest : bytes) :
  0 <= n -> 0 <= _off s ->
  skipn (Z.to_nat (_off s)) (_buf s) = header_of n ++ rest ->
  parse_header (len (_buf s)) s
  = (set_siz n (set_off (_off s + len (header_of n)) s), Ok tt).
Proof.
  intros Hn Ho Hsk. destruct (digits_spec n Hn) as (Hd & Hv & Hne).
  unfold header_of in *. cbn [app] in Hsk. rewrite <- app_assoc in Hsk.
  cbn [app] in Hsk.
  pose proof (skipn_cons_bound _ _ _ _ Ho Hsk) as Hb.
  unfold parse_header, bind, get.
  rewrite getitem_skipn by lia. rewrite Hsk. cbn [hd_error].
  change (negb (BEGIN =? BEGIN)) with false. cbv iota.
  rewrite scan_header_rest by lia.
  rewrite skipn_succ by lia. rewrite Hsk. cbn [skipn].
  rewrite Z.sub_diag. rewrite (scan_rest_header _ rest Hd Hne). rewrite Hv.
  unfold modify. cbn. do 3 f_equal.
  rewrite len_cons, len_app, len_cons, len_nil. lia.
Qed.

Lemma parse_header_reads_size_witness :
  parse_header (len (bytes_of "@11:EVT:1:hello"))
    (set_buf (bytes_of "@11:EVT:1:hello") (Channel_init FakeSocket.init ENCODING))
  = (set_siz 11
       (set_off 4 (set_buf (bytes_of "@11:EVT:1:hello")
                     (Channel_init FakeSocket.init ENCODING))), Ok tt).
Proof.
  exact (parse_header_reads_size
           (set_buf (bytes_of "@11:EVT:1:hello")
              (Channel_init FakeSocket.init ENCODING))
           11 (bytes_of "EVT:1:hello") ltac:(lia) ltac:(cbn; lia) eq_refl).
Defined.

(** X10 (a stray byte in the header; lines 231-232).  The loop is entered
    awaiting a header with ['@'] at the cursor, then digits, none or more,
    then a byte that is neither a digit nor [':']: it raises "Expecting
    digits or separator", whatever follows, the instance untouched. *)
Theorem header_rejects_stray_byte
        (self : Channel) (ds : bytes) (b : Z) (rest : bytes)
        (fuel : nat) (consumed : Z) :
  _siz self < 0 -> 0 <= _off self ->
  skipn (Z.to_nat (_off self)) (_buf self) = BEGIN :: ds ++ b :: rest ->
  all_digits ds = true -> is_digit b = false -> b <> SEPARATOR ->
  process (S fuel) (len (_buf self)) consumed self
  = Some (self, Raise (BadMessage "Expecting digits or separator")).
Proof.
  intros Hs Ho Hsk Hd Hb Hc.
  pose proof (skipn_cons_bound _ _ _ _ Ho Hsk) as Hbd.
  cbn [process]. rewrite iteration_see by (unfold inv; lia).
  rewrite Hsk. unfold see. replace (_siz self <? 0) with true by lia.
  change (negb (BEGIN =? BEGIN)) with false. cbv iota.
  rewrite scan_rest_digits by exact Hd. cbn [scan_rest].
  unfold is_digit in Hb. rewrite Hb.
  replace (b =? SEPARATOR) with false by lia.
  cbn [outcome]. rewrite Z.add_0_r. reflexivity.
Qed.

Lemma header_rejects_stray_byte_witness :
  process 1 (len (bytes_of "@12x")) 0
    (set_buf (bytes_of "@12x") (Channel_init FakeSocket.init ENCODING))
  = Some (set_buf (bytes_of "@12x") (Channel_init FakeSocket.init ENCODING),
          Raise (BadMessage "Expecting digits or separator")).
Proof.
  exact (header_rejects_stray_byte
           (set_buf (bytes_of "@12x") (Channel_init FakeSocket.init ENCODING))
           (bytes_of "12") 120 [] 0 0
           ltac:(cbn; lia) ltac:(cbn; lia) eq_refl eq_refl eq_refl
           ltac:(discriminate)).
Defined.

(** X11 (a frame of size zero; lines 242-258).  A header that announces a
    body of no byte at all, ["@0:"] or any number of zeros, is read as a
    complete frame whose text is empty, which is then refused: the loop raises
    "Expecting CAT:NUM:MSG" with the cursor past the header, no size pending
    and no job queued. *)
Theorem empty_frame_rejected
        (self : Channel) (ds rest : bytes) (fuel : nat) (consumed : Z) :
  _siz self < 0 -> 0 <= _off self ->
  skipn (Z.to_nat (_off self)) (_buf self) = BEGIN :: ds ++ SEPARATOR :: rest ->
  all_digits ds = true -> ds <> [] -> value_of ds 0 = 0 ->
  process (S fuel) (len (_buf self)) consumed self
  = Some (set_siz (-1) (set_off (_off self + (len ds + 2)) self),
          Raise (BadMessage "Expecting CAT:NUM:MSG")).
Proof.
  intros Hs Ho Hsk Hd Hne Hz.
  pose proof (skipn_cons_bound _ _ _ _ Ho Hsk) as Hbd.
  cbn [process]. rewrite iteration_see by (unfold inv; lia).
  rewrite Hsk, (see_header _ _ ds rest Hs Hd Hne), Hz.
  unfold see_body. pose proof (len_nonneg rest).
  replace (len rest <? 0) with false by lia.
  change (0 >? 0) with false. cbv iota.
  change (parse_message []) with
    (@Raise job (BadMessage "Expecting CAT:NUM:MSG")).
  cbn [outcome]. rewrite Z.add_0_r. reflexivity.
Qed.

Lemma empty_frame_rejected_witness :
  process 1 (len (bytes_of "@00:@8:EVT:1:hi")) 0
    (set_buf (bytes_of "@00:@8:EVT:1:hi") (Channel_init FakeSocket.init ENCODING))
  = Some (set_siz (-1)
            (set_off (0 + (2 + 2))
               (set_buf (bytes_of "@00:@8:EVT:1:hi")
                  (Channel_init FakeSocket.init ENCODING))),
          Raise (BadMessage "Expecting CAT:NUM:MSG")).
Proof.
  exact (empty_frame_rejected
           (set_buf (bytes_of "@00:@8:EVT:1:hi")
              (Channel_init FakeSocket.init ENCODING))
           (bytes_of "00") (bytes_of "@8:EVT:1:hi") 0 0
           ltac:(cbn; lia) ltac:(cbn; lia) eq_refl eq_refl
           ltac:(discriminate) eq_refl).
Defined.

(** X12 (a body the codec cannot decode; lines 243-244 come before 250-251).
    With a complete frame at the cursor whose body the channel's codec
    rejects, the loop raises the codec's error with the cursor on the first
    byte of the body and the size of the body still pending, and nothing
    queued.  The decoder is stuck there: entered again, with whatever bytes
    added to the buffer, the loop raises the same error and leaves the
    instance as it found it. *)
Theorem undecodable_body_sticks
        (self : Channel) (ds body rest : bytes) (e : exn)
        (fuel : nat) (consumed : Z) :
  _siz self < 0 -> 0 <= _off self ->
  skipn (Z.to_nat (_off self)) (_buf self)
  = BEGIN :: ds ++ SEPARATOR :: body ++ rest ->
  all_digits ds = true -> ds <> [] -> value_of ds 0 = len body ->
  body <> [] -> decode (_enc self) body = Raise e ->
  let stuck := set_siz (len body) (set_off (_off self + (len ds + 2)) self) in
  process (S fuel) (len (_buf self)) consumed self = Some (stuck, Raise e)
  /\ forall more fuel' consumed',
       process (S fuel') (len (_buf stuck ++ more)) consumed' (ext more stuck)
       = Some (ext more stuck, Raise e).
Proof.
  intros Hs Ho Hsk Hd Hne Hv Hbne He stuck.
  pose proof (skipn_cons_bound _ _ _ _ Ho Hsk) as Hbd.
  pose proof (len_digits_pos body Hbne) as Hbp.
  pose proof (len_digits_pos ds Hne) as Hdp.
  assert (Hsee : forall more,
             see_body (_enc self) (len ds + 2) (len body) ((body ++ rest) ++ more)
             = SeenRaise (len ds + 2) (len body) e).
  { intros more. unfold see_body. rewrite !len_app.
    pose proof (len_nonneg rest). pose proof (len_nonneg more).
    replace (len body + len rest + len more <? len body) with false by lia.
    replace (len body >? 0) with true by lia.
    rewrite <- app_assoc, firstn_len_app, He. reflexivity. }
  assert (Hlen : len (_buf self)
                 = _off self + (len ds + 2) + len body + len rest).
  { rewrite <- (firstn_skipn (Z.to_nat (_off self)) (_buf self)) at 1.
    rewrite len_app, len_firstn by lia. rewrite Hsk.
    rewrite len_cons, len_app, len_cons, len_app. lia. }
  split.
  - cbn [process]. rewrite iteration_see by (unfold inv; lia).
    rewrite Hsk, (see_header _ _ ds (body ++ rest) Hs Hd Hne), Hv.
    specialize (Hsee []). rewrite app_nil_r in Hsee. rewrite Hsee.
    reflexivity.
  - intros more fuel' consumed'.
    assert (Hi : inv (ext more stuck)).
    { unfold inv, ext, stuck. cbn. rewrite len_app.
      pose proof (len_nonneg more). pose proof (len_nonneg rest). lia. }
    cbn [process]. change (_buf stuck ++ more) with (_buf (ext more stuck)).
    rewrite iteration_see by exact Hi.
    assert (Hsk2 : skipn (Z.to_nat (_off (ext more stuck))) (_buf (ext more stuck))
                   = (body ++ rest) ++ more).
    { unfold ext, stuck. cbn.
      rewrite skipn_app_le by (pose proof (len_nonneg rest); unfold len in *; lia).
      f_equal.
      replace (Z.to_nat (_off self + (len ds + 2)))
        with (Z.to_nat (len ds + 2) + Z.to_nat (_off self))%nat by lia.
      rewrite <- skipn_skipn, Hsk.
      replace (Z.to_nat (len ds + 2)) with (S (Z.to_nat (len ds + 1))) by lia.
      cbn [skipn]. rewrite skipn_succ_len_app. reflexivity. }
    rewrite Hsk2. unfold see.
    change (_siz (ext more stuck)) with (len body).
    replace (len body <? 0) with false by lia.
    change (_enc (ext more stuck)) with (_enc self).
    unfold see_body. rewrite !len_app.
    pose proof (len_nonneg rest). pose proof (len_nonneg more).
    replace (len body + len rest + len more <? len body) with false by lia.
    replace (len body >? 0) with true by lia.
    rewrite <- app_assoc, firstn_len_app, He.
    cbn [outcome]. rewrite Z.add_0_r. reflexivity.
Qed.

Lemma undecodable_body_sticks_witness :
  let self := set_buf [64; 49; 58; 255; 64]
                (Channel_init FakeSocket.init ENCODING) in
  let stuck := set_siz 1 (set_off (0 + (1 + 2)) self) in
  process 1 (len (_buf self)) 0 self
  = Some (stuck, Raise (UnicodeError "'utf-8' codec can't decode"))
  /\ forall more fuel' consumed',
       process (S fuel') (len (_buf stuck ++ more)) consumed' (ext more stuck)
       = Some (ext more stuck, Raise (UnicodeError "'utf-8' codec can't decode")).
Proof.
  intros self.
  exact (undecodable_body_sticks self [49] [255] [64]
           (UnicodeError "'utf-8' codec can't decode") 0 0
           ltac:(cbn; lia) ltac:(cbn; lia) eq_refl eq_refl
           ltac:(discriminate) eq_refl ltac:(discriminate) eq_refl).
Defined.

(** ** Round trips, whatever the codec *)

(** A frame at the cursor, as one turn of the loop reads it: the header by
    its digits, the body by the codec, the text by [parse_message]. *)
Lemma framed_see (enc : Codec) (ds body post : bytes) :
  all_digits ds = true -> ds <> [] -> value_of ds 0 = len body -> body <> [] ->
  see enc (-1) (BEGIN :: ds ++ SEPARATOR :: body ++ post)
  = match decode enc body with
    | Raise e => SeenRaise (len ds + 2) (len body) e
    | Ok msg =>
        match parse_message msg with
        | Raise e => SeenRaise (len ds + 2 + len body) (-1) e
        | Ok j => SeenNext (len ds + 2 + len body) j
        end
    end.
Proof.
  intros Hd Hne Hv Hb. pose proof (len_digits_pos body Hb) as Hbp.
  rewrite (see_header enc (-1) ds (body ++ post) ltac:(lia) Hd Hne), Hv.
  unfold see_body. rewrite len_app. pose proof (len_nonneg post).
  replace (len body + len post <? len body) with false by lia.
  replace (len body >? 0) with true by lia.
  rewrite firstn_len_app. reflexivity.
Qed.

(** The frame [send_format] writes for a body the codec can read back. *)
Lemma written_frame_see (enc : Codec) (b post : bytes) (msg : text) :
  b <> [] -> decode enc b = Ok msg ->
  see enc (-1) ((header_of (len b) ++ b) ++ post)
  = match parse_message msg with
    | Raise e => SeenRaise (len (header_of (len b) ++ b)) (-1) e
    | Ok j => SeenNext (len (header_of (len b) ++ b)) j
    end.
Proof.
  intros Hb Hdec. pose proof (len_nonneg b) as Hn.
  destruct (digits_spec (len b) Hn) as (Hd & Hv & Hne).
  rewrite header_of_cons. cbn [app]. rewrite <- !app_assoc. cbn [app].
  rewrite (framed_see enc (digits (len b)) b post Hd Hne Hv Hb), Hdec.
  replace (len (BEGIN :: digits (len b) ++ SEPARATOR :: b))
    with (len (digits (len b)) + 2 + len b)
    by (rewrite len_cons, len_app, len_cons; lia).
  reflexivity.
Qed.

Lemma written_frame_complete (enc : Codec) (b : bytes) (msg : text) (j : job) :
  b <> [] -> decode enc b = Ok msg -> parse_message msg = Ok j ->
  complete_frame enc (header_of (len b) ++ b) j.
Proof.
  intros Hb Hdec Hp. unfold complete_frame.
  set (f := header_of (len b) ++ b).
  set (s0 := set_buf f (Channel_init FakeSocket.init enc)).
  assert (Hi : inv s0)
    by (unfold inv; change (0 <= 0 <= len f); pose proof (len_nonneg f); lia).
  pose proof (iteration_see s0 Hi) as Hsee.
  change (len (_buf s0)) with (len f) in Hsee. rewrite Hsee.
  change (_enc s0) with enc. change (_siz s0) with (-1).
  change (skipn (Z.to_nat (_off s0)) (_buf s0)) with f.
  rewrite <- (app_nil_r f) at 1. unfold f at 1.
  rewrite (written_frame_see enc b [] msg Hb Hdec), Hp.
  cbn [outcome]. change (_off s0) with 0. rewrite Z.add_0_l. reflexivity.
Qed.

(** X13 (round trip, whatever the codec).  On a decoder at rest, for a
    category without [':'], an integer serial of at most 4300 digits, which
    [str] spells and [int] reads back, and a payload, if the channel's
    codec encodes the text [cat:num:msg] to bytes, at least one, that it
    decodes back to the same text, then [send_format] returns and the receive
    trigger that follows returns with exactly one job more in the queue, the
    triple sent, and nothing else changed. *)
Theorem codec_round_trip
        (ch : Channel) (cat : text) (num : Z) (msg : text) (b : bytes) :
  at_rest ch -> no_colon cat = true -> in_limit num = true ->
  encode (_enc ch) (cat ++ colon ++ decimal num ++ colon ++ msg) = Ok b ->
  b <> [] ->
  decode (_enc ch) b = Ok (cat ++ colon ++ decimal num ++ colon ++ msg) ->
  exists ch1,
    send_format (PyStr cat) (PyInt num) (PyStr msg) ch = (ch1, Ok tt)
    /\ _receive ch1 = Some (set_jobs (_jobs ch ++ [(cat, num, msg)]) ch, Ok tt).
Proof.
  intros Hrest Hc Hl Henc Hb Hdec.
  exists (feed (header_of (len b) ++ b) ch). split.
  - exact (send_format_writes cat (PyInt num) msg (decimal num) ch b eq_refl
             (str_int_in_limit num Hl) Henc).
  - assert (Hcf : complete_frame (_enc ch) (header_of (len b) ++ b)
                    (cat, num, msg)).
    { apply (written_frame_complete _ b _ _ Hb Hdec).
      exact (parse_message_body (cat, num, msg) Hc Hl). }
    assert (Hall : all_complete (_enc ch)
                     [(header_of (len b) ++ b, (cat, num, msg))])
      by (apply Forall_cons; [exact Hcf | apply Forall_nil]).
    pose proof (trigger_stream _ ch Hrest Hall) as Ht.
    unfold trigger, stream in Ht. cbn [map fst List.concat] in Ht.
    rewrite app_nil_r in Ht. exact Ht.
Qed.

Lemma codec_round_trip_witness :
  let ch := fst (set_encoding (Some ascii_codec)
                   (Channel_init FakeSocket.init ENCODING)) in
  exists ch1,
    send_format (PyStr (text_of "EVT")) (PyInt (-4)) (PyStr (text_of "a:b")) ch
    = (ch1, Ok tt)
    /\ _receive ch1
       = Some (set_jobs (_jobs ch ++ [(text_of "EVT", -4, text_of "a:b")]) ch,
               Ok tt).
Proof.
  intros ch.
  exact (codec_round_trip ch (text_of "EVT") (-4) (text_of "a:b")
           (bytes_of "EVT:-4:a:b")
           ltac:(repeat split) eq_refl eq_refl eq_refl ltac:(discriminate)
           eq_refl).
Defined.



(** ** Receive triggers *)

Lemma see_break_pending (enc : Codec) (siz : Z) (rest : bytes) (d sz : Z) :
  see enc siz rest = SeenBreak d sz -> sz < 0 -> d = 0 /\ siz < 0.
Proof.
  unfold see. intros H Hsz. destruct (siz <? 0) eqn:Hs.
  - destruct rest as [|byte rest'].
    + inversion H; subst. lia.
    + destruct (negb (byte =? BEGIN)); [discriminate|].
      destruct (scan_rest rest' 0 0) as [k size| |e] eqn:Hsc.
      * destruct (scan_rest_size rest' 0 0 k size ltac:(lia) Hsc) as (Hp & _).
        pose proof (see_body_ext enc (k + 2) size
                      (skipn (Z.to_nat (k + 1)) rest') []) as He.
        rewrite H in He. lia.
      * inversion H; subst. lia.
      * discriminate.
  - pose proof (see_body_ext enc 0 siz rest []) as He.
    rewrite H in He. lia.
Qed.

(** When the loop is left by [break], a decoder that awaits a header has its
    cursor on [consumed]. *)
Lemma Process_tidy (b : Z) :
  forall c s s' r,
    Process b c s s' r -> b = len (_buf s) -> inv s ->
    (_siz s < 0 -> _off s = c) ->
    match r with
    | Ok k => _siz s' < 0 -> _off s' = k
    | Raise _ => True
    end.
Proof.
  intros c s s' r H.
  induction H as [c s s' e Hit | c s s' Hit | c c' s s1 s' r Hit Hp IH];
    intros Hb Hi Ht.
  - exact I.
  - subst b. rewrite iteration_see in Hit by exact Hi.
    destruct (see _ _ _) as [d sz e|d sz|d j] eqn:Hsee;
      cbn [outcome] in Hit; inversion Hit; subst.
    cbn. intros Hsz.
    destruct (see_break_pending _ _ _ _ _ Hsee Hsz) as (Hd & Hs).
    rewrite <- (Ht Hs). lia.
  - subst b.
    destruct (iteration_buf _ _ _ Hi Hit) as (Hbuf & _ & _ & _ & _ & Hi1 & _).
    destruct (iteration_next _ _ _ Hi Hit) as (_ & Hc & _).
    apply IH; [now rewrite Hbuf | exact Hi1 | intros _; now symmetry].
Qed.

(** X15 (the documented state of the decoder; comment at lines 40-43, the
    cut at 266-270).  A decoder whose cursor is within its buffer, and at the
    start of it whenever no size is pending, is so again after every receive
    trigger that returns; the transport has then been read to the end.  A new
    channel is such a decoder. *)
Theorem receive_keeps_tidy (ch ch' : Channel) :
  tidy ch -> _receive ch = Some (ch', Ok tt) ->
  tidy ch' /\ FakeSocket._buf (_io ch') = []
  /\ forall io enc, tidy (Channel_init io enc).
Proof.
  intros (Hi & Ht) Hr.
  assert (Hnew : forall io enc, tidy (Channel_init io enc))
    by (intros io enc; change (0 <= 0 <= 0 /\ (-1 < 0 -> 0 = 0)); lia).
  pose proof (inv_collected ch Hi) as Hic.
  destruct (Process_total 0 (collected ch) Hic) as (s2 & r & Hp).
  rewrite (_receive_Process ch s2 r Hic Hp) in Hr.
  destruct r as [k|e]; [|discriminate].
  inversion Hr; subst ch'.
  destruct (Process_inv _ _ _ _ _ Hp eq_refl Hic ltac:(unfold inv in Hic; lia))
    as (_ & Hio & _ & _ & _ & Hi2 & Hk).
  pose proof (Process_tidy _ _ _ _ _ Hp eq_refl Hic Ht) as Ht2.
  cbn in Ht2.
  split; [|split; [|exact Hnew]].
  - split.
    + apply (inv_compact k s2 Hi2). unfold inv in Hi2. lia.
    + unfold compact. cbn. intros Hs. rewrite (Ht2 Hs). lia.
  - unfold compact. cbn. rewrite Hio. reflexivity.
Qed.

Lemma receive_keeps_tidy_witness :
  let ch := feed (bytes_of "@8:EVT:1:hi@4:CM")
              (Channel_init FakeSocket.init ENCODING) in
  let ch' := set_jobs [(text_of "EVT", 1, text_of "hi")]
               (set_siz 4 (set_off 3 (set_buf (bytes_of "@4:CM")
                  (Channel_init FakeSocket.init ENCODING)))) in
  tidy ch' /\ FakeSocket._buf (_io ch') = []
  /\ forall io enc, tidy (Channel_init io enc).
Proof.
  intros ch ch'.
  apply (receive_keeps_tidy ch ch');
    [change (0 <= 0 <= 0 /\ (-1 < 0 -> 0 = 0)); lia | reflexivity].
Defined.

(** X16 ([_receive] comes to an end).  On a channel whose cursor is within
    its buffer, both loops of [_receive] are left after finitely many turns,
    whatever bytes the buffer and the transport hold: [_receive] returns or
    raises, and the cursor is within the buffer afterwards, so that the next
    trigger comes to an end as well. *)
Theorem receive_terminates (ch : Channel) :
  0 <= _off ch <= len (_buf ch) ->
  exists ch' r,
    _receive ch = Some (ch', r) /\ 0 <= _off ch' <= len (_buf ch').
Proof.
  intros Hi. pose proof (inv_collected ch Hi) as Hic.
  destruct (Process_total 0 (collected ch) Hic) as (s2 & r & Hp).
  rewrite (_receive_Process ch s2 r Hic Hp).
  destruct (Process_inv _ _ _ _ _ Hp eq_refl Hic ltac:(unfold inv in Hic; lia))
    as (_ & _ & _ & _ & _ & Hi2 & Hk).
  destruct r as [k|e]; eexists; eexists; (split; [reflexivity|]).
  - apply (inv_compact k s2 Hi2). unfold inv in Hi2. lia.
  - exact Hi2.
Qed.

Lemma receive_terminates_witness :
  exists ch' r,
    _receive (feed [64; 49; 58; 255; 64; 120]
                (Channel_init FakeSocket.init ENCODING)) = Some (ch', r)
    /\ 0 <= _off ch' <= len (_buf ch').
Proof.
  apply (receive_terminates
           (feed [64; 49; 58; 255; 64; 120]
              (Channel_init FakeSocket.init ENCODING))).
  change (0 <= 0 <= 0). lia.
Defined.

(** X17 (a trigger with nothing new changes nothing).  After a receive
    trigger that returned, a second trigger with no new byte on the transport
    returns too and leaves the channel exactly as it is: no job is queued
    twice, nothing buffered is lost. *)
Theorem receive_idle (ch ch1 : Channel) :
  0 <= _off ch <= len (_buf ch) ->
  _receive ch = Some (ch1, Ok tt) ->
  _receive ch1 = Some (ch1, Ok tt).
Proof.
  intros Hi Hr.
  assert (Ht : trigger ([] ++ []) ch = Some (ch1, Ok tt))
    by (unfold trigger; cbn [app]; rewrite feed_nil; exact Hr).
  destruct (trigger_split [] [] ch ch1 Hi Ht) as (ch2 & H1 & _ & H2).
  unfold trigger in H1, H2. rewrite feed_nil in H1, H2.
  rewrite Hr in H1. inversion H1; subst ch2. exact H2.
Qed.

Lemma receive_idle_witness :
  let ch1 := set_jobs [(text_of "EVT", 1, text_of "hi")]
               (set_siz 4 (set_off 3 (set_buf (bytes_of "@4:CM")
                  (Channel_init FakeSocket.init ENCODING)))) in
  _receive ch1 = Some (ch1, Ok tt).
Proof.
  intros ch1.
  apply (receive_idle
           (feed (bytes_of "@8:EVT:1:hi@4:CM")
              (Channel_init FakeSocket.init ENCODING)) ch1);
    [change (0 <= 0 <= 0); lia | reflexivity].
Defined.

(** X18 (part of a frame waits for the rest).  On a decoder at rest, a
    trigger on the first bytes [p] of a complete frame, some of its bytes
    still missing, returns without an exception and without queueing
    anything, the bytes received kept in the buffer; the trigger on the
    missing bytes [q] then queues the message, and the channel is as after one
    trigger on the whole frame. *)
Theorem frame_prefix_waits (ch : Channel) (p q : bytes) (j : job) :
  at_rest ch -> complete_frame (_enc ch) (p ++ q) j -> q <> [] ->
  exists ch1,
    trigger p ch = Some (ch1, Ok tt)
    /\ _jobs ch1 = _jobs ch /\ _buf ch1 = p
    /\ trigger q ch1 = Some (set_jobs (_jobs ch ++ [j]) ch, Ok tt).
Proof.
  intros Hrest Hcf Hq. pose proof (at_rest_inv ch Hrest) as Hi.
  destruct Hrest as (Hbuf & Hoff & Hsiz & Hsock).
  assert (Hall : all_complete (_enc ch) [(p ++ q, j)])
    by (apply Forall_cons; [exact Hcf | apply Forall_nil]).
  pose proof (trigger_stream _ ch (conj Hbuf (conj Hoff (conj Hsiz Hsock))) Hall)
    as Hwhole.
  unfold stream in Hwhole. cbn [map fst snd carried List.concat] in Hwhole.
  rewrite app_nil_r in Hwhole.
  destruct (trigger_split p q ch _ Hi Hwhole) as (ch1 & H1 & _ & H2).
  exists ch1. split; [exact H1|].
  assert (Hfirst : _jobs ch1 = _jobs ch /\ _buf ch1 = p);
    [|destruct Hfirst; repeat split; assumption].
  set (s1 := collected (feed p ch)).
  assert (Hb1 : _buf s1 = p)
    by (unfold s1; rewrite collected_feed; cbn; now rewrite Hbuf, Hsock).
  assert (Hi1 : inv s1)
    by (unfold inv; rewrite Hb1; change (_off s1) with (_off ch);
        rewrite Hoff; pose proof (len_nonneg p); lia).
  pose proof (iteration_see s1 Hi1) as Hit.
  assert (Hview : see (_enc s1) (_siz s1) (skipn (Z.to_nat (_off s1)) (_buf s1))
                  = see (_enc ch) (-1) p).
  { change (_enc s1) with (_enc ch). change (_siz s1) with (_siz ch).
    change (_off s1) with (_off ch). rewrite Hsiz, Hoff, Hb1. reflexivity. }
  rewrite Hview in Hit. clear Hview.
  pose proof (see_ext (_enc ch) (-1) p q) as Hext.
  pose proof (complete_frame_see _ _ _ [] Hcf) as Hfull.
  rewrite app_nil_r in Hfull.
  pose proof (see_bounds (_enc ch) (-1) p) as Hbd.
  pose proof (len_digits_pos q Hq) as Hqp.
  destruct (see (_enc ch) (-1) p) as [d sz e|d sz|d j'] eqn:Hsee.
  - rewrite Hfull in Hext. discriminate.
  - cbn [outcome] in Hit.
    pose proof (Process_break (len (_buf s1)) 0 s1 _ Hit) as Hp.
    pose proof (_receive_Process (feed p ch) _ _ Hi1 Hp) as Hr.
    cbv beta iota in Hr. rewrite compact_zero in Hr.
    unfold trigger in H1. rewrite Hr in H1. injection H1 as H1.
    rewrite <- H1. split; [reflexivity | exact Hb1].
  - rewrite Hfull in Hext. injection Hext as Hd _. cbn [seen_d] in Hbd.
    rewrite len_app in Hd. lia.
Qed.

Lemma frame_prefix_waits_witness :
  let ch := Channel_init FakeSocket.init ENCODING in
  exists ch1,
    trigger (bytes_of "@8:EVT") ch = Some (ch1, Ok tt)
    /\ _jobs ch1 = _jobs ch /\ _buf ch1 = bytes_of "@8:EVT"
    /\ trigger (bytes_of ":1:hi") ch1
       = Some (set_jobs (_jobs ch ++ [(text_of "EVT", 1, text_of "hi")]) ch,
               Ok tt).
Proof.
  intros ch.
  apply (frame_prefix_waits ch (bytes_of "@8:EVT") (bytes_of ":1:hi")
           (text_of "EVT", 1, text_of "hi"));
    [repeat split | reflexivity | discriminate].
Defined.

(** ** After an error *)

(** X19 (a framing error is for good; lines 218-219, and no line that moves
    the cursor on error).  Let the decoder await a header with a byte other
    than ['@'] at its cursor.  Whatever bytes arrive, the next receive trigger
    fails: the body of its [try] raises "Missing begin message marker", the
    trigger as a whole the [AttributeError] of the handler; nothing is
    queued, and the bytes read are appended to a buffer whose cursor is still
    on that same byte, so that every later trigger fails in the same way: the
    decoder never looks for the next frame. *)
Theorem bad_marker_sticks (ch : Channel) (b : Z) (chunk : bytes) :
  0 <= _off ch -> _siz ch < 0 ->
  getitem (_buf ch) (_off ch) = Some b -> b <> BEGIN ->
  let ch' := set_buf (_buf ch ++ FakeSocket._buf (_io ch) ++ chunk)
               (set_io FakeSocket.init ch) in
  receive_try (feed chunk ch)
  = Some (ch', Raise (BadMessage "Missing begin message marker"))
  /\ trigger chunk ch
     = Some (ch', Raise (AttributeError
                           "'Channel' object has no attribute 'disconnect'"))
  /\ (0 <= _off ch' /\ _siz ch' < 0
      /\ getitem (_buf ch') (_off ch') = Some b).
Proof.
  intros Ho Hs Hg Hb ch'.
  assert (Hlt : _off ch < len (_buf ch)).
  { unfold getitem in Hg. cbv zeta in Hg.
    replace (_off ch <? 0) with false in Hg by lia.
    destruct ((0 <=? _off ch) && (_off ch <? len (_buf ch))) eqn:E;
      [|discriminate].
    apply andb_prop in E. lia. }
  assert (Hsk : exists r, skipn (Z.to_nat (_off ch)) (_buf ch) = b :: r).
  { rewrite getitem_skipn in Hg by lia.
    destruct (skipn (Z.to_nat (_off ch)) (_buf ch)) as [|x r];
      [discriminate|]. injection Hg as ->. now exists r. }
  destruct Hsk as (r & Hsk).
  assert (Hc : collected (feed chunk ch) = ch') by apply collected_feed.
  assert (Hsk' : skipn (Z.to_nat (_off ch')) (_buf ch')
                 = b :: r ++ FakeSocket._buf (_io ch) ++ chunk).
  { unfold ch'. cbn [_off _buf set_buf set_io].
    rewrite skipn_app_le by (unfold len in Hlt; lia). rewrite Hsk.
    reflexivity. }
  assert (Hi : inv ch').
  { unfold inv, ch'. cbn [_off _buf set_buf set_io]. rewrite len_app.
    pose proof (len_nonneg (FakeSocket._buf (_io ch) ++ chunk)). lia. }
  assert (Hit : iteration (len (_buf ch')) ch'
                = (ch', Raise (BadMessage "Missing begin message marker"))).
  { rewrite iteration_see by exact Hi. rewrite Hsk'. unfold see.
    change (_siz ch') with (_siz ch). replace (_siz ch <? 0) with true by lia.
    replace (b =? BEGIN) with false by lia. cbn [negb outcome].
    rewrite Z.add_0_r. reflexivity. }
  pose proof (Process_raise (len (_buf ch')) 0 ch' ch' _ Hit) as Hp.
  rewrite <- Hc in Hp, Hi.
  split; [|split].
  - rewrite (receive_try_Process _ _ _ Hi Hp). rewrite Hc. reflexivity.
  - unfold trigger. rewrite (_receive_Process _ _ _ Hi Hp). rewrite Hc.
    reflexivity.
  - split; [exact Ho|]. split; [exact Hs|].
    rewrite Hc in Hi. rewrite getitem_skipn by exact Hi.
    rewrite Hsk'. reflexivity.
Qed.

Lemma bad_marker_sticks_witness :
  let ch := set_buf (bytes_of "x") (Channel_init FakeSocket.init ENCODING) in
  let ch' := set_buf (_buf ch ++ FakeSocket._buf (_io ch) ++ bytes_of "@8:EVT:1:hi")
               (set_io FakeSocket.init ch) in
  receive_try (feed (bytes_of "@8:EVT:1:hi") ch)
  = Some (ch', Raise (BadMessage "Missing begin message marker"))
  /\ trigger (bytes_of "@8:EVT:1:hi") ch
     = Some (ch', Raise (AttributeError
                           "'Channel' object has no attribute 'disconnect'"))
  /\ (0 <= _off ch' /\ _siz ch' < 0
      /\ getitem (_buf ch') (_off ch') = Some 120).
Proof.
  intros ch.
  apply (bad_marker_sticks ch 120 (bytes_of "@8:EVT:1:hi"));
    [change (0 <= 0); lia | change (-1 < 0); lia | reflexivity | discriminate].
Defined.

(** X20 (decoding resumes after a refused body).  When the loop was left by
    an exception raised for the text of a frame, the cursor is past that
    frame and no size is pending (lines 250-251 come before 257-260).  From
    such a state, if what lies after the cursor, followed by what the
    transport holds and by the bytes that arrive, is a sequence of complete
    frames, at least one, the next trigger returns and queues all their
    messages in order; the cut that follows drops everything before the
    cursor, the refused frame included. *)
Theorem decoding_resumes
        (ch : Channel) (chunk : bytes) (fs : list (bytes * job)) :
  0 <= _off ch <= len (_buf ch) -> _siz ch = -1 -> fs <> [] ->
  all_complete (_enc ch) fs ->
  skipn (Z.to_nat (_off ch)) (_buf ch) ++ FakeSocket._buf (_io ch) ++ chunk
  = stream fs ->
  trigger chunk ch
  = Some (set_jobs (_jobs ch ++ carried fs)
            (set_off 0 (set_buf [] (set_io FakeSocket.init ch))), Ok tt).
Proof.
  intros Hi Hs Hne Hall Hsk. unfold trigger.
  set (s1 := collected (feed chunk ch)).
  assert (Hb1 : _buf s1 = _buf ch ++ FakeSocket._buf (_io ch) ++ chunk)
    by (unfold s1; rewrite collected_feed; reflexivity).
  assert (Ho1 : _off s1 = _off ch) by reflexivity.
  assert (Hi1 : inv s1) by (apply inv_collected_feed; exact Hi).
  assert (Hsk1 : skipn (Z.to_nat (_off s1)) (_buf s1) = stream fs).
  { rewrite Ho1, Hb1. rewrite skipn_app_le by (unfold len in Hi; lia).
    exact Hsk. }
  assert (Hlen : len (_buf s1) = _off s1 + len (stream fs)).
  { rewrite <- Hsk1. unfold inv in Hi1. rewrite len_skipn by lia. lia. }
  pose proof (len_nonneg (stream fs)) as Hsn.
  assert (Hp : Process (len (_buf s1)) 0 s1 (advanced fs s1)
                 (Ok (_off s1 + len (stream fs)))).
  { apply (Process_frames fs s1 0 [] _ _ Hi1 Hs Hall).
    - rewrite app_nil_r. exact Hsk1.
    - replace (match fs with [] => 0 | _ :: _ => _off s1 + len (stream fs) end)
        with (_off s1 + len (stream fs)) by (destruct fs; [congruence|reflexivity]).
      apply Process_break. apply (iteration_nothing (advanced fs s1)).
      + unfold inv, advanced. cbn [_off _buf set_off set_jobs].
        unfold inv in Hi1. lia.
      + exact Hs.
      + unfold advanced. cbn [_off _buf set_off set_jobs].
        rewrite <- Hlen. apply skipn_all_len. }
  rewrite (_receive_Process _ _ _ Hi1 Hp). do 2 f_equal.
  apply Channel_eq; try reflexivity.
  - change (skipn (Z.to_nat (_off s1 + len (stream fs))) (_buf s1) = []).
    rewrite <- Hlen. apply skipn_all_len.
  - change (_off s1 + len (stream fs) - (_off s1 + len (stream fs)) = 0). lia.
Qed.

Lemma decoding_resumes_witness :
  let ch := set_siz (-1) (set_off 4 (set_buf (bytes_of "@1:x")
              (Channel_init FakeSocket.init ENCODING))) in
  let fs := [(bytes_of "@8:EVT:1:hi", (text_of "EVT", 1, text_of "hi"))] in
  trigger (bytes_of "@8:EVT:1:hi") ch
  = Some (set_jobs (_jobs ch ++ carried fs)
            (set_off 0 (set_buf [] (set_io FakeSocket.init ch))), Ok tt).
Proof.
  intros ch fs.
  apply (decoding_resumes ch (bytes_of "@8:EVT:1:hi") fs);
    [change (0 <= 4 <= 4); lia | reflexivity | discriminate
    | apply Forall_cons; [reflexivity | apply Forall_nil] | reflexivity].
Defined.

(** ** What receiving leaves alone *)

Lemma only_received_refl (s : Channel) : only_received s s.
Proof.
  unfold only_received. repeat split. exists []. now rewrite app_nil_r.
Qed.

Lemma only_received_trans (s t u : Channel) :
  only_received s t -> only_received t u -> only_received s u.
Proof.
  unfold only_received.
  intros (A1 & A2 & A3 & j1 & A4) (B1 & B2 & B3 & j2 & B4).
  repeat split; try congruence.
  exists (j1 ++ j2). rewrite B4, A4, app_assoc. reflexivity.
Qed.

Lemma only_received_same (s t : Channel) :
  _cnt t = _cnt s -> _enc t = _enc s -> _cbk t = _cbk s -> _jobs t = _jobs s ->
  only_received s t.
Proof.
  intros H1 H2 H3 H4. unfold only_received. repeat split; try assumption.
  exists []. now rewrite app_nil_r.
Qed.

Lemma iteration_only_received (b : Z) : keeps only_received (iteration b).
Proof.
  unfold iteration, message, parse_header, push_job.
  repeat first
    [ apply (keeps_ret only_received only_received_refl)
    | apply (keeps_raise only_received only_received_refl)
    | apply (keeps_lift only_received only_received_refl)
    | apply (keeps_get only_received only_received_refl)
    | apply (keeps_bind only_received only_received_trans); [ | intros ? ]
    | apply (keeps_modify only_received); intros ?;
      apply only_received_same; reflexivity
    | apply (keeps_modify only_received); intros ?;
      unfold only_received; repeat split; eexists; reflexivity
    | match goal with
      | |- keeps _ (match ?x with _ => _ end) => destruct x
      end ].
Qed.

Lemma process_only_received (fuel : nat) :
  forall b c s s' r, process fuel b c s = Some (s', r) -> only_received s s'.
Proof.
  induction fuel as [|fuel IH]; intros b c s s' r H; cbn [process] in H;
    [discriminate|].
  pose proof (iteration_only_received b s) as Hc.
  destruct (iteration b s) as [s1 [[|c']|e]]; cbn [fst] in Hc.
  - inversion H; subst. exact Hc.
  - apply IH in H. exact (only_received_trans _ _ _ Hc H).
  - inversion H; subst. exact Hc.
Qed.

Lemma collect_only_received (fuel : nat) :
  forall n s s' r, collect fuel n s = Some (s', r) -> only_received s s'.
Proof.
  induction fuel as [|fuel IH]; intros n s s' r H; cbn [collect] in H;
    [discriminate|].
  unfold io_recv in H.
  destruct (FakeSocket.recv (_io s) n) as [buf io].
  match type of H with
  | context [if len buf >? 0 then ?x else ?y] =>
      set (self2 := if len buf >? 0 then x else y) in H;
      assert (Hc2 : only_received s self2)
        by (unfold self2; destruct (len buf >? 0);
            [destruct (len (_buf (set_io io s)) >? 0)|];
            apply only_received_same; reflexivity);
      clearbody self2
  end.
  destruct (len buf <? n).
  - inversion H; subst. exact Hc2.
  - apply IH in H. exact (only_received_trans _ _ _ Hc2 H).
Qed.

(** X21 (receiving leaves the sending side alone).  Whatever the state of
    the channel and whatever it receives, and whether [_receive] returns or
    raises, it leaves the serial counter, the codec and the callback as they
    are, and the queue only grows at its end: no job already queued is
    removed, changed or reordered. *)
Theorem receive_only_queues (ch ch' : Channel) (r : result unit) :
  _receive ch = Some (ch', r) ->
  _cnt ch' = _cnt ch /\ _enc ch' = _enc ch /\ _cbk ch' = _cbk ch
  /\ exists js, _jobs ch' = _jobs ch ++ js.
Proof.
  unfold _receive, receive_try. intros H.
  change (only_received ch ch').
  destruct (collect _ 1024 ch) as [[s1 [[]|e]]|] eqn:Hc; try discriminate.
  - apply collect_only_received in Hc.
    destruct (process _ _ 0 s1) as [[s2 [k|e]]|] eqn:Hp; try discriminate.
    + apply process_only_received in Hp.
      apply (only_received_trans _ _ _ Hc).
      apply (only_received_trans _ _ _ Hp).
      destruct (k >? 0); inversion H; subst;
        apply only_received_same; reflexivity.
    + apply process_only_received in Hp. unfold bind in H.
      rewrite disconnect_raises in H. inversion H; subst.
      exact (only_received_trans _ _ _ Hc Hp).
  - apply collect_only_received in Hc. unfold bind in H.
    rewrite disconnect_raises in H. inversion H; subst. exact Hc.
Qed.

Lemma receive_only_queues_witness :
  let ch := feed (bytes_of "@8:EVT:1:hi@4:CM")
              (set_jobs [(text_of "CMD", 7, text_of "go")]
                 (set_cnt 7 (Channel_init FakeSocket.init ENCODING))) in
  let ch' := set_jobs [(text_of "CMD", 7, text_of "go");
                       (text_of "EVT", 1, text_of "hi")]
               (set_siz 4 (set_off 3 (set_buf (bytes_of "@4:CM")
                  (set_cnt 7 (Channel_init FakeSocket.init ENCODING))))) in
  _cnt ch' = _cnt ch /\ _enc ch' = _enc ch /\ _cbk ch' = _cbk ch
  /\ exists js, _jobs ch' = _jobs ch ++ js.
Proof.
  intros ch ch'.
  apply (receive_only_queues ch ch' (Ok tt)). reflexivity.
Defined.

(** ** Headers the encoder never writes *)

Lemma framed_complete (enc : Codec) (ds b : bytes) (msg : text) (j : job) :
  all_digits ds = true -> ds <> [] -> value_of ds 0 = len b -> b <> [] ->
  decode enc b = Ok msg -> parse_message msg = Ok j ->
  complete_frame enc (BEGIN :: ds ++ SEPARATOR :: b) j.
Proof.
  intros Hd Hne Hv Hb Hdec Hp. unfold complete_frame.
  set (f := BEGIN :: ds ++ SEPARATOR :: b).
  set (s0 := set_buf f (Channel_init FakeSocket.init enc)).
  assert (Hi : inv s0)
    by (unfold inv; change (0 <= 0 <= len f); pose proof (len_nonneg f); lia).
  pose proof (iteration_see s0 Hi) as Hsee.
  change (len (_buf s0)) with (len f) in Hsee. rewrite Hsee.
  change (_enc s0) with enc. change (_siz s0) with (-1).
  change (skipn (Z.to_nat (_off s0)) (_buf s0)) with f.
  unfold f at 1. rewrite <- (app_nil_r b) at 1.
  rewrite (framed_see enc ds b [] Hd Hne Hv Hb), Hdec, Hp.
  cbn [outcome]. change (_off s0) with 0.
  replace (0 + (len ds + 2 + len b)) with (len f)
    by (unfold f; rewrite len_cons, len_app, len_cons; lia).
  reflexivity.
Qed.

Lemma trigger_one (ch : Channel) (f : bytes) (j : job) :
  at_rest ch -> complete_frame (_enc ch) f j ->
  trigger f ch = Some (set_jobs (_jobs ch ++ [j]) ch, Ok tt).
Proof.
  intros Hrest Hcf.
  assert (Hall : all_complete (_enc ch) [(f, j)])
    by (apply Forall_cons; [exact Hcf | apply Forall_nil]).
  pose proof (trigger_stream _ ch Hrest Hall) as Ht.
  unfold stream in Ht. cbn [map fst snd carried List.concat] in Ht.
  rewrite app_nil_r in Ht. exact Ht.
Qed.

Lemma zeros_digits (k : nat) :
  all_digits (repeat ZERO k) = true
  /\ forall acc, value_of (repeat ZERO k) acc = acc * 10 ^ Z.of_nat k.
Proof.
  induction k as [|k (IH1 & IH2)].
  - split; [reflexivity|]. intros acc. cbn. change (10 ^ Z.of_nat 0) with 1. lia.
  - split.
    + cbn [repeat all_digits forallb]. fold (all_digits (repeat ZERO k)).
      rewrite IH1. reflexivity.
    + intros acc. cbn [repeat]. unfold value_of in *. cbn [fold_left].
      rewrite IH2. rewrite Nat2Z.inj_succ, Z.pow_succ_r by lia.
      unfold ZERO. lia.
Qed.

(** X22 (zeros before the size; lines 220-224).  The header scan only adds
    up digits: a size written with any number of zeros in front is read as
    the same size.  On a decoder at rest, a frame whose header is ['@'], [k]
    zeros, the length of the body in decimal and [':'], and whose body the
    codec decodes to a text that parses to a triple, is decoded by one
    trigger, which queues that triple. *)
Theorem padded_size_accepted
        (ch : Channel) (k : nat) (b : bytes) (msg : text) (j : job) :
  at_rest ch -> b <> [] ->
  decode (_enc ch) b = Ok msg -> parse_message msg = Ok j ->
  trigger (BEGIN :: repeat ZERO k ++ digits (len b) ++ SEPARATOR :: b) ch
  = Some (set_jobs (_jobs ch ++ [j]) ch, Ok tt).
Proof.
  intros Hrest Hb Hdec Hp. pose proof (len_nonneg b) as Hn.
  destruct (digits_spec (len b) Hn) as (Hd & Hv & Hne).
  destruct (zeros_digits k) as (Hz1 & Hz2).
  rewrite app_assoc. apply (trigger_one ch _ j Hrest).
  apply (framed_complete (_enc ch) (repeat ZERO k ++ digits (len b)) b msg j);
    try assumption.
  - unfold all_digits in *. rewrite forallb_app, Hz1, Hd. reflexivity.
  - intros H. apply app_eq_nil in H. destruct H as [_ H]. exact (Hne H).
  - unfold value_of in *. rewrite fold_left_app, Hz2. cbn [Z.mul]. exact Hv.
Qed.

Lemma padded_size_accepted_witness :
  trigger (bytes_of "@008:EVT:1:hi") (Channel_init FakeSocket.init ENCODING)
  = Some (set_jobs (_jobs (Channel_init FakeSocket.init ENCODING)
                    ++ [(text_of "EVT", 1, text_of "hi")])
            (Channel_init FakeSocket.init ENCODING), Ok tt).
Proof.
  exact (padded_size_accepted (Channel_init FakeSocket.init ENCODING) 2
           (bytes_of "EVT:1:hi") (text_of "EVT:1:hi")
           (text_of "EVT", 1, text_of "hi")
           ltac:(repeat split) ltac:(discriminate) eq_refl eq_refl).
Defined.
